(** * GoNews: a boolean and ranked full-text search engine

    Shallow embedding of [analyze.go], [query.go] and [index.go] and the
    properties of the query compiler, the positional inverted index, the
    RPN evaluator, the scorer and the snippet window.

    Modelling conventions.
    - A Go [string] is a sequence of bytes: Rocq's [string].  The
      conversion [string(c)] of a byte [c] is the UTF-8 encoding of the
      rune [c]: one byte below 128, two bytes from 128 on ([runeString]).
    - The library functions [strings.ToLower], [strings.ToUpper] and
      [strings.TrimSpace] decode runes when the text has a byte above 127.
      They are modelled on ASCII text, where they work byte by byte; the
      model leaves bytes above 127 alone.  A statement that depends on
      them for arbitrary text says so: it assumes [isASCII].
    - [map[string]Posting], [map[int][]int], [map[int]Document] and
      [map[int]int] are [gmap]s; [map[int]struct{}] is a [gset Z].
    - Document identifiers are Go [int]s read by [strconv.Atoi]: [Z].
      Lengths, positions and counters come from [len] and [range]: [nat].
    - [float64] scores are idealised as real numbers ([R]) and [math.Log]
      as [ln]: rounding, overflow and NaN are outside the model.
    - Methods with receiver [*Index] run in a state monad over [Index];
      a method that only reads leaves the state as it found it, which is
      proved, not assumed.
    - Go leaves the iteration order of a map unspecified and [sort.Slice]
      is not stable.  The model enumerates sets in the order of stdpp's
      [elements] and sorts with [merge_sort]; no statement below depends
      on that order. *)

From Stdlib Require Import Ascii String Reals Lra.
From stdpp Require Import gmap strings list sorting.

Local Open Scope string_scope.
Local Open Scope list_scope.

(** ** Bytes and strings *)

Module Text.

Definition byteIn (lo hi : N) (c : ascii) : bool :=
  let n := N_of_ascii c in ((lo <=? n) && (n <=? hi))%N.

Definition isUpper (c : ascii) : bool := byteIn 65 90 c.
Definition isLower (c : ascii) : bool := byteIn 97 122 c.
Definition isDigit (c : ascii) : bool := byteIn 48 57 c.

(** The character class of [wordRE], [[a-zA-Z0-9]]. *)
Definition isWordByte (c : ascii) : bool :=
  isLower c || isUpper c || isDigit c.

(** ASCII white space as [strings.TrimSpace] sees it:
    tab, line feed, vertical tab, form feed, carriage return, space. *)
Definition isSpace (c : ascii) : bool :=
  byteIn 9 13 c || byteIn 32 32 c.

Definition lowerByte (c : ascii) : ascii :=
  if isUpper c then ascii_of_N (N_of_ascii c + 32) else c.

Definition upperByte (c : ascii) : ascii :=
  if isLower c then ascii_of_N (N_of_ascii c - 32) else c.

Fixpoint mapBytes (f : ascii -> ascii) (s : string) : string :=
  match s with
  | EmptyString => EmptyString
  | String c s' => String (f c) (mapBytes f s')
  end.

(** [strings.ToLower] and [strings.ToUpper] on ASCII text. *)
Definition ToLower : string -> string := mapBytes lowerByte.
Definition ToUpper : string -> string := mapBytes upperByte.

(** [s] followed by the byte [c] *)
Definition snoc (s : string) (c : ascii) : string := s +:+ String c "".

Definition isASCIIByte (c : ascii) : bool := (N_of_ascii c <? 128)%N.

(** [string(c)] for a byte [c]: the UTF-8 encoding of the rune of that
    value, [c] itself below 128 and the two bytes [0xC0 | c>>6],
    [0x80 | c&0x3F] from 128 on. *)
Definition runeString (c : ascii) : string :=
  let n := N_of_ascii c in
  if (n <? 128)%N then String c ""
  else String (ascii_of_N (192 + n / 64))
         (String (ascii_of_N (128 + n mod 64)) "").

Fixpoint trimLeft (s : string) : string :=
  match s with
  | String c s' => if isSpace c then trimLeft s' else s
  | EmptyString => EmptyString
  end.

(** Drop the white space at the end: a byte goes when it is a space and
    nothing is kept after it. *)
Fixpoint trimRight (s : string) : string :=
  match s with
  | EmptyString => EmptyString
  | String c s' =>
      let r := trimRight s' in
      if isSpace c && bool_decide (r = EmptyString) then EmptyString
      else String c r
  end.

(** [strings.TrimSpace] on ASCII text. *)
Definition TrimSpace (s : string) : string := trimRight (trimLeft s).

Fixpoint HasPrefix (s p : string) {struct p} : bool :=
  match p with
  | EmptyString => true
  | String a p' =>
      match s with
      | EmptyString => false
      | String b s' => if decide (a = b) then HasPrefix s' p' else false
      end
  end.

Fixpoint dropBytes (n : nat) (s : string) : string :=
  match n, s with
  | S n', String _ s' => dropBytes n' s'
  | _, _ => s
  end.

Definition TrimPrefix (s p : string) : string :=
  if HasPrefix s p then dropBytes (String.length p) s else s.

Fixpoint Join (l : list string) (sep : string) : string :=
  match l with
  | [] => ""
  | [x] => x
  | x :: rest => x +:+ sep +:+ Join rest sep
  end.

End Text.
Import Text.

(** ** analyze.go: the tokenizer *)

Definition stopwords : gset string :=
  list_to_set
    ["the"; "is"; "and"; "a"; "an"; "of"; "to"; "in";
     "for"; "on"; "with"; "by"; "that"; "this"; "it"; "as";
     "are"; "was"; "at"; "from"; "be"; "has"; "have"].

(** [var EnableStemming = false]; [main] may set it from a flag. *)
Definition EnableStemming : bool := false.

(** [Stem] is a placeholder in the source: it returns its argument. *)
Definition Stem (w : string) : string := w.

(** [wordRE.FindAllString(text, -1)]: the maximal runs of word bytes, left
    to right.  [cur] is the run being read. *)
Fixpoint findWords (cur : string) (s : string) : list string :=
  match s with
  | EmptyString => if decide (cur = "") then [] else [cur]
  | String c s' =>
      if isWordByte c then findWords (snoc cur c) s'
      else (if decide (cur = "") then [] else [cur]) ++ findWords "" s'
  end.

Definition FindAllString (text : string) : list string := findWords "" text.

Definition TokenizeWith (stem : bool) (text : string) : list string :=
  let text := ToLower text in
  let matches := FindAllString text in
  omap (fun m =>
          if bool_decide (m ∈ stopwords) then None
          else Some (if stem then Stem m else m))
       matches.

Definition Tokenize (text : string) : list string :=
  TokenizeWith EnableStemming text.

(** ** query.go: the query compiler *)

Definition isOperator (t : string) : bool :=
  let u := ToUpper t in
  bool_decide (u = "AND") || bool_decide (u = "OR") || bool_decide (u = "NOT").

(** *** First loop: split the query into raw tokens *)

Record LexState := mkLex {
  lx_toks : list string;
  lx_cur : string;
  lx_inQuote : bool
}.

Definition quoteByte : ascii := ascii_of_N 34.

Definition lexStep (st : LexState) (c : ascii) : LexState :=
  let '(mkLex toks cur inQuote) := st in
  if decide (c = quoteByte) then
    if inQuote then
      mkLex (if decide (cur = "") then toks else toks ++ ["PHRASE:" +:+ cur])
            "" false
    else mkLex toks "" true
  else if inQuote then mkLex toks (cur +:+ runeString c) inQuote
  else if decide (c = " "%char) then
    mkLex (if decide (cur = "") then toks else toks ++ [cur]) "" inQuote
  else if bool_decide (c = "("%char) || bool_decide (c = ")"%char) then
    mkLex ((if decide (cur = "") then toks else toks ++ [cur]) ++ [String c ""])
          "" inQuote
  else mkLex toks (cur +:+ runeString c) inQuote.

(** [var toks []string; cur := ""; inQuote := false] *)
Definition lexInit : LexState := mkLex [] "" false.

Definition lexRun (st : LexState) (q : string) : LexState :=
  fold_left lexStep (list_ascii_of_string q) st.

(** The flush after the loop does not look at [inQuote]. *)
Definition lexFinish (st : LexState) : list string :=
  if decide (lx_cur st = "") then lx_toks st else lx_toks st ++ [lx_cur st].

Definition lexQuery (q : string) : list string :=
  lexFinish (lexRun lexInit q).

(** *** Second loop: normalise operands *)

Definition normalizeTok (tok : string) : string :=
  let t := ToUpper tok in
  if bool_decide (t = "AND") || bool_decide (t = "OR") || bool_decide (t = "NOT")
     || bool_decide (t = "(") || bool_decide (t = ")") || HasPrefix t "PHRASE:"
  then tok
  else
    let t := ToLower t in
    let sub := Tokenize t in
    match sub with
    | [] => t
    | [w] => w
    | _ => Join sub "_"
    end.

(** *** Third loop: shunting-yard *)

Definition prec : gmap string nat :=
  {[ "OR" := 1; "AND" := 2; "NOT" := 3 ]}.

(** [prec[k]]: a missing key reads as zero. *)
Definition precOf (k : string) : nat := default 0 (prec !! k).

(** The operator stack is kept with its top at the head of the list. *)
Record YardState := mkYard {
  y_out : list string;
  y_ops : list string
}.

(** [for len(opstack) > 0 && opstack[top] != "(" { out = append(out, popOp()) }] *)
Fixpoint popToParen (out ops : list string) : YardState :=
  match ops with
  | [] => mkYard out []
  | op :: rest =>
      if decide (op = "(") then mkYard out ops
      else popToParen (out ++ [op]) rest
  end.

(** The loop run when an operator [u] arrives. *)
Fixpoint popHigher (u : string) (out ops : list string) : YardState :=
  match ops with
  | [] => mkYard out []
  | op :: rest =>
      if decide (op = "(") then mkYard out ops
      else if (precOf u <=? precOf (ToUpper op))%nat
           then popHigher u (out ++ [op]) rest
           else mkYard out ops
  end.

Definition yardStep (st : YardState) (tk : string) : YardState :=
  let '(mkYard out ops) := st in
  if decide (tk = "(") then mkYard out (tk :: ops)
  else if decide (tk = ")") then
    let st' := popToParen out ops in
    match y_ops st' with
    | top :: rest => if decide (top = "(") then mkYard (y_out st') rest else st'
    | [] => st'
    end
  else
    let u := ToUpper tk in
    if bool_decide (u = "AND") || bool_decide (u = "OR") || bool_decide (u = "NOT")
    then
      let st' := popHigher u out ops in
      mkYard (y_out st') (u :: y_ops st')
    else if HasPrefix tk "PHRASE:" then
      let ph := TrimPrefix tk "PHRASE:" in
      mkYard (out ++ ["PHRASE:" +:+ ph]) ops
    else mkYard (out ++ [tk]) ops.

(** [for len(opstack) > 0 { out = append(out, popOp()) }]: everything that
    is left goes to the output, top first. *)
Definition yardFlush (st : YardState) : list string := y_out st ++ y_ops st.

Definition shuntingYard (toks : list string) : list string :=
  yardFlush (fold_left yardStep toks (mkYard [] [])).

Definition QueryToRPN (q : string) : list string :=
  let q := TrimSpace q in
  if decide (q = "") then []
  else shuntingYard (map normalizeTok (lexQuery q)).

(** *** MakeSnippet *)

(** The inner loop over [terms]: does the content token [w] equal a literal
    term, or the first word of a term tagged as a phrase? *)
Fixpoint matchesAny (w : string) (terms : list string) : bool :=
  match terms with
  | [] => false
  | t :: terms' =>
      if HasPrefix t "PHRASE:" then
        let ph := TrimPrefix t "PHRASE:" in
        match Tokenize ph with
        | ph0 :: _ => if decide (w = ph0) then true else matchesAny w terms'
        | [] => matchesAny w terms'
        end
      else if decide (w = t) then true else matchesAny w terms'
  end.

(** The outer loop over the content tokens; [None] stands for [first == -1]. *)
Fixpoint findFirst (i : nat) (toks terms : list string) : option nat :=
  match toks with
  | [] => None
  | w :: toks' => if matchesAny w terms then Some i else findFirst (S i) toks' terms
  end.

(** [toks[start:end]] *)
Definition slice (toks : list string) (start end_ : nat) : list string :=
  take (end_ - start) (drop start toks).

Definition MakeSnippet (content : string) (terms : list string) : string :=
  if decide (String.length content = 0) then ""
  else
    let toks := Tokenize content in
    match findFirst 0 toks terms with
    | None =>
        let end_ := if (length toks <? 30)%nat then length toks else 30 in
        Join (slice toks 0 end_) " " +:+ "..."
    | Some first =>
        let start := if (first <? 8)%nat then 0 else first - 8 in
        let end_ := if (length toks <? first + 12)%nat then length toks else first + 12 in
        let snippet := Join (slice toks start end_) " " in
        "..." +:+ snippet +:+ "..."
    end.

(** ** index.go: the positional inverted index *)

Record Document := mkDocument {
  ID : Z;
  Title : string;
  Date : string;
  Content : string
}.

(** [type Posting map[int][]int] is written [gmap Z (list nat)] throughout. *)

Record Index := mkIndex {
  Terms : gmap string (gmap Z (list nat));
  Docs : gmap Z Document;
  DocTokCounts : gmap Z nat;
  N : nat
}.

Definition NewIndex : Index := mkIndex ∅ ∅ ∅ 0.

(** *** The monad of methods on [*Index]

    A method reads and writes the index it is called on, and an index
    expression out of range panics. *)

Inductive Outcome (A : Type) : Type :=
| Done (a : A)
| Panic.
Arguments Done {A} a.
Arguments Panic {A}.

Definition IndexM (A : Type) : Type := Index -> Outcome A * Index.

#[global] Instance IndexM_ret : MRet IndexM := fun A a idx => (Done a, idx).

#[global] Instance IndexM_bind : MBind IndexM := fun A B f m idx =>
  match m idx with
  | (Done a, idx') => f a idx'
  | (Panic, idx') => (Panic, idx')
  end.

Definition gets {A} (f : Index -> A) : IndexM A := fun idx => (Done (f idx), idx).
Definition modify (f : Index -> Index) : IndexM unit := fun idx => (Done tt, f idx).
Definition panic {A} : IndexM A := fun idx => (Panic, idx).

(** [for _, x := range l { acc = body(acc, x) }] *)
Fixpoint forRange {A B} (body : B -> A -> IndexM B) (acc : B) (l : list A) : IndexM B :=
  match l with
  | [] => mret acc
  | x :: l' => acc' ← body acc x; forRange body acc' l'
  end.

(** *** AddDocument *)

Definition setTerms (f : gmap string (gmap Z (list nat)) -> gmap string (gmap Z (list nat)))
    (idx : Index) : Index :=
  mkIndex (f (Terms idx)) (Docs idx) (DocTokCounts idx) (N idx).

(** [idx.Terms[t][doc]]: a missing key reads as the nil map, then as the
    nil slice. *)
Definition positions (idx : Index) (t : string) (doc : Z) : list nat :=
  default [] (default ∅ (Terms idx !! t) !! doc).

(** [idx.DocTokCounts[doc]]: a missing key reads as zero. *)
Definition tokCount (idx : Index) (doc : Z) : nat :=
  default 0 (DocTokCounts idx !! doc).

(** The body of the loop over [tokens]. *)
Definition addPosting (id : Z) (pos : nat) (tok : string) : IndexM unit :=
  ok ← gets (fun idx => bool_decide (is_Some (Terms idx !! tok)));
  _ ← (if ok : bool then mret tt else modify (setTerms (fun terms => <[tok := ∅]> terms)));
  modify (fun idx =>
    setTerms (fun terms =>
      <[tok := <[id := positions idx tok id ++ [pos]]> (default ∅ (terms !! tok))]> terms) idx).

Fixpoint addTokens (id : Z) (pos : nat) (tokens : list string) : IndexM unit :=
  match tokens with
  | [] => mret tt
  | tok :: rest => _ ← addPosting id pos tok; addTokens id (S pos) rest
  end.

(** [Tokenize(d.Title + " " + d.Content)] *)
Definition docTokens (d : Document) : list string :=
  Tokenize (Title d +:+ " " +:+ Content d).

Definition AddDocument (d : Document) : IndexM unit :=
  _ ← modify (fun idx => mkIndex (Terms idx) (<[ID d := d]> (Docs idx)) (DocTokCounts idx) (N idx));
  let tokens := docTokens d in
  _ ← modify (fun idx =>
        mkIndex (Terms idx) (Docs idx) (<[ID d := length tokens]> (DocTokCounts idx)) (N idx));
  _ ← addTokens (ID d) 0 tokens;
  modify (fun idx => mkIndex (Terms idx) (Docs idx) (DocTokCounts idx) (size (Docs idx))).

(** [main.go]: [idx := NewIndex(); for _, d := range docs { idx.AddDocument(d) }] *)
Definition indexAll (docs : list Document) : IndexM unit :=
  forRange (fun _ d => AddDocument d) tt docs.

Definition buildIndex (docs : list Document) : Index :=
  snd (indexAll docs NewIndex).

(** *** Sets of document identifiers *)

(** [sort.Ints] of the keys of a posting. *)
Definition postingIDs (post : gmap Z (list nat)) : list Z :=
  merge_sort Z.le (map fst (map_to_list post)).

Definition allDocsSet : IndexM (gset Z) := gets (fun idx => dom (Docs idx)).

(** The smaller set is the one iterated. *)
Definition setIntersect (a b : gset Z) : gset Z :=
  let '(a, b) := if (size b <? size a)%nat then (b, a) else (a, b) in
  filter (fun k => k ∈ b) a.

Definition setUnion (a b : gset Z) : gset Z :=
  list_to_set (elements a ++ elements b).

Definition setDiff (a b : gset Z) : gset Z :=
  filter (fun k => k ∉ b) a.

Fixpoint contains (arr : list nat) (x : nat) : bool :=
  match arr with
  | [] => false
  | v :: arr' => if decide (v = x) then true else contains arr' x
  end.

(** The two-index merge loop: [a] is consumed by the outer recursion, [b]
    by the inner one. *)
Fixpoint intersectSorted (a b : list Z) : list Z :=
  match a with
  | [] => []
  | x :: a' =>
      (fix advance (b : list Z) : list Z :=
         match b with
         | [] => []
         | y :: b' =>
             if decide (x = y) then x :: intersectSorted a' b'
             else if decide (x < y)%Z then intersectSorted a' b
             else advance b'
         end) b
  end.

(** *** Phrases *)

(** The first loop of [checkPhraseInDoc]: [None] when it returned [false]. *)
Fixpoint readPosLists (doc : Z) (tokens : list string) : IndexM (option (list (list nat))) :=
  match tokens with
  | [] => mret (Some [])
  | t :: rest =>
      pl ← gets (fun idx => positions idx t doc);
      if decide (length pl = 0) then mret None
      else r ← readPosLists doc rest; mret (cons pl <$> r)
  end.

(** [for i := 1; i < len(tokens); i++]: [lists] holds [posLists[i:]]. *)
Fixpoint offsetsMatch (p i : nat) (lists : list (list nat)) : bool :=
  match lists with
  | [] => true
  | l :: lists' => if contains l (p + i) then offsetsMatch p (S i) lists' else false
  end.

Definition checkPhraseInDoc (doc : Z) (tokens : list string) : IndexM bool :=
  r ← readPosLists doc tokens;
  match r with
  | None => mret false
  | Some posLists =>
      match posLists with
      | [] => panic (* posLists[0]: index out of range *)
      | first :: others => mret (existsb (fun p => offsetsMatch p 1 others) first)
      end
  end.

(** The loop computing [candidate]: [None] when it returned the empty
    result early. *)
Fixpoint candidateDocs (i : nat) (candidate : list Z) (tokens : list string)
    : IndexM (option (list Z)) :=
  match tokens with
  | [] => mret (Some candidate)
  | t :: rest =>
      posting ← gets (fun idx => Terms idx !! t);
      match posting with
      | None => mret None
      | Some posting =>
          let ids := postingIDs posting in
          let candidate := if decide (i = 0) then ids else intersectSorted candidate ids in
          if decide (length candidate = 0) then mret None
          else candidateDocs (S i) candidate rest
      end
  end.

Definition docsWithPhrase (tokens : list string) : IndexM (gset Z) :=
  if decide (length tokens = 0) then mret ∅
  else
    c ← candidateDocs 0 [] tokens;
    match c with
    | None => mret ∅
    | Some candidate =>
        forRange (fun (res : gset Z) doc =>
                    ok ← checkPhraseInDoc doc tokens;
                    mret (if ok : bool then {[doc]} ∪ res else res))
                 ∅ candidate
    end.

(** *** EvaluateRPN *)

(** The stack of sets is kept with its top at the head of the list. *)
Definition evalStep (universe : gset Z) (stack : list (gset Z)) (tok : string)
    : IndexM (list (gset Z)) :=
  if bool_decide (tok = "AND") || bool_decide (tok = "OR") then
    if (length stack <? 2)%nat then mret stack
    else
      match stack with
      | r :: l :: stack' =>
          if bool_decide (tok = "AND") then mret (setIntersect l r :: stack')
          else mret (setUnion l r :: stack')
      | _ => panic
      end
  else if bool_decide (tok = "NOT") then
    if (length stack <? 1)%nat then mret stack
    else
      match stack with
      | a :: stack' => mret (setDiff universe a :: stack')
      | _ => panic
      end
  else
    s ← (if HasPrefix tok "PHRASE:" then
           let phrase := TrimPrefix tok "PHRASE:" in
           let toks := Tokenize phrase in
           docsWithPhrase toks
         else
           posting ← gets (fun idx => Terms idx !! tok);
           match posting with
           | Some posting => mret (dom posting)
           | None => mret ∅
           end);
    mret (s :: stack).

Definition EvaluateRPN (rpn : list string) : IndexM (gset Z) :=
  universe ← allDocsSet;
  stack ← forRange (evalStep universe) [] rpn;
  match stack with
  | [] => mret ∅
  | top :: _ => mret top
  end.

(** *** Matched terms and scores *)

Record SearchResult := mkSearchResult {
  DocID : Z;
  Score : R;
  MatchedTerms : list string
}.

Definition matchedStep (doc : Z) (set : gset string) (tok : string) : IndexM (gset string) :=
  if isOperator tok then mret set
  else if HasPrefix tok "PHRASE:" then
    let phrase := TrimPrefix tok "PHRASE:" in
    let tokens := Tokenize phrase in
    ok ← checkPhraseInDoc doc tokens;
    mret (if ok : bool then {[phrase]} ∪ set else set)
  else
    posting ← gets (fun idx => Terms idx !! tok);
    match posting with
    | Some posting =>
        if (0 <? length (default [] (posting !! doc)))%nat
        then mret ({[tok]} ∪ set) else mret set
    | None => mret set
    end.

Definition matchedTermsInDoc (doc : Z) (rpn : list string) : IndexM (list string) :=
  set ← forRange (matchedStep doc) ∅ rpn;
  mret (elements set).

(** The body of the loop of [scoreDoc]. *)
Definition scoreStep (doc : Z) (score : R) (t : string) : IndexM R :=
  if HasPrefix t "PHRASE:" then mret (score + 2)%R
  else
    posting ← gets (fun idx => Terms idx !! t);
    match posting with
    | None => mret score
    | Some posting =>
        let tf := INR (length (default [] (posting !! doc))) in
        let df := INR (size posting) in
        count ← gets (fun idx => tokCount idx doc);
        if bool_decide (size posting = 0) || bool_decide (count = 0) then mret score
        else
          n ← gets N;
          let tfNorm := (tf / INR count)%R in
          let idf := ln (1 + INR n / df) in
          mret (score + tfNorm * idf)%R
    end.

Definition scoreDoc (doc : Z) (matched : list string) : IndexM R :=
  forRange (scoreStep doc) 0%R matched.

(** *** Search *)

#[local] Instance score_ge_dec : RelDecision (fun a b : SearchResult => (Score b <= Score a)%R).
Proof. intros a b. apply Rle_dec. Defined.

Definition sortByScore (results : list SearchResult) : list SearchResult :=
  merge_sort (fun a b => (Score b <= Score a)%R) results.

Definition Search (query : string) : IndexM (list SearchResult) :=
  if decide (String.length query = 0) then mret []
  else
    let rpn := QueryToRPN query in
    resSet ← EvaluateRPN rpn;
    results ← forRange (fun results doc =>
                 matched ← matchedTermsInDoc doc rpn;
                 score ← scoreDoc doc matched;
                 mret (results ++ [mkSearchResult doc score matched]))
               [] (elements resSet);
    mret (sortByScore results).

(** * Vocabulary of the statements *)

(** [returns m idx a]: run on [idx], the method [m] returns [a] and leaves
    [idx] as it was. *)
Definition returns {A} (m : IndexM A) (idx : Index) (a : A) : Prop :=
  m idx = (Done a, idx).

(** [frame m]: whatever [m] does, panic included, the index is not
    changed. *)
Definition frame {A} (m : IndexM A) : Prop :=
  forall idx, snd (m idx) = idx.

Fixpoint occurrencesFrom (pos : nat) (t : string) (tokens : list string) : list nat :=
  match tokens with
  | [] => []
  | w :: rest => (if decide (w = t) then [pos] else []) ++ occurrencesFrom (S pos) t rest
  end.

(** The positions recorded for [(t, doc)] by adding [docs] in order. *)
Definition recorded (t : string) (doc : Z) (docs : list Document) : list nat :=
  flat_map (fun d => if decide (ID d = doc) then occurrencesFrom 0 t (docTokens d) else [])
           docs.

(** What [checkPhraseInDoc] computes on a non-empty phrase. *)
Definition phraseAt (idx : Index) (doc : Z) (t : string) (rest : list string) : bool :=
  forallb (fun w => negb (Nat.eqb (length (positions idx w doc)) 0)) (t :: rest)
  && existsb (fun p => offsetsMatch p 1 (map (fun w => positions idx w doc) rest))
             (positions idx t doc).

(** [d] is a key of the posting of every word of [tokens]. *)
Definition inAllPostings (idx : Index) (tokens : list string) (d : Z) : Prop :=
  forall t, t ∈ tokens ->
    exists posting, Terms idx !! t = Some posting /\ d ∈ dom posting.

(** The documents that have a posting for [t]. *)
Definition termDocs (idx : Index) (t : string) : gset Z :=
  dom (default ∅ (Terms idx !! t)).

(** Text of bytes below 128, on which the library functions of the model
    are those of the code. *)
Definition isASCII (s : string) : Prop :=
  Forall (fun c => isASCIIByte c = true) (list_ascii_of_string s).

(** What [cur += string(c)] builds from the bytes of [s]. *)
Fixpoint runes (s : string) : string :=
  match s with
  | EmptyString => EmptyString
  | String c s' => runeString c +:+ runes s'
  end.

(** A query word that the compiler passes through unchanged: lower-case
    letters and digits, not a stopword, not an operator name. *)
Definition plainWord (t : string) : Prop :=
  t <> "" /\
  Forall (fun c => isLower c || isDigit c = true) (list_ascii_of_string t) /\
  (t ∉ stopwords) /\
  isOperator t = false.

(** A phrase operand as the user types it: the text between two double
    quotes. *)
Definition quoted (s : string) : string :=
  String quoteByte (s +:+ String quoteByte "").

(** The snippet as the specification words it: the tokens from index [i-8]
    through index [i+12], both included, and, without a match, the first 30
    tokens whatever the content. *)
Definition snippetAsClaimed (content : string) (terms : list string) : string :=
  let toks := Tokenize content in
  match findFirst 0 toks terms with
  | Some i => "..." +:+ Join (slice toks (i - 8) (Nat.min (i + 12 + 1) (length toks))) " " +:+ "..."
  | None => Join (slice toks 0 30) " " +:+ "..."
  end.

Definition catDoc : Document := mkDocument 1 "" "" "the small cat sat".

Definition sampleDocs : list Document :=
  [ mkDocument 1 "" "" "cats are independent pets";
    mkDocument 2 "" "" "dogs are loyal pets";
    mkDocument 3 "" "" "small cats and small dogs" ].

Definition onceDoc : Document := mkDocument 1 "" "" "cats like mice".
Definition twiceDoc : Document := mkDocument 1 "" "" "cats like cats".

Definition fourteenWords : string :=
  "w0 w1 w2 w3 w4 w5 w6 w7 w8 w9 w10 w11 w12 w13".

(** A boolean query as a tree over operand tokens (a literal term, or a
    phrase tagged "PHRASE:"). *)
Inductive Query : Type :=
| QOperand (tok : string)
| QNot (q : Query)
| QAnd (l r : Query)
| QOr (l r : Query).

(** The postfix form of a query. *)
Fixpoint toRPN (q : Query) : list string :=
  match q with
  | QOperand tok => [tok]
  | QNot q => toRPN q ++ ["NOT"]
  | QAnd l r => toRPN l ++ toRPN r ++ ["AND"]
  | QOr l r => toRPN l ++ toRPN r ++ ["OR"]
  end.

Fixpoint operands (q : Query) : list string :=
  match q with
  | QOperand tok => [tok]
  | QNot q => operands q
  | QAnd l r | QOr l r => operands l ++ operands r
  end.

(** The set [docsWithPhrase] returns. *)
Definition phraseDocs (idx : Index) (tokens : list string) : gset Z :=
  match fst (docsWithPhrase tokens idx) with
  | Done s => s
  | Panic => ∅
  end.

(** The set an operand token stands for. *)
Definition operandDocs (idx : Index) (tok : string) : gset Z :=
  if HasPrefix tok "PHRASE:"
  then phraseDocs idx (Tokenize (TrimPrefix tok "PHRASE:"))
  else termDocs idx tok.

(** The set a query stands for: NOT is the complement in the indexed
    documents, AND the intersection, OR the union. *)
Fixpoint denote (idx : Index) (q : Query) : gset Z :=
  match q with
  | QOperand tok => operandDocs idx tok
  | QNot q => dom (Docs idx) ∖ denote idx q
  | QAnd l r => denote idx l ∩ denote idx r
  | QOr l r => denote idx l ∪ denote idx r
  end.

(** A token that [EvaluateRPN] reads as an operand. *)
Definition evalOperand (tok : string) : Prop :=
  tok <> "AND" /\ tok <> "OR" /\ tok <> "NOT".

(** A token that the shunting-yard loop copies to the output. *)
Definition yardOperand (tok : string) : Prop :=
  tok <> "(" /\ tok <> ")" /\ isOperator tok = false.

(** A query written with every operator application in parentheses. *)
Fixpoint render (q : Query) : list string :=
  match q with
  | QOperand tok => [tok]
  | QNot q => ["("; "NOT"] ++ render q ++ [")"]
  | QAnd l r => ["("] ++ render l ++ ["AND"] ++ render r ++ [")"]
  | QOr l r => ["("] ++ render l ++ ["OR"] ++ render r ++ [")"]
  end.

(** Queries written without parentheses: a disjunction of conjunctions of
    operands, each possibly under one NOT.  A literal is a negation flag
    and an operand; lists are given by their head and tail, so none is
    empty. *)
Definition litTokens (l : bool * string) : list string :=
  if fst l then ["NOT"; snd l] else [snd l].

Definition litQuery (l : bool * string) : Query :=
  if fst l then QNot (QOperand (snd l)) else QOperand (snd l).

Definition conjTokens (c : (bool * string) * list (bool * string)) : list string :=
  litTokens (fst c) ++ flat_map (fun l => "AND" :: litTokens l) (snd c).

Definition conjQuery (c : (bool * string) * list (bool * string)) : Query :=
  fold_left (fun q l => QAnd q (litQuery l)) (snd c) (litQuery (fst c)).

Definition disjTokens
    (d : ((bool * string) * list (bool * string))
         * list ((bool * string) * list (bool * string))) : list string :=
  conjTokens (fst d) ++ flat_map (fun c => "OR" :: conjTokens c) (snd d).

Definition disjQuery
    (d : ((bool * string) * list (bool * string))
         * list ((bool * string) * list (bool * string))) : Query :=
  fold_left (fun q c => QOr q (conjQuery c)) (snd d) (conjQuery (fst d)).

(** The test by which the shunting-yard loop takes a token for an
    operand. *)
Definition isYardOperand (tok : string) : bool :=
  negb (bool_decide (tok = "(")) && negb (bool_decide (tok = ")"))
  && negb (isOperator tok).

(** A raw token that survives the scan when tokens are written with single
    spaces between them: a parenthesis, or a non-empty run of ASCII bytes
    without white space, quote or parenthesis. *)
Definition simpleTok (t : string) : Prop :=
  t = "(" \/ t = ")" \/
  (t <> "" /\
   Forall (fun c => isASCIIByte c = true /\ isSpace c = false /\
                    c <> quoteByte /\ c <> "("%char /\ c <> ")"%char)
          (list_ascii_of_string t)).

(** A literal holds in a token stream: its operand occurs, or, under NOT,
    does not occur. *)
Definition litHolds (tokens : list string) (l : bool * string) : Prop :=
  if fst l then snd l ∉ tokens else snd l ∈ tokens.

(** A phrase operand whose text has no token: only stopwords or
    separators. *)
Definition emptyPhrase (tok : string) : Prop :=
  HasPrefix tok "PHRASE:" = true /\ Tokenize (TrimPrefix tok "PHRASE:") = [].

(** [x] is what [matchedTermsInDoc] records for the operand [tok] in
    document [doc]: the term itself when it has a position there, the
    untagged text of a phrase when the phrase matches there. *)
Definition recordsMatch (idx : Index) (doc : Z) (tok x : string) : Prop :=
  isOperator tok = false /\
  ((HasPrefix tok "PHRASE:" = false /\ x = tok /\ positions idx tok doc <> []) \/
   (HasPrefix tok "PHRASE:" = true /\ x = TrimPrefix tok "PHRASE:" /\
    doc ∈ phraseDocs idx (Tokenize x))).

(** The body of the loop of [Search] over the result set. *)
Definition searchBody (rpn : list string) (results : list SearchResult) (doc : Z)
    : IndexM (list SearchResult) :=
  matched ← matchedTermsInDoc doc rpn;
  score ← scoreDoc doc matched;
  mret (results ++ [mkSearchResult doc score matched]).

(** The TF-IDF weight of term [t] in document [dd] among [docs]: the share
    of the document's tokens that are [t], times the logarithm of one plus
    the number of documents over the number of documents that contain
    [t]. *)
Definition tfidf (docs : list Document) (dd : Document) (t : string) : R :=
  (INR (length (filter (fun w => w = t) (docTokens dd))) / INR (length (docTokens dd))
   * ln (1 + INR (length docs)
             / INR (length (filter (fun d => t ∈ docTokens d) docs))))%R.

(** The content token [w] is matched by one of [terms]: it equals an
    untagged term, or the first token of the text of a tagged phrase. *)
Definition termMatches (terms : list string) (w : string) : Prop :=
  exists t, t ∈ terms /\
    ((HasPrefix t "PHRASE:" = false /\ w = t) \/
     (HasPrefix t "PHRASE:" = true /\
      head (Tokenize (TrimPrefix t "PHRASE:")) = Some w)).

(** The stack below the operators of the running sub-expression: empty,
    or topped by an opening parenthesis. *)
Definition atBase (ops : list string) : Prop :=
  ops = [] \/ exists rest, ops = "(" :: rest.

(** Operators waiting on the stack inside a conjunction, and inside a
    disjunction. *)
Definition pendAND (op : string) : Prop := op = "NOT" \/ op = "AND".
Definition pendOR (op : string) : Prop := op = "NOT" \/ op = "AND" \/ op = "OR".

(** Stacks at which the loop run by an arriving AND stops at once. *)
Definition andStops (ops : list string) : Prop :=
  atBase ops \/ exists rest, ops = "OR" :: rest.

(** Stacks at which the loop run by an arriving NOT stops at once. *)
Definition notStops (ops : list string) : Prop :=
  andStops ops \/ exists rest, ops = "AND" :: rest.

(** Tokens the operator stack can hold. *)
Definition opsTok (op : string) : Prop :=
  op = "(" \/ op = "AND" \/ op = "OR" \/ op = "NOT".

(** The state of the loop after the tokens [consumed]. *)
Definition yardInv (st : YardState) (consumed : list string) : Prop :=
  Forall opsTok (y_ops st) /\
  Forall (fun x => x <> ")") (y_out st) /\
  List.filter isYardOperand (y_out st) = List.filter isYardOperand consumed /\
  length (List.filter isOperator (y_out st)) + length (List.filter isOperator (y_ops st))
  = length (List.filter isOperator consumed).

(** Tokens that the scan and the normalisation leave as they are. *)
Definition stableTok (t : string) : Prop := simpleTok t /\ normalizeTok t = t.

#[local] Instance score_order_total : Total (fun a b : SearchResult => (Score b <= Score a)%R).
Proof. intros a b. destruct (Rle_or_lt (Score b) (Score a)); [left | right]; lra. Qed.

#[local] Instance score_order_trans :
  Transitive (fun a b : SearchResult => (Score b <= Score a)%R).
Proof. intros a b c H1 H2. lra. Qed.

#[local] Instance emptyPhrase_dec tok : Decision (emptyPhrase tok).
Proof. unfold emptyPhrase. apply _. Defined.


(** * Properties *)

(** ** Running a method *)

Section Running.
Context {A B : Type}.

Lemma returns_ret (a : A) idx : returns (mret a) idx a.
Proof. reflexivity. Qed.

Lemma returns_gets (f : Index -> A) idx : returns (gets f) idx (f idx).
Proof. reflexivity. Qed.

Lemma returns_bind (m : IndexM A) (f : A -> IndexM B) idx a b :
  returns m idx a -> returns (f a) idx b -> returns (m ≫= f) idx b.
Proof.
  unfold returns, mbind, IndexM_bind. intros -> Hf. exact Hf.
Qed.

Lemma run_bind (m : IndexM A) (f : A -> IndexM B) idx a :
  returns m idx a -> (m ≫= f) idx = f a idx.
Proof. unfold returns, mbind, IndexM_bind. intros ->. reflexivity. Qed.

Lemma returns_frame (m : IndexM A) :
  (forall idx, exists a, returns m idx a) -> frame m.
Proof. intros H idx. destruct (H idx) as [a Ha]. rewrite Ha. reflexivity. Qed.

Lemma frame_ret (a : A) : frame (mret a).
Proof. intros idx. reflexivity. Qed.

Lemma frame_gets (f : Index -> A) : frame (gets f).
Proof. intros idx. reflexivity. Qed.

Lemma frame_panic : frame (@panic A).
Proof. intros idx. reflexivity. Qed.

Lemma frame_bind (m : IndexM A) (f : A -> IndexM B) :
  frame m -> (forall a, frame (f a)) -> frame (m ≫= f).
Proof.
  intros Hm Hf idx. unfold mbind, IndexM_bind.
  specialize (Hm idx). destruct (m idx) as [[a|] idx']; simpl in Hm; subst idx'.
  - apply Hf.
  - reflexivity.
Qed.

End Running.

Lemma frame_forRange {A B} (body : B -> A -> IndexM B) (l : list A) :
  (forall acc x, frame (body acc x)) -> forall acc, frame (forRange body acc l).
Proof.
  intros Hbody. induction l as [|x l IH]; intros acc; simpl.
  - apply frame_ret.
  - apply frame_bind; [apply Hbody | intros acc'; apply IH].
Qed.

(** A loop whose body always returns, returns. *)
Lemma returns_forRange {A B} (body : B -> A -> IndexM B) (l : list A) idx :
  (forall acc x, exists acc', returns (body acc x) idx acc') ->
  forall acc, exists acc', returns (forRange body acc l) idx acc'.
Proof.
  intros Hbody. induction l as [|x l IH]; intros acc; simpl.
  - exists acc. reflexivity.
  - destruct (Hbody acc x) as [acc1 H1]. destruct (IH acc1) as [acc2 H2].
    exists acc2. eapply returns_bind; eauto.
Qed.

Ltac frame_step :=
  first
    [ apply frame_ret | apply frame_gets | apply frame_panic
    | apply frame_bind; [| intros ?]
    | apply frame_forRange; intros ? ? ].

(** ** The reading methods do not write *)

Lemma readPosLists_returns doc tokens idx :
  returns (readPosLists doc tokens) idx
    (if forallb (fun t => negb (Nat.eqb (length (positions idx t doc)) 0)) tokens
     then Some (map (fun t => positions idx t doc) tokens) else None).
Proof.
  induction tokens as [|t rest IH]; simpl; [reflexivity|].
  eapply returns_bind; [apply returns_gets|].
  destruct (decide (length (positions idx t doc) = 0)) as [E|E].
  - rewrite E. reflexivity.
  - destruct (Nat.eqb_spec (length (positions idx t doc)) 0); [contradiction|]. simpl.
    eapply returns_bind; [apply IH|].
    destruct (forallb _ rest); reflexivity.
Qed.

Lemma frame_checkPhraseInDoc doc tokens : frame (checkPhraseInDoc doc tokens).
Proof.
  unfold checkPhraseInDoc. apply frame_bind.
  - apply returns_frame. intros idx. eexists. apply readPosLists_returns.
  - intros [[|first others]|]; frame_step.
Qed.

(** ** Phrase adjacency *)

Lemma contains_elem_of arr x : contains arr x = true <-> x ∈ arr.
Proof.
  induction arr as [|v arr IH]; simpl.
  - split; [discriminate | intros H; inversion H].
  - destruct (decide (v = x)) as [->|Hne].
    + split; [intros _; left | reflexivity].
    + rewrite IH. split; [intros H; right; exact H|].
      intros H. inversion H; subst; [contradiction | assumption].
Qed.

Lemma offsetsMatch_spec p i lists :
  offsetsMatch p i lists = true <->
  forall j l, lists !! j = Some l -> (p + (i + j)) ∈ l.
Proof.
  revert i. induction lists as [|l lists IH]; intros i; simpl.
  - split; [intros _ j l H; discriminate | reflexivity].
  - destruct (contains l (p + i)) eqn:E.
    + apply contains_elem_of in E. rewrite IH. split.
      * intros H [|j] l' Hj; simpl in Hj.
        -- inversion Hj; subst. rewrite Nat.add_0_r. exact E.
        -- replace (i + S j) with (S i + j) by lia. apply H. exact Hj.
      * intros H j l' Hj. replace (S i + j) with (i + S j) by lia.
        apply H. exact Hj.
    + split; [discriminate|]. intros H.
      assert (Hin : (p + (i + 0)) ∈ l) by (apply H; reflexivity).
      rewrite Nat.add_0_r in Hin. apply contains_elem_of in Hin. congruence.
Qed.

Lemma checkPhraseInDoc_returns doc t rest idx :
  returns (checkPhraseInDoc doc (t :: rest)) idx (phraseAt idx doc t rest).
Proof.
  unfold checkPhraseInDoc, phraseAt.
  eapply returns_bind; [apply readPosLists_returns|].
  destruct (forallb _ (t :: rest)); reflexivity.
Qed.

(** On the empty phrase the index expression [posLists[0]] is out of
    range. *)
Lemma checkPhraseInDoc_empty doc idx :
  checkPhraseInDoc doc [] idx = (Panic, idx).
Proof. reflexivity. Qed.

Lemma phraseAt_spec idx doc t rest :
  phraseAt idx doc t rest = true <->
  (forall w, w ∈ t :: rest -> positions idx w doc <> []) /\
  exists p, p ∈ positions idx t doc /\
            forall i w, rest !! i = Some w -> (p + S i) ∈ positions idx w doc.
Proof.
  unfold phraseAt. rewrite andb_true_iff, forallb_forall, existsb_exists.
  split.
  - intros [Hne [p [Hp Hoff]]]. split.
    + intros w Hw. apply list_elem_of_In in Hw. specialize (Hne w Hw).
      destruct (positions idx w doc); [discriminate | congruence].
    + exists p. split; [apply list_elem_of_In; exact Hp|].
      intros i w Hi. rewrite offsetsMatch_spec in Hoff.
      apply (Hoff i (positions idx w doc)).
      rewrite list_lookup_fmap, Hi. reflexivity.
  - intros [Hne [p [Hp Hoff]]]. split.
    + intros w Hw. apply list_elem_of_In in Hw. specialize (Hne w Hw).
      destruct (positions idx w doc); [congruence | reflexivity].
    + exists p. split; [apply list_elem_of_In; exact Hp|].
      apply offsetsMatch_spec. intros j l Hj.
      rewrite list_lookup_fmap in Hj.
      destruct (rest !! j) as [w|] eqn:Hw; [|discriminate].
      inversion Hj; subst. apply Hoff. exact Hw.
Qed.

(** ** Set helpers *)

Lemma setIntersect_eq (a b : gset Z) : setIntersect a b = a ∩ b.
Proof.
  unfold setIntersect. apply set_eq. intros x.
  destruct (size b <? size a)%nat;
    rewrite elem_of_filter, elem_of_intersection; tauto.
Qed.

Lemma setUnion_eq (a b : gset Z) : setUnion a b = a ∪ b.
Proof.
  unfold setUnion. apply set_eq. intros x.
  rewrite elem_of_list_to_set, elem_of_app, !elem_of_elements, elem_of_union.
  tauto.
Qed.

Lemma setDiff_eq (a b : gset Z) : setDiff a b = a ∖ b.
Proof.
  unfold setDiff. apply set_eq. intros x.
  rewrite elem_of_filter, elem_of_difference. tauto.
Qed.

(** ** Sorted identifier lists *)

Lemma postingIDs_elem_of (post : gmap Z (list nat)) d :
  d ∈ postingIDs post <-> d ∈ dom post.
Proof.
  unfold postingIDs. rewrite merge_sort_Permutation.
  rewrite elem_of_dom, list_elem_of_fmap. split.
  - intros [[k v] [-> Hkv]]. apply elem_of_map_to_list in Hkv. eauto.
  - intros [v Hv]. exists (d, v). split; [reflexivity|].
    apply elem_of_map_to_list. exact Hv.
Qed.

Lemma postingIDs_sorted (post : gmap Z (list nat)) :
  StronglySorted Z.lt (postingIDs post).
Proof.
  unfold postingIDs.
  assert (Hnd : NoDup (merge_sort Z.le (map fst (map_to_list post)))).
  { rewrite merge_sort_Permutation. apply NoDup_fst_map_to_list. }
  assert (Hs : StronglySorted Z.le (merge_sort Z.le (map fst (map_to_list post)))).
  { apply StronglySorted_merge_sort; apply _. }
  induction Hs as [|x l Hs IH Hall]; constructor.
  - apply IH. apply NoDup_cons in Hnd. tauto.
  - apply NoDup_cons in Hnd as [Hx _].
    rewrite Forall_forall in *. intros y Hy.
    specialize (Hall y Hy).
    assert (x <> y) by (intros ->; contradiction).
    lia.
Qed.

Lemma intersectSorted_elem_of a b :
  StronglySorted Z.lt a -> StronglySorted Z.lt b ->
  forall d, d ∈ intersectSorted a b <-> d ∈ a /\ d ∈ b.
Proof.
  intros Ha. revert b. induction Ha as [|x a' Ha IHa Hxa]; intros b Hb d.
  - simpl. split; [intros H; inversion H | intros [H _]; inversion H].
  - induction Hb as [|y b' Hb IHb Hyb].
    + simpl. split; [intros H; inversion H | intros [_ H]; inversion H].
    + rewrite Forall_forall in Hxa, Hyb.
      assert (Hb' : StronglySorted Z.lt (y :: b'))
        by (constructor; [assumption | apply Forall_forall; assumption]).
      simpl. destruct (decide (x = y)) as [->|Hne].
      * rewrite elem_of_cons, (IHa b' Hb d), !elem_of_cons.
        split; [intros [->|[? ?]]; auto|].
        intros [[->|Hda] [E|Hdb]]; auto.
      * destruct (decide (x < y)%Z) as [Hlt|Hge].
        -- rewrite (IHa (y :: b') Hb' d), !elem_of_cons.
           split; [intros [? ?]; auto|].
           intros [[->|Hda] Hd]; [|auto].
           destruct Hd as [E|Hdb]; [congruence|].
           specialize (Hyb _ Hdb). lia.
        -- simpl in IHb. rewrite IHb, !elem_of_cons.
           split; [intros [? ?]; auto|].
           intros [Hd [->|Hdb]]; [|auto].
           destruct Hd as [E|Hda]; [congruence|].
           specialize (Hxa _ Hda). lia.
Qed.

Lemma intersectSorted_sorted a b :
  StronglySorted Z.lt a -> StronglySorted Z.lt b ->
  StronglySorted Z.lt (intersectSorted a b).
Proof.
  intros Ha. revert b. induction Ha as [|x a' Ha IHa Hxa]; intros b Hb.
  - constructor.
  - induction Hb as [|y b' Hb IHb Hyb].
    + constructor.
    + assert (Hb' : StronglySorted Z.lt (y :: b')) by (constructor; assumption).
      simpl. destruct (decide (x = y)) as [->|Hne].
      * constructor; [apply IHa; assumption|].
        apply Forall_forall. intros d Hd.
        apply intersectSorted_elem_of in Hd as [Hd _]; [|assumption..].
        rewrite Forall_forall in Hxa. auto.
      * destruct (decide (x < y)%Z); [apply IHa; assumption | exact IHb].
Qed.

(** ** The phrase evaluator *)

Lemma positions_inPosting idx t d :
  positions idx t d <> [] ->
  exists posting, Terms idx !! t = Some posting /\ d ∈ dom posting.
Proof.
  unfold positions. intros H.
  destruct (Terms idx !! t) as [posting|] eqn:Ht; simpl in H.
  - exists posting. split; [reflexivity|]. apply elem_of_dom.
    destruct (posting !! d) eqn:Hd; [eauto | simpl in H; congruence].
  - rewrite lookup_empty in H. simpl in H. congruence.
Qed.

Lemma candidateDocs_next idx tokens :
  forall i cand,
    StronglySorted Z.lt cand ->
    exists c, returns (candidateDocs (S i) cand tokens) idx c /\
      match c with
      | Some l => forall d, d ∈ l <-> d ∈ cand /\ inAllPostings idx tokens d
      | None => forall d, ~ (d ∈ cand /\ inAllPostings idx tokens d)
      end.
Proof.
  induction tokens as [|t rest IH]; intros i cand Hs; simpl.
  - exists (Some cand). split; [reflexivity|].
    intros d. split; [intros H; split; [exact H|] | tauto].
    intros t Ht. inversion Ht.
  - destruct (Terms idx !! t) as [posting|] eqn:Ht.
    + set (cand' := intersectSorted cand (postingIDs posting)).
      assert (Hs' : StronglySorted Z.lt cand')
        by (apply intersectSorted_sorted; [assumption | apply postingIDs_sorted]).
      assert (Hin : forall d, d ∈ cand' <-> d ∈ cand /\ d ∈ dom posting).
      { intros d. unfold cand'.
        rewrite intersectSorted_elem_of by (assumption || apply postingIDs_sorted).
        rewrite postingIDs_elem_of. reflexivity. }
      assert (Hall : forall d, d ∈ cand /\ inAllPostings idx (t :: rest) d <->
                               d ∈ cand' /\ inAllPostings idx rest d).
      { intros d. rewrite Hin. split.
        - intros [Hc Hp]. split; [split; [assumption|]|].
          + destruct (Hp t) as [p [Hp1 Hp2]]; [left|]. congruence.
          + intros w Hw. apply Hp. right. exact Hw.
        - intros [[Hc Hd] Hp]. split; [assumption|].
          intros w Hw. apply elem_of_cons in Hw as [->|Hw]; [eauto | auto]. }
      destruct (decide (length cand' = 0)) as [E|E].
      * exists None. split.
        -- eapply returns_bind; [apply returns_gets|]. rewrite Ht.
           fold cand'. destruct (decide (length cand' = 0)); [reflexivity | contradiction].
        -- intros d Hd. apply Hall in Hd as [Hd _].
           destruct cand'; [inversion Hd | discriminate].
      * destruct (IH (S i) cand' Hs') as [c [Hc Hspec]].
        exists c. split.
        -- eapply returns_bind; [apply returns_gets|]. rewrite Ht.
           fold cand'. destruct (decide (length cand' = 0)); [contradiction | exact Hc].
        -- destruct c as [l|].
           ++ intros d. rewrite Hspec. symmetry. apply Hall.
           ++ intros d Hd. apply (Hspec d). apply Hall. exact Hd.
    + exists None. split.
      * eapply returns_bind; [apply returns_gets|]. rewrite Ht. reflexivity.
      * intros d [_ Hp]. destruct (Hp t) as [p [Hp1 _]]; [left|]. congruence.
Qed.

Lemma candidateDocs_first idx t rest :
  exists c, returns (candidateDocs 0 [] (t :: rest)) idx c /\
    match c with
    | Some l => forall d, d ∈ l <-> inAllPostings idx (t :: rest) d
    | None => forall d, ~ inAllPostings idx (t :: rest) d
    end.
Proof.
  simpl. destruct (Terms idx !! t) as [posting|] eqn:Ht.
  - assert (Hall : forall d, inAllPostings idx (t :: rest) d <->
                             d ∈ postingIDs posting /\ inAllPostings idx rest d).
    { intros d. rewrite postingIDs_elem_of. split.
      - intros Hp. split.
        + destruct (Hp t) as [p [Hp1 Hp2]]; [left|]. congruence.
        + intros w Hw. apply Hp. right. exact Hw.
      - intros [Hd Hp] w Hw. apply elem_of_cons in Hw as [->|Hw]; [eauto | auto]. }
    destruct (decide (length (postingIDs posting) = 0)) as [E|E].
    + exists None. split.
      * eapply returns_bind; [apply returns_gets|]. rewrite Ht.
        destruct (decide (length (postingIDs posting) = 0)); [reflexivity | contradiction].
      * intros d Hd. apply Hall in Hd as [Hd _].
        destruct (postingIDs posting); [inversion Hd | discriminate].
    + destruct (candidateDocs_next idx rest 0 (postingIDs posting) (postingIDs_sorted posting))
        as [c [Hc Hspec]].
      exists c. split.
      * eapply returns_bind; [apply returns_gets|]. rewrite Ht.
        destruct (decide (length (postingIDs posting) = 0)); [contradiction | exact Hc].
      * destruct c as [l|].
        -- intros d. rewrite Hspec. symmetry. apply Hall.
        -- intros d Hd. apply (Hspec d). apply Hall. exact Hd.
  - exists None. split.
    + eapply returns_bind; [apply returns_gets|]. rewrite Ht. reflexivity.
    + intros d Hp. destruct (Hp t) as [p [Hp1 _]]; [left|]. congruence.
Qed.

Lemma phraseLoop_returns idx t rest (l : list Z) :
  forall acc : gset Z,
  exists res : gset Z,
    returns (forRange (fun (res : gset Z) doc =>
                         ok ← checkPhraseInDoc doc (t :: rest);
                         mret (if ok : bool then {[doc]} ∪ res else res))
                      acc l) idx res /\
    forall d, d ∈ res <-> d ∈ acc \/ (d ∈ l /\ phraseAt idx d t rest = true).
Proof.
  induction l as [|x l IH]; intros acc.
  - exists acc. split; [reflexivity|]. intros d. split; [auto|].
    intros [H|[H _]]; [exact H | inversion H].
  - destruct (IH (if phraseAt idx x t rest then {[x]} ∪ acc else acc)) as [res [Hr Hspec]].
    exists res. split.
    + simpl. eapply returns_bind; [|exact Hr].
      eapply returns_bind; [apply checkPhraseInDoc_returns | reflexivity].
    + intros d. rewrite Hspec, elem_of_cons.
      destruct (phraseAt idx x t rest) eqn:E.
      * rewrite elem_of_union, elem_of_singleton. split.
        -- intros [[->|H]|[H1 H2]]; auto.
        -- intros [H|[[->|H1] H2]]; auto.
      * split.
        -- intros [H|[H1 H2]]; auto.
        -- intros [H|[[->|H1] H2]]; auto. congruence.
Qed.

(** [docsWithPhrase] returns, reads only, and keeps exactly the documents
    on which the adjacency test succeeds. *)
Lemma docsWithPhrase_returns idx tokens :
  exists res : gset Z,
    returns (docsWithPhrase tokens) idx res /\
    forall d, d ∈ res <->
      match tokens with
      | [] => False
      | t :: rest => phraseAt idx d t rest = true
      end.
Proof.
  destruct tokens as [|t rest].
  - exists ∅. split; [reflexivity|]. intros d. rewrite elem_of_empty. tauto.
  - unfold docsWithPhrase.
    destruct (decide (length (t :: rest) = 0)) as [E|_]; [discriminate|].
    destruct (candidateDocs_first idx t rest) as [c [Hc Hspec]].
    assert (Hph : forall d, phraseAt idx d t rest = true -> inAllPostings idx (t :: rest) d).
    { intros d Hd w Hw. apply phraseAt_spec in Hd as [Hne _].
      apply positions_inPosting. auto. }
    destruct c as [l|].
    + destruct (phraseLoop_returns idx t rest l ∅) as [res [Hr Hres]].
      exists res. split; [eapply returns_bind; [exact Hc | exact Hr]|].
      intros d. rewrite Hres, elem_of_empty, Hspec. split.
      * intros [[]|[_ H]]. exact H.
      * intros H. right. auto.
    + exists ∅. split; [eapply returns_bind; [exact Hc | reflexivity]|].
      intros d. rewrite elem_of_empty. split; [tauto|].
      intros H. apply (Hspec d). auto.
Qed.

(** ** The evaluator returns and only reads *)

Lemma operandSet_returns idx tok :
  exists s : gset Z,
    returns (if HasPrefix tok "PHRASE:" then
               let phrase := TrimPrefix tok "PHRASE:" in
               let toks := Tokenize phrase in
               docsWithPhrase toks
             else
               posting ← gets (fun idx => Terms idx !! tok);
               match posting with
               | Some posting => mret (dom posting)
               | None => mret ∅
               end) idx s.
Proof.
  destruct (HasPrefix tok "PHRASE:").
  - destruct (docsWithPhrase_returns idx (Tokenize (TrimPrefix tok "PHRASE:")))
      as [res [Hres _]].
    exists res. exact Hres.
  - exists (match Terms idx !! tok with Some posting => dom posting | None => ∅ end).
    eapply returns_bind; [apply returns_gets|].
    destruct (Terms idx !! tok); reflexivity.
Qed.

Lemma evalStep_returns universe stack tok idx :
  exists stack', returns (evalStep universe stack tok) idx stack'.
Proof.
  unfold evalStep.
  destruct (bool_decide (tok = "AND") || bool_decide (tok = "OR")).
  - destruct stack as [|r [|l stack']]; simpl; try (eexists; reflexivity).
    destruct (bool_decide (tok = "AND")); eexists; reflexivity.
  - destruct (bool_decide (tok = "NOT")).
    + destruct stack as [|a stack']; simpl; eexists; reflexivity.
    + destruct (operandSet_returns idx tok) as [s Hs].
      exists (s :: stack). eapply returns_bind; [exact Hs | reflexivity].
Qed.

Lemma EvaluateRPN_returns rpn idx :
  exists s, returns (EvaluateRPN rpn) idx s.
Proof.
  unfold EvaluateRPN.
  destruct (returns_forRange (evalStep (dom (Docs idx))) rpn idx
              (fun acc x => evalStep_returns _ acc x idx) []) as [stack Hstack].
  exists (match stack with [] => ∅ | top :: _ => top end).
  eapply returns_bind; [apply returns_gets|].
  eapply returns_bind; [exact Hstack|].
  destruct stack; reflexivity.
Qed.

Lemma frame_EvaluateRPN rpn : frame (EvaluateRPN rpn).
Proof. apply returns_frame. intros idx. apply EvaluateRPN_returns. Qed.

Lemma frame_matchedTermsInDoc doc rpn : frame (matchedTermsInDoc doc rpn).
Proof.
  unfold matchedTermsInDoc. apply frame_bind; [|intros; apply frame_ret].
  apply frame_forRange. intros set tok. unfold matchedStep.
  destruct (isOperator tok); [apply frame_ret|].
  destruct (HasPrefix tok "PHRASE:").
  - apply frame_bind; [apply frame_checkPhraseInDoc | intros; apply frame_ret].
  - apply frame_bind; [apply frame_gets|].
    intros [posting|]; [|apply frame_ret].
    destruct (0 <? length (default [] (posting !! doc)))%nat; apply frame_ret.
Qed.

Lemma frame_scoreDoc doc matched : frame (scoreDoc doc matched).
Proof.
  unfold scoreDoc. apply frame_forRange. intros score t. unfold scoreStep.
  destruct (HasPrefix t "PHRASE:"); [apply frame_ret|].
  apply frame_bind; [apply frame_gets|].
  intros [posting|]; [|apply frame_ret].
  apply frame_bind; [apply frame_gets|]. intros count.
  destruct (bool_decide (size posting = 0) || bool_decide (count = 0));
    [apply frame_ret|].
  apply frame_bind; [apply frame_gets | intros; apply frame_ret].
Qed.

Lemma frame_Search query : frame (Search query).
Proof.
  unfold Search. destruct (decide (String.length query = 0)); [apply frame_ret|].
  apply frame_bind; [apply frame_EvaluateRPN|]. intros resSet.
  apply frame_bind; [|intros; apply frame_ret].
  apply frame_forRange. intros results doc.
  apply frame_bind; [apply frame_matchedTermsInDoc|]. intros matched.
  apply frame_bind; [apply frame_scoreDoc | intros; apply frame_ret].
Qed.

(** ** AddDocument *)

Lemma addPosting_spec id pos tok idx :
  exists idx', addPosting id pos tok idx = (Done tt, idx') /\
    Docs idx' = Docs idx /\ DocTokCounts idx' = DocTokCounts idx /\ N idx' = N idx /\
    forall t doc, positions idx' t doc =
      if decide (t = tok /\ doc = id) then positions idx t doc ++ [pos]
      else positions idx t doc.
Proof.
  unfold addPosting, mbind, IndexM_bind, gets, modify, mret, IndexM_ret.
  destruct (Terms idx !! tok) as [posting|] eqn:Ht.
  - rewrite bool_decide_eq_true_2 by eauto.
    eexists. split; [reflexivity|]. simpl. repeat split.
    intros t doc. unfold positions at 1. simpl.
    destruct (decide (t = tok /\ doc = id)) as [[-> ->]|Hne].
    + rewrite lookup_insert_eq. simpl. rewrite lookup_insert_eq. simpl. reflexivity.
    + destruct (decide (t = tok)) as [->|Hn].
      * rewrite lookup_insert_eq. simpl. rewrite lookup_insert_ne by (intros ->; tauto).
        unfold positions. reflexivity.
      * rewrite lookup_insert_ne by congruence. reflexivity.
  - rewrite bool_decide_eq_false_2 by (intros [? ?]; congruence).
    eexists. split; [reflexivity|]. simpl. repeat split.
    intros t doc. unfold positions. simpl.
    rewrite !lookup_insert_eq. simpl. rewrite lookup_empty. simpl.
    destruct (decide (t = tok /\ doc = id)) as [[-> ->]|Hne].
    + rewrite lookup_insert_eq. simpl. rewrite lookup_insert_eq. simpl.
      rewrite Ht. simpl. rewrite lookup_empty. reflexivity.
    + destruct (decide (t = tok)) as [->|Hn].
      * rewrite lookup_insert_eq. simpl. rewrite lookup_insert_ne by (intros ->; tauto).
        rewrite Ht. reflexivity.
      * rewrite !lookup_insert_ne by congruence. reflexivity.
Qed.

Lemma occurrencesFrom_sorted t tokens :
  forall pos, StronglySorted lt (occurrencesFrom pos t tokens) /\
              Forall (fun p => pos <= p) (occurrencesFrom pos t tokens).
Proof.
  induction tokens as [|w rest IH]; intros pos; simpl.
  - split; constructor.
  - destruct (IH (S pos)) as [Hs Hf].
    assert (Hf' : Forall (fun p => pos <= p) (occurrencesFrom (S pos) t rest)).
    { eapply Forall_impl; [exact Hf|]. simpl. intros; lia. }
    destruct (decide (w = t)); simpl.
    + split; [constructor; [exact Hs|] | constructor; [lia | exact Hf']].
      eapply Forall_impl; [exact Hf|]. simpl. intros; lia.
    + split; assumption.
Qed.

Lemma addTokens_spec id tokens :
  forall pos idx,
  exists idx', addTokens id pos tokens idx = (Done tt, idx') /\
    Docs idx' = Docs idx /\ DocTokCounts idx' = DocTokCounts idx /\ N idx' = N idx /\
    forall t doc, positions idx' t doc =
      if decide (doc = id) then positions idx t doc ++ occurrencesFrom pos t tokens
      else positions idx t doc.
Proof.
  induction tokens as [|tok rest IH]; intros pos idx.
  - exists idx. split; [reflexivity|]. repeat split.
    intros t doc. simpl. rewrite app_nil_r. destruct (decide (doc = id)); reflexivity.
  - destruct (addPosting_spec id pos tok idx) as (idx1 & H1 & Hd1 & Hc1 & Hn1 & Hp1).
    destruct (IH (S pos) idx1) as (idx2 & H2 & Hd2 & Hc2 & Hn2 & Hp2).
    exists idx2. split.
    + simpl. unfold mbind, IndexM_bind. rewrite H1. exact H2.
    + repeat split; try congruence.
      intros t doc. rewrite Hp2, !Hp1. simpl.
      destruct (decide (doc = id)) as [->|Hne].
      * destruct (decide (tok = t)) as [->|Hnt].
        -- destruct (decide (t = t /\ id = id)); [|tauto].
           rewrite <- app_assoc. reflexivity.
        -- destruct (decide (t = tok /\ id = id)) as [[E _]|_]; [congruence|].
           reflexivity.
      * destruct (decide (t = tok /\ doc = id)); [tauto | reflexivity].
Qed.

Lemma AddDocument_spec d idx :
  exists idx', AddDocument d idx = (Done tt, idx') /\
    Docs idx' = <[ID d := d]> (Docs idx) /\
    DocTokCounts idx' = <[ID d := length (docTokens d)]> (DocTokCounts idx) /\
    N idx' = size (Docs idx') /\
    forall t doc, positions idx' t doc =
      if decide (doc = ID d) then positions idx t doc ++ occurrencesFrom 0 t (docTokens d)
      else positions idx t doc.
Proof.
  unfold AddDocument. fold (docTokens d).
  set (idxA := mkIndex (Terms idx) (<[ID d := d]> (Docs idx))
                       (<[ID d := length (docTokens d)]> (DocTokCounts idx)) (N idx)).
  destruct (addTokens_spec (ID d) (docTokens d) 0 idxA) as (idx1 & H1 & Hd1 & Hc1 & Hn1 & Hp1).
  exists (mkIndex (Terms idx1) (Docs idx1) (DocTokCounts idx1) (size (Docs idx1))).
  split.
  - unfold mbind, IndexM_bind, modify. simpl. fold idxA. rewrite H1. reflexivity.
  - simpl. rewrite Hd1, Hc1. repeat split.
    intros t doc. specialize (Hp1 t doc). unfold positions in *. simpl in *. exact Hp1.
Qed.

Lemma indexAll_spec docs :
  forall idx,
  exists idx', indexAll docs idx = (Done tt, idx') /\
    forall t doc, positions idx' t doc = positions idx t doc ++ recorded t doc docs.
Proof.
  induction docs as [|d docs IH]; intros idx.
  - exists idx. split; [reflexivity|]. intros. simpl. rewrite app_nil_r. reflexivity.
  - destruct (AddDocument_spec d idx) as (idx1 & H1 & _ & _ & _ & Hp1).
    destruct (IH idx1) as (idx2 & H2 & Hp2).
    exists idx2. split.
    + unfold indexAll. simpl. unfold mbind, IndexM_bind. rewrite H1. exact H2.
    + intros t doc. rewrite Hp2, Hp1. simpl.
      destruct (decide (doc = ID d)) as [->|Hne].
      * destruct (decide (ID d = ID d)); [|contradiction].
        rewrite <- app_assoc. reflexivity.
      * destruct (decide (ID d = doc)); [congruence | reflexivity].
Qed.

Lemma recorded_fresh t doc docs :
  doc ∉ map ID docs -> recorded t doc docs = [].
Proof.
  induction docs as [|d docs IH]; intros Hn; simpl; [reflexivity|].
  simpl in Hn. apply not_elem_of_cons in Hn as [Hne Hn].
  destruct (decide (ID d = doc)); [congruence|]. simpl. auto.
Qed.

Lemma recorded_sorted t doc docs :
  NoDup (map ID docs) -> StronglySorted lt (recorded t doc docs).
Proof.
  induction docs as [|d docs IH]; intros Hnd; simpl; [constructor|].
  simpl in Hnd. apply NoDup_cons in Hnd as [Hd Hnd].
  destruct (decide (ID d = doc)) as [<-|Hne].
  - rewrite (recorded_fresh t (ID d) docs Hd), app_nil_r.
    apply occurrencesFrom_sorted.
  - simpl. auto.
Qed.

Lemma positions_NewIndex t doc : positions NewIndex t doc = [].
Proof. unfold positions. simpl. rewrite lookup_empty. simpl. rewrite lookup_empty. reflexivity. Qed.

Lemma positions_stored idx t posting doc pl :
  Terms idx !! t = Some posting -> posting !! doc = Some pl ->
  positions idx t doc = pl.
Proof. unfold positions. intros -> H. simpl. rewrite H. reflexivity. Qed.

(** C9. After any sequence of [AddDocument] calls on a new index in which
    every document identifier is added at most once, every position list
    stored for a (term, document) pair is strictly increasing. *)
Theorem AddDocument_positions_increasing (docs : list Document) :
  NoDup (map ID docs) ->
  exists idx,
    indexAll docs NewIndex = (Done tt, idx) /\
    forall t posting doc pl,
      Terms idx !! t = Some posting -> posting !! doc = Some pl ->
      StronglySorted lt pl.
Proof.
  intros Hnd. destruct (indexAll_spec docs NewIndex) as (idx & Hrun & Hp).
  exists idx. split; [exact Hrun|].
  intros t posting doc pl Ht Hd.
  rewrite <- (positions_stored idx t posting doc pl Ht Hd), Hp, positions_NewIndex.
  simpl. apply recorded_sorted. exact Hnd.
Qed.

Lemma AddDocument_positions_increasing_witness :
  exists idx,
    indexAll sampleDocs NewIndex = (Done tt, idx) /\
    forall t posting doc pl,
      Terms idx !! t = Some posting -> posting !! doc = Some pl ->
      StronglySorted lt pl.
Proof.
  apply (AddDocument_positions_increasing sampleDocs).
  apply (bool_decide_unpack _). vm_compute. exact I.
Defined.

(** ** Phrase queries *)

(** C2. The phrase evaluator returns, and keeps a document [d] exactly when
    every word of the phrase has a non-empty position list in [d] and some
    recorded position [p] of the first word is followed, at [p+i], by a
    recorded position of word [i], for every later word.  A word that is
    absent from the index makes the result empty.  Over the indexed text
    "the small cat sat" the phrase "small cat" matches and "cat small" does
    not. *)
Theorem docsWithPhrase_iff_adjacent (idx : Index) (ws : list string) :
  (exists res : gset Z,
     returns (docsWithPhrase ws) idx res /\
     (forall d, d ∈ res <->
        exists w0 rest, ws = w0 :: rest /\
          (forall w, w ∈ ws -> positions idx w d <> []) /\
          exists p, p ∈ positions idx w0 d /\
            forall i w, 1 <= i -> ws !! i = Some w -> (p + i) ∈ positions idx w d) /\
     ((exists w, w ∈ ws /\ Terms idx !! w = None) -> res = ∅)) /\
  returns (EvaluateRPN (QueryToRPN (quoted "small cat"))) (buildIndex [catDoc]) {[1%Z]} /\
  returns (EvaluateRPN (QueryToRPN (quoted "cat small"))) (buildIndex [catDoc]) ∅.
Proof.
  split; [|split; vm_compute; reflexivity].
  destruct (docsWithPhrase_returns idx ws) as [res [Hres Hspec]].
  assert (Hiff : forall d, d ∈ res <->
        exists w0 rest, ws = w0 :: rest /\
          (forall w, w ∈ ws -> positions idx w d <> []) /\
          exists p, p ∈ positions idx w0 d /\
            forall i w, 1 <= i -> ws !! i = Some w -> (p + i) ∈ positions idx w d).
  { intros d. rewrite Hspec. destruct ws as [|t rest].
    - split; [tauto|]. intros (w0 & r & E & _). discriminate.
    - rewrite phraseAt_spec. split.
      + intros [Hne (p & Hp & Hoff)]. exists t, rest. split; [reflexivity|].
        split; [exact Hne|]. exists p. split; [exact Hp|].
        intros [|j] w Hi Hw; [lia|]. apply Hoff. exact Hw.
      + intros (w0 & r & E & Hne & p & Hp & Hoff). inversion E; subst w0 r.
        split; [exact Hne|]. exists p. split; [exact Hp|].
        intros j w Hw. apply Hoff; [lia | exact Hw]. }
  exists res. split; [exact Hres|]. split; [exact Hiff|].
  intros (w & Hw & Habs). apply set_eq. intros d. rewrite elem_of_empty.
  split; [|tauto]. intros Hd. apply Hiff in Hd as (w0 & r & _ & Hne & _).
  apply (Hne w Hw). unfold positions. rewrite Habs. simpl.
  rewrite lookup_empty. reflexivity.
Qed.

Lemma docsWithPhrase_iff_adjacent_witness :
  (exists w, w ∈ ["small"; "dog"] /\ Terms (buildIndex [catDoc]) !! w = None) /\
  exists res : gset Z,
    returns (docsWithPhrase ["small"; "dog"]) (buildIndex [catDoc]) res /\ res = ∅.
Proof.
  assert (Habs : exists w, w ∈ ["small"; "dog"] /\ Terms (buildIndex [catDoc]) !! w = None).
  { exists "dog". split; [right; left | vm_compute; reflexivity]. }
  split; [exact Habs|].
  destruct (docsWithPhrase_iff_adjacent (buildIndex [catDoc]) ["small"; "dog"])
    as [(res & Hres & _ & Hempty) _].
  exists res. split; [exact Hres | exact (Hempty Habs)].
Defined.

(** ** Operator precedence *)

(** C3. "a OR b AND c" and "a OR (b AND c)" compile to one and the same
    RPN sequence, with AND before OR and without any parenthesis. *)
Theorem QueryToRPN_and_binds_tighter :
  QueryToRPN "a OR b AND c" = QueryToRPN "a OR (b AND c)" /\
  QueryToRPN "a OR b AND c" = ["a"; "b"; "c"; "AND"; "OR"] /\
  ("(" ∉ QueryToRPN "a OR (b AND c)") /\
  (")" ∉ QueryToRPN "a OR (b AND c)").
Proof.
  repeat split; try (vm_compute; reflexivity);
    apply (bool_decide_unpack _); vm_compute; exact I.
Qed.

(** An opening parenthesis that is never closed is still on the operator
    stack at the end, and the final flush copies it to the output. *)
Example QueryToRPN_unclosed_paren : QueryToRPN "(cats" = ["cats"; "("].
Proof. vm_compute. reflexivity. Qed.

(** ** Totality of the evaluator *)

(** C5. [EvaluateRPN] returns a set on every RPN sequence and every index;
    an operator that finds too few sets on the stack leaves the stack as it
    is; the empty sequence, and any sequence that ends with an empty stack,
    give the empty set. *)
Theorem EvaluateRPN_total (idx : Index) (rpn : list string) :
  (exists s, returns (EvaluateRPN rpn) idx s) /\
  (forall universe stack tok,
     ((tok = "AND" \/ tok = "OR") /\ length stack < 2) \/
     (tok = "NOT" /\ length stack < 1) ->
     returns (evalStep universe stack tok) idx stack) /\
  returns (EvaluateRPN []) idx ∅ /\
  (returns (forRange (evalStep (dom (Docs idx))) [] rpn) idx [] ->
   returns (EvaluateRPN rpn) idx ∅).
Proof.
  split; [apply EvaluateRPN_returns|]. split; [|split; [reflexivity|]].
  - intros universe stack tok [[Hop Hlen]|[-> Hlen]]; unfold evalStep.
    + assert (E : bool_decide (tok = "AND") || bool_decide (tok = "OR") = true).
      { destruct Hop as [->| ->]; reflexivity. }
      rewrite E. apply Nat.ltb_lt in Hlen. rewrite Hlen. reflexivity.
    + simpl. apply Nat.ltb_lt in Hlen. rewrite Hlen. reflexivity.
  - intros Hstack. unfold EvaluateRPN.
    eapply returns_bind; [apply returns_gets|].
    eapply returns_bind; [exact Hstack | reflexivity].
Qed.

Lemma EvaluateRPN_total_witness :
  returns (evalStep ∅ [{[1%Z]}] "AND") (buildIndex sampleDocs) [{[1%Z]}] /\
  returns (EvaluateRPN ["AND"; "NOT"]) (buildIndex sampleDocs) ∅.
Proof.
  destruct (EvaluateRPN_total (buildIndex sampleDocs) ["AND"; "NOT"])
    as (_ & Hskip & _ & Hempty).
  split.
  - apply Hskip. left. split; [left; reflexivity | simpl; lia].
  - apply Hempty. vm_compute. reflexivity.
Defined.

(** ** Searching only reads *)

(** C10. [Search] and [EvaluateRPN] leave the index as they found it: the
    term-to-posting map, the document table, the token counts and [N] are
    the same after the call as before, whatever the call returns.
    [QueryToRPN] is a function of the query string alone. *)
Theorem Search_does_not_mutate (idx : Index) (query : string) (rpn : list string) :
  let after := snd (Search query idx) in
  (Terms after = Terms idx /\ Docs after = Docs idx /\
   DocTokCounts after = DocTokCounts idx /\ N after = N idx) /\
  snd (EvaluateRPN rpn idx) = idx /\
  snd (EvaluateRPN (QueryToRPN query) idx) = idx.
Proof.
  simpl. rewrite (frame_Search query idx).
  repeat split; apply frame_EvaluateRPN.
Qed.

(** ** Scores *)

(** C1 (the code does not do this).  A phrase that matched is recorded by
    [matchedTermsInDoc] without its "PHRASE:" tag, and [scoreDoc] looks for
    that tag before it adds the bonus: a tagged string gets 2.0, but the
    phrase "small cat", matched in the only document of the index, scores
    0. *)
Theorem Search_phrase_bonus_lost :
  (forall doc score ph idx,
     returns (scoreStep doc score ("PHRASE:" +:+ ph)) idx (score + 2)%R) /\
  returns (matchedTermsInDoc 1 ["PHRASE:small cat"]) (buildIndex [catDoc]) ["small cat"] /\
  returns (Search (quoted "small cat")) (buildIndex [catDoc])
          [mkSearchResult 1 0 ["small cat"]].
Proof.
  split; [intros; unfold scoreStep, HasPrefix; simpl; reflexivity|].
  split; vm_compute; reflexivity.
Qed.

Lemma ratio_nonneg (a b : nat) : (0 <= INR a / INR b)%R.
Proof.
  unfold Rdiv. apply Rmult_le_pos; [apply pos_INR|].
  destruct b as [|b].
  - simpl. rewrite Rinv_0. lra.
  - left. apply Rinv_0_lt_compat. apply lt_0_INR. lia.
Qed.

Lemma idf_nonneg (n df : nat) : (0 <= ln (1 + INR n / INR df))%R.
Proof.
  pose proof (ratio_nonneg n df) as [Hlt|Heq].
  - left. rewrite <- ln_1. apply ln_increasing; lra.
  - rewrite <- Heq, Rplus_0_r, ln_1. lra.
Qed.

Lemma contribution_nonneg (tf count n df : nat) :
  (0 <= INR tf / INR count * ln (1 + INR n / INR df))%R.
Proof. apply Rmult_le_pos; [apply ratio_nonneg | apply idf_nonneg]. Qed.

Lemma contribution_monotone (tf1 tf2 count n df : nat) :
  tf1 <= tf2 ->
  (INR tf1 / INR count * ln (1 + INR n / INR df) <=
   INR tf2 / INR count * ln (1 + INR n / INR df))%R.
Proof.
  intros Hle. apply Rmult_le_compat_r; [apply idf_nonneg|].
  unfold Rdiv. apply Rmult_le_compat_r; [|apply le_INR; exact Hle].
  destruct count as [|count].
  - simpl. rewrite Rinv_0. lra.
  - left. apply Rinv_0_lt_compat. apply lt_0_INR. lia.
Qed.

(** What one pass of the loop of [scoreDoc] adds for a literal term. *)
Lemma scoreStep_literal doc score t idx :
  HasPrefix t "PHRASE:" = false ->
  returns (scoreStep doc score t) idx
    (match Terms idx !! t with
     | None => score
     | Some posting =>
         if bool_decide (size posting = 0)
            || bool_decide (tokCount idx doc = 0)
         then score
         else (score + INR (length (positions idx t doc))
                       / INR (tokCount idx doc)
                       * ln (1 + INR (N idx) / INR (size posting)))%R
     end).
Proof.
  intros Hlit. unfold scoreStep. rewrite Hlit.
  eapply returns_bind; [apply returns_gets|].
  unfold positions. destruct (Terms idx !! t) as [posting|]; [|reflexivity].
  eapply returns_bind; [apply returns_gets|]. simpl.
  destruct (bool_decide (size posting = 0)
            || bool_decide (tokCount idx doc = 0));
    reflexivity.
Qed.

(** C7. With the document's token count, the number of documents [N] and
    the term's document frequency held fixed, a literal term that occurs
    more often in the document adds at least as much to its score. *)
Theorem term_score_monotone_in_tf (idx1 idx2 : Index) (doc : Z) (t : string) (score : R) :
  HasPrefix t "PHRASE:" = false ->
  tokCount idx1 doc = tokCount idx2 doc ->
  N idx1 = N idx2 ->
  size (default ∅ (Terms idx1 !! t)) = size (default ∅ (Terms idx2 !! t)) ->
  length (positions idx1 t doc) <= length (positions idx2 t doc) ->
  exists r1 r2,
    returns (scoreStep doc score t) idx1 r1 /\
    returns (scoreStep doc score t) idx2 r2 /\
    (r1 - score <= r2 - score)%R.
Proof.
  intros Hlit Hcount Hn Hdf Htf.
  eexists. eexists.
  split; [apply scoreStep_literal; exact Hlit|].
  split; [apply scoreStep_literal; exact Hlit|].
  rewrite <- Hcount, <- Hn.
  set (count := tokCount idx1 doc).
  pose proof (contribution_nonneg (length (positions idx2 t doc)) count (N idx1)) as Hpos.
  destruct (Terms idx1 !! t) as [p1|], (Terms idx2 !! t) as [p2|]; simpl in Hdf.
  - rewrite <- Hdf.
    destruct (bool_decide (size p1 = 0) || bool_decide (count = 0)).
    + lra.
    + pose proof (contribution_monotone _ _ count (N idx1) (size p1) Htf). lra.
  - rewrite ?size_empty in Hdf. rewrite (bool_decide_eq_true_2 _ Hdf). simpl. lra.
  - destruct (bool_decide (size p2 = 0) || bool_decide (count = 0)); [lra|].
    specialize (Hpos (size p2)). lra.
  - lra.
Qed.

Lemma term_score_monotone_in_tf_witness :
  exists r1 r2,
    returns (scoreStep 1 0 "cats") (buildIndex [onceDoc]) r1 /\
    returns (scoreStep 1 0 "cats") (buildIndex [twiceDoc]) r2 /\
    (r1 - 0 <= r2 - 0)%R.
Proof.
  apply (term_score_monotone_in_tf (buildIndex [onceDoc]) (buildIndex [twiceDoc]) 1 "cats" 0).
  - reflexivity.
  - vm_compute. reflexivity.
  - vm_compute. reflexivity.
  - vm_compute. reflexivity.
  - vm_compute. lia.
Defined.

(** ** The snippet window *)

(** C8 as stated fails twice: the window stops before index [i+12], and an
    empty content gives the empty string, not a lone ellipsis. *)
Lemma MakeSnippet_not_as_claimed :
  MakeSnippet fourteenWords ["w0"] = "...w0 w1 w2 w3 w4 w5 w6 w7 w8 w9 w10 w11..." /\
  snippetAsClaimed fourteenWords ["w0"] = "...w0 w1 w2 w3 w4 w5 w6 w7 w8 w9 w10 w11 w12..." /\
  MakeSnippet fourteenWords ["w0"] <> snippetAsClaimed fourteenWords ["w0"] /\
  MakeSnippet "" ["w0"] = "" /\
  snippetAsClaimed "" ["w0"] = "..." /\
  MakeSnippet "" ["w0"] <> snippetAsClaimed "" ["w0"].
Proof.
  repeat split; try (vm_compute; reflexivity); vm_compute; discriminate.
Qed.

Lemma findFirst_least terms toks :
  forall base i,
    findFirst base toks terms = Some i ->
    exists k w, i = base + k /\ toks !! k = Some w /\ matchesAny w terms = true /\
      forall j w', j < k -> toks !! j = Some w' -> matchesAny w' terms = false.
Proof.
  induction toks as [|w toks IH]; intros base i H; simpl in H; [discriminate|].
  destruct (matchesAny w terms) eqn:E.
  - inversion H; subst. exists 0, w. repeat split; [lia | assumption|].
    intros j w' Hj. lia.
  - destruct (IH _ _ H) as (k & w1 & -> & Hk & Hm & Hleast).
    exists (S k), w1. repeat split; [lia | assumption | assumption|].
    intros [|j] w' Hj Hw'; simpl in Hw'.
    + inversion Hw'; subst. exact E.
    + apply (Hleast j); [lia | exact Hw'].
Qed.

Lemma slice_length toks start end_ :
  end_ <= length toks -> length (slice toks start end_) = end_ - start.
Proof. intros H. unfold slice. rewrite length_take, length_drop. lia. Qed.

Lemma slice_lookup toks start end_ k :
  k < end_ - start -> slice toks start end_ !! k = toks !! (start + k).
Proof.
  intros H. unfold slice. rewrite lookup_take_lt by exact H.
  apply lookup_drop.
Qed.

Lemma length_zero_empty (s : string) : String.length s = 0 <-> s = "".
Proof. destruct s; simpl; split; congruence. Qed.

(** C8, amended.  When a match is found at token index [i] of a non-empty
    content, the snippet is the tokens at the indices [i-8] (not below 0)
    up to, but not including, [i+12] (not beyond the last token), joined by
    spaces, between two ellipses.  Without a match it is the first 30
    tokens and a closing ellipsis.  An empty content gives the empty
    string. *)
Theorem MakeSnippet_window (content : string) (terms : list string) :
  (forall i,
     content <> "" ->
     findFirst 0 (Tokenize content) terms = Some i ->
     exists window,
       MakeSnippet content terms = "..." +:+ Join window " " +:+ "..." /\
       length window = Nat.min (i + 12) (length (Tokenize content)) - (i - 8) /\
       forall k, k < length window ->
                 window !! k = Tokenize content !! (i - 8 + k)) /\
  (content <> "" ->
   findFirst 0 (Tokenize content) terms = None ->
   MakeSnippet content terms = Join (take 30 (Tokenize content)) " " +:+ "...") /\
  (content = "" -> MakeSnippet content terms = "").
Proof.
  unfold MakeSnippet. split; [|split].
  - intros i Hne Hfirst.
    destruct (decide (String.length content = 0)) as [E|_];
      [apply length_zero_empty in E; contradiction|].
    rewrite Hfirst.
    set (toks := Tokenize content).
    set (start := if (i <? 8)%nat then 0 else i - 8).
    set (end_ := if (length toks <? i + 12)%nat then length toks else i + 12).
    assert (Hstart : start = i - 8).
    { unfold start. destruct (Nat.ltb_spec i 8); lia. }
    assert (Hend : end_ = Nat.min (i + 12) (length toks)).
    { unfold end_. destruct (Nat.ltb_spec (length toks) (i + 12)); lia. }
    exists (slice toks start end_). split; [reflexivity|].
    assert (Hlen : length (slice toks start end_) = end_ - start)
      by (apply slice_length; lia).
    split; [rewrite Hlen; lia|].
    intros k Hk. rewrite <- Hstart. apply slice_lookup. lia.
  - intros Hne Hfirst.
    destruct (decide (String.length content = 0)) as [E|_];
      [apply length_zero_empty in E; contradiction|].
    rewrite Hfirst. unfold slice. rewrite drop_0, Nat.sub_0_r.
    destruct (Nat.ltb_spec (length (Tokenize content)) 30) as [Hlt|Hge];
      [|reflexivity].
    rewrite !take_ge by lia. reflexivity.
  - intros ->. reflexivity.
Qed.

Lemma MakeSnippet_window_witness :
  fourteenWords <> "" /\
  findFirst 0 (Tokenize fourteenWords) ["w10"] = Some 10 /\
  exists window,
    MakeSnippet fourteenWords ["w10"] = "..." +:+ Join window " " +:+ "..." /\
    length window = Nat.min (10 + 12) (length (Tokenize fourteenWords)) - (10 - 8) /\
    forall k, k < length window ->
              window !! k = Tokenize fourteenWords !! (10 - 8 + k).
Proof.
  assert (Hne : fourteenWords <> "") by discriminate.
  assert (Hfirst : findFirst 0 (Tokenize fourteenWords) ["w10"] = Some 10)
    by (vm_compute; reflexivity).
  split; [exact Hne|]. split; [exact Hfirst|].
  exact (proj1 (MakeSnippet_window fourteenWords ["w10"]) 10 Hne Hfirst).
Defined.

(** ** The unterminated quote *)

Lemma list_ascii_of_string_app s1 s2 :
  list_ascii_of_string (s1 +:+ s2) = list_ascii_of_string s1 ++ list_ascii_of_string s2.
Proof. induction s1 as [|c s1 IH]; simpl; [reflexivity | rewrite IH; reflexivity]. Qed.

Lemma lexRun_app st s1 s2 : lexRun st (s1 +:+ s2) = lexRun (lexRun st s1) s2.
Proof. unfold lexRun. rewrite list_ascii_of_string_app. apply fold_left_app. Qed.

Lemma app_cons a s1 s2 : String a s1 +:+ s2 = String a (s1 +:+ s2).
Proof. reflexivity. Qed.

Lemma snoc_app cur c s : snoc cur c +:+ s = cur +:+ String c s.
Proof.
  unfold snoc. induction cur as [|a cur IH]; [reflexivity|].
  rewrite !app_cons, IH. reflexivity.
Qed.

Lemma app_empty_r (s : string) : s +:+ "" = s.
Proof.
  induction s as [|a s IH]; [reflexivity|]. rewrite app_cons, IH. reflexivity.
Qed.

Lemma string_app_assoc (s1 s2 s3 : string) : (s1 +:+ s2) +:+ s3 = s1 +:+ (s2 +:+ s3).
Proof.
  induction s1 as [|a s1 IH]; [reflexivity|]. rewrite !app_cons, IH. reflexivity.
Qed.

Lemma runeString_ascii c : isASCIIByte c = true -> runeString c = String c "".
Proof. unfold runeString, isASCIIByte. intros ->. reflexivity. Qed.

Lemma append_rune_ascii cur c : isASCIIByte c = true -> cur +:+ runeString c = snoc cur c.
Proof. intros H. rewrite (runeString_ascii c H). reflexivity. Qed.

Lemma runes_ascii s : isASCII s -> runes s = s.
Proof.
  unfold isASCII. induction s as [|c s IH]; intros H; [reflexivity|].
  simpl in H. apply Forall_cons in H as [Hc Hs].
  cbn [runes]. rewrite (runeString_ascii c Hc), (IH Hs). reflexivity.
Qed.

Lemma runes_nonempty s : s <> "" -> runes s <> "".
Proof.
  destruct s as [|c s]; [contradiction|]. intros _.
  cbn [runes]. unfold runeString. cbv zeta.
  destruct (N_of_ascii c <? 128)%N; discriminate.
Qed.

Lemma isASCII_app s1 s2 : isASCII (s1 +:+ s2) <-> isASCII s1 /\ isASCII s2.
Proof. unfold isASCII. rewrite list_ascii_of_string_app. apply Forall_app. Qed.

Lemma isASCII_cons c s : isASCII (String c s) <-> isASCIIByte c = true /\ isASCII s.
Proof.
  unfold isASCII. simpl.
  exact (Forall_cons (fun c => isASCIIByte c = true) c (list_ascii_of_string s)).
Qed.

(** Inside a quoted span every byte but the quote goes to [cur], as the
    encoding of the rune of its value. *)
Lemma lexRun_inQuote rest :
  forall toks cur,
    quoteByte ∉ list_ascii_of_string rest ->
    lexRun (mkLex toks cur true) rest = mkLex toks (cur +:+ runes rest) true.
Proof.
  induction rest as [|c rest IH]; intros toks cur Hq.
  - unfold lexRun. simpl. rewrite app_empty_r. reflexivity.
  - simpl in Hq. apply not_elem_of_cons in Hq as [Hc Hq].
    change (lexRun (mkLex toks cur true) (String c rest))
      with (lexRun (lexStep (mkLex toks cur true) c) rest).
    unfold lexStep. destruct (decide (c = quoteByte)); [congruence|].
    rewrite (IH toks (cur +:+ runeString c) Hq), string_app_assoc. reflexivity.
Qed.

(** An opening quote outside a quoted span empties [cur] without emitting
    it and enters the span. *)
Lemma lexRun_open_quote st rest :
  lx_inQuote st = false ->
  quoteByte ∉ list_ascii_of_string rest ->
  lexRun st (String quoteByte rest) = mkLex (lx_toks st) (runes rest) true.
Proof.
  intros Hout Hq. destruct st as [toks cur inQuote]. simpl in Hout. subst inQuote.
  change (lexRun (mkLex toks cur false) (String quoteByte rest))
    with (lexRun (lexStep (mkLex toks cur false) quoteByte) rest).
  unfold lexStep. destruct (decide (quoteByte = quoteByte)); [|contradiction].
  rewrite (lexRun_inQuote rest toks "" Hq). reflexivity.
Qed.

Lemma isASCII_trimLeft s : isASCII s -> isASCII (trimLeft s).
Proof.
  induction s as [|c s IH]; intros H; [exact H|].
  simpl. destruct (isSpace c); [|exact H].
  apply IH. apply isASCII_cons in H as [_ H]. exact H.
Qed.

Lemma isASCII_trimRight s : isASCII s -> isASCII (trimRight s).
Proof.
  induction s as [|c s IH]; intros H; [exact H|].
  apply isASCII_cons in H as [Hc Hs]. simpl.
  destruct (isSpace c && bool_decide (trimRight s = "")); [constructor|].
  apply isASCII_cons. split; [exact Hc | apply IH; exact Hs].
Qed.

Lemma isASCII_TrimSpace s : isASCII s -> isASCII (TrimSpace s).
Proof. intros H. apply isASCII_trimRight, isASCII_trimLeft, H. Qed.

(** C6 as stated fails: the text after an opening quote that is never
    closed comes out as a token. *)
Lemma unterminated_quote_not_discarded :
  QueryToRPN ("cats " +:+ String quoteByte "small") = ["cats"; "small"] /\
  QueryToRPN ("cats " +:+ String quoteByte "") = ["cats"] /\
  QueryToRPN ("cats " +:+ String quoteByte "small")
    <> QueryToRPN ("cats " +:+ String quoteByte "").
Proof.
  repeat split; try (vm_compute; reflexivity). vm_compute. discriminate.
Qed.

(** C6, amended.  When the scanned text ends inside a quoted span that is
    never closed, the text after the opening quote is not discarded: the
    flush at the end of the input emits it, when it is not empty, as one
    ordinary token (not a phrase) after the tokens read before the quote,
    each byte as [string(c)] encodes it, an ASCII byte as itself.  For a
    query of ASCII text whose trimmed form is that text, the token list is
    compiled as usual.  No error is raised. *)
Theorem unterminated_quote_flushed (pre rest : string) :
  lx_inQuote (lexRun lexInit pre) = false ->
  quoteByte ∉ list_ascii_of_string rest ->
  rest <> "" ->
  lexQuery (pre +:+ String quoteByte rest)
    = lx_toks (lexRun lexInit pre) ++ [runes rest] /\
  forall q,
    isASCII q ->
    TrimSpace q = pre +:+ String quoteByte rest ->
    lexQuery (TrimSpace q) = lx_toks (lexRun lexInit pre) ++ [rest] /\
    QueryToRPN q =
      shuntingYard (map normalizeTok (lx_toks (lexRun lexInit pre) ++ [rest])).
Proof.
  intros Hout Hno Hne.
  assert (Hscan : lexQuery (pre +:+ String quoteByte rest)
                  = lx_toks (lexRun lexInit pre) ++ [runes rest]).
  { unfold lexQuery.
    rewrite lexRun_app, (lexRun_open_quote _ rest Hout Hno).
    unfold lexFinish. simpl.
    destruct (decide (runes rest = "")) as [E|_]; [|reflexivity].
    exfalso. exact (runes_nonempty rest Hne E). }
  split; [exact Hscan|]. intros q Hascii Hq.
  assert (Hrest : runes rest = rest).
  { apply runes_ascii. apply isASCII_TrimSpace in Hascii. rewrite Hq in Hascii.
    apply isASCII_app in Hascii as [_ Hascii].
    apply isASCII_cons in Hascii as [_ Hascii]. exact Hascii. }
  assert (Hlex : lexQuery (TrimSpace q) = lx_toks (lexRun lexInit pre) ++ [rest]).
  { rewrite Hq, Hscan, Hrest. reflexivity. }
  split; [exact Hlex|].
  unfold QueryToRPN. rewrite Hlex.
  destruct (decide (TrimSpace q = "")) as [E|_]; [|reflexivity].
  rewrite E in Hq. destruct pre; discriminate.
Qed.

Lemma unterminated_quote_flushed_witness :
  lexQuery ("cats " +:+ String quoteByte "small Dog")
    = lx_toks (lexRun lexInit "cats ") ++ [runes "small Dog"] /\
  lexQuery (TrimSpace ("cats " +:+ String quoteByte "small Dog "))
    = lx_toks (lexRun lexInit "cats ") ++ ["small Dog"] /\
  QueryToRPN ("cats " +:+ String quoteByte "small Dog ")
    = shuntingYard (map normalizeTok (lx_toks (lexRun lexInit "cats ") ++ ["small Dog"])).
Proof.
  assert (Hout : lx_inQuote (lexRun lexInit "cats ") = false) by (vm_compute; reflexivity).
  assert (Hno : quoteByte ∉ list_ascii_of_string "small Dog")
    by (apply (bool_decide_unpack _); vm_compute; exact I).
  assert (Hne : "small Dog" <> "") by discriminate.
  destruct (unterminated_quote_flushed "cats " "small Dog" Hout Hno Hne) as [Hscan Hq].
  split; [exact Hscan|].
  apply (Hq ("cats " +:+ String quoteByte "small Dog ")).
  - apply (bool_decide_unpack _). vm_compute. exact I.
  - vm_compute. reflexivity.
Defined.

(** ** NOT *)

Lemma plainByte_facts c :
  isLower c || isDigit c = true ->
  isWordByte c = true /\ isSpace c = false /\ lowerByte c = c /\
  lowerByte (upperByte c) = c /\
  c <> quoteByte /\ c <> " "%char /\ c <> "("%char /\ c <> ")"%char /\
  isUpper c = false /\ upperByte c <> ":"%char /\ upperByte c <> "("%char /\
  upperByte c <> ")"%char.
Proof.
  destruct c as [[] [] [] [] [] [] [] []]; vm_compute; intros H;
    try discriminate H; repeat split; discriminate.
Qed.

Lemma plainByte_ascii c : isLower c || isDigit c = true -> isASCIIByte c = true.
Proof.
  destruct c as [[] [] [] [] [] [] [] []]; vm_compute; intros H;
    try discriminate H; reflexivity.
Qed.

Section PlainWords.
Variable t : string.
Hypothesis Hplain : Forall (fun c => isLower c || isDigit c = true) (list_ascii_of_string t).

Lemma plain_ToLower : ToLower t = t.
Proof.
  revert Hplain. induction t as [|c s IH]; intros H; [reflexivity|].
  simpl in H. apply Forall_cons in H as [Hc Hs].
  unfold ToLower in *. simpl. rewrite (IH Hs).
  destruct (plainByte_facts c Hc) as (_ & _ & -> & _). reflexivity.
Qed.

Lemma plain_ToLower_ToUpper : ToLower (ToUpper t) = t.
Proof.
  revert Hplain. induction t as [|c s IH]; intros H; [reflexivity|].
  simpl in H. apply Forall_cons in H as [Hc Hs].
  unfold ToLower, ToUpper in *. simpl. rewrite (IH Hs).
  destruct (plainByte_facts c Hc) as (_ & _ & _ & -> & _). reflexivity.
Qed.

Lemma plain_trimRight : trimRight t = t.
Proof.
  revert Hplain. induction t as [|c s IH]; intros H; [reflexivity|].
  simpl in H. apply Forall_cons in H as [Hc Hs].
  simpl. rewrite (IH Hs).
  destruct (plainByte_facts c Hc) as (_ & -> & _). reflexivity.
Qed.

Lemma plain_findWords : forall cur, cur +:+ t <> "" -> findWords cur t = [cur +:+ t].
Proof.
  revert Hplain. induction t as [|c s IH]; intros H cur Hne.
  - rewrite app_empty_r in *. simpl. destruct (decide (cur = "")); [contradiction | reflexivity].
  - simpl in H. apply Forall_cons in H as [Hc Hs].
    simpl. destruct (plainByte_facts c Hc) as (-> & _).
    rewrite (IH Hs), snoc_app; [reflexivity|].
    rewrite snoc_app. destruct cur; discriminate.
Qed.

Lemma plain_lexRun : forall toks cur,
  lexRun (mkLex toks cur false) t = mkLex toks (cur +:+ t) false.
Proof.
  revert Hplain. induction t as [|c s IH]; intros H toks cur.
  - unfold lexRun. simpl. rewrite app_empty_r. reflexivity.
  - simpl in H. apply Forall_cons in H as [Hc Hs].
    change (lexRun (mkLex toks cur false) (String c s))
      with (lexRun (lexStep (mkLex toks cur false) c) s).
    destruct (plainByte_facts c Hc) as (_ & _ & _ & _ & Hq & Hsp & Hl & Hr & _).
    unfold lexStep. rewrite (append_rune_ascii cur c (plainByte_ascii c Hc)).
    destruct (decide (c = quoteByte)); [contradiction|].
    destruct (decide (c = " "%char)); [contradiction|].
    rewrite !bool_decide_eq_false_2 by assumption. simpl.
    rewrite (IH Hs), snoc_app. reflexivity.
Qed.

(** No byte of the upper-cased word is a colon or a parenthesis. *)
Lemma plain_upper_bytes :
  Forall (fun c => c <> ":"%char /\ c <> "("%char /\ c <> ")"%char)
         (list_ascii_of_string (ToUpper t)).
Proof.
  revert Hplain. induction t as [|c s IH]; intros H; [constructor|].
  simpl in H. apply Forall_cons in H as [Hc Hs].
  unfold ToUpper in *. simpl. constructor; [|apply IH; exact Hs].
  destruct (plainByte_facts c Hc) as (_ & _ & _ & _ & _ & _ & _ & _ & _ & ? & ? & ?).
  auto.
Qed.

Lemma plain_no_upper : Forall (fun c => isUpper c = false) (list_ascii_of_string t).
Proof.
  eapply Forall_impl; [exact Hplain|]. intros c Hc.
  destruct (plainByte_facts c Hc) as (_ & _ & _ & _ & _ & _ & _ & _ & ? & _). assumption.
Qed.
End PlainWords.

Lemma HasPrefix_bytes s p :
  HasPrefix s p = true ->
  exists s', list_ascii_of_string s = list_ascii_of_string p ++ s'.
Proof.
  revert s. induction p as [|a p IH]; intros s H; simpl in *.
  - eexists. reflexivity.
  - destruct s as [|b s]; [discriminate|].
    destruct (decide (a = b)) as [->|]; [|discriminate].
    destruct (IH s H) as [s' Hs']. exists s'. simpl. rewrite Hs'. reflexivity.
Qed.

Lemma plain_normalizeTok t : plainWord t -> normalizeTok t = t.
Proof.
  intros (Hne & Hplain & Hstop & Hop). unfold normalizeTok.
  unfold isOperator in Hop. cbv zeta in *.
  pose proof (plain_upper_bytes t Hplain) as Hup.
  assert (E1 : bool_decide (ToUpper t = "(") = false).
  { apply bool_decide_eq_false_2. intros E. rewrite E in Hup.
    apply Forall_cons in Hup as [(_ & ? & _) _]. congruence. }
  assert (E2 : bool_decide (ToUpper t = ")") = false).
  { apply bool_decide_eq_false_2. intros E. rewrite E in Hup.
    apply Forall_cons in Hup as [(_ & _ & ?) _]. congruence. }
  assert (E3 : HasPrefix (ToUpper t) "PHRASE:" = false).
  { destruct (HasPrefix (ToUpper t) "PHRASE:") eqn:E; [|reflexivity].
    apply HasPrefix_bytes in E as [s' Hs']. rewrite Hs' in Hup. simpl in Hup.
    do 6 (apply Forall_cons in Hup as [_ Hup]).
    apply Forall_cons in Hup as [(? & _) _]. congruence. }
  rewrite Hop, E1, E2, E3. cbn [orb].
  rewrite (plain_ToLower_ToUpper t Hplain).
  unfold Tokenize, TokenizeWith, FindAllString. rewrite (plain_ToLower t Hplain).
  rewrite (plain_findWords t Hplain "") by exact Hne.
  simpl. rewrite bool_decide_eq_false_2 by exact Hstop. reflexivity.
Qed.

Lemma plain_not_tagged t :
  Forall (fun c => isLower c || isDigit c = true) (list_ascii_of_string t) ->
  HasPrefix t "PHRASE:" = false /\ t <> "(" /\ t <> ")" /\
  t <> "AND" /\ t <> "OR" /\ t <> "NOT".
Proof.
  intros H. pose proof (plain_no_upper t H) as Hup.
  destruct t as [|c s]; [repeat split; discriminate|].
  simpl in H, Hup. apply Forall_cons in H as [Hc _]. apply Forall_cons in Hup as [Hu _].
  destruct (plainByte_facts c Hc) as (_ & _ & _ & _ & _ & _ & Hl & Hr & _).
  repeat split; try (intros E; inversion E; subst c; first [contradiction | discriminate Hu]).
  simpl. destruct (decide ("P"%char = c)) as [<-|]; [discriminate Hu | reflexivity].
Qed.

Lemma QueryToRPN_NOT_word t :
  plainWord t -> QueryToRPN ("NOT " +:+ t) = [t; "NOT"].
Proof.
  intros Hw. pose proof Hw as (Hne & Hplain & Hstop & Hop).
  destruct (plain_not_tagged t Hplain) as (Htag & Hl & Hr & _).
  assert (Htrim : TrimSpace ("NOT " +:+ t) = "NOT " +:+ t).
  { unfold TrimSpace. rewrite !app_cons. change ("" +:+ t) with t. simpl.
    rewrite (plain_trimRight t Hplain).
    rewrite bool_decide_eq_false_2 by exact Hne. reflexivity. }
  assert (Hlex : lexQuery ("NOT " +:+ t) = ["NOT"; t]).
  { unfold lexQuery. rewrite lexRun_app.
    change (lexRun lexInit "NOT ") with (mkLex ["NOT"] "" false).
    rewrite (plain_lexRun t Hplain). change ("" +:+ t) with t.
    unfold lexFinish. simpl.
    destruct (decide (t = "")); [contradiction | reflexivity]. }
  unfold QueryToRPN. rewrite Htrim, Hlex.
  destruct (decide ("NOT " +:+ t = "")) as [E|_]; [discriminate E|].
  change (map normalizeTok ["NOT"; t]) with [normalizeTok "NOT"; normalizeTok t].
  rewrite (plain_normalizeTok t Hw).
  change (normalizeTok "NOT") with "NOT".
  unfold shuntingYard.
  change (fold_left yardStep ["NOT"; t] (mkYard [] []))
    with (yardStep (yardStep (mkYard [] []) "NOT") t).
  change (yardStep (mkYard [] []) "NOT") with (mkYard [] ["NOT"]).
  unfold yardStep.
  destruct (decide (t = "(")); [contradiction|].
  destruct (decide (t = ")")); [contradiction|].
  unfold isOperator in Hop. cbv zeta in Hop. rewrite Hop, Htag. reflexivity.
Qed.

Lemma evalStep_NOT universe a stack idx :
  returns (evalStep universe (a :: stack) "NOT") idx ((universe ∖ a) :: stack).
Proof. unfold evalStep. simpl. rewrite setDiff_eq. reflexivity. Qed.

Lemma evalStep_term universe stack t idx :
  t <> "AND" -> t <> "OR" -> t <> "NOT" -> HasPrefix t "PHRASE:" = false ->
  returns (evalStep universe stack t) idx (termDocs idx t :: stack).
Proof.
  intros H1 H2 H3 Htag. unfold evalStep.
  rewrite !bool_decide_eq_false_2 by assumption. cbn [orb]. rewrite Htag.
  eapply returns_bind; [|reflexivity].
  eapply returns_bind; [apply returns_gets|].
  unfold termDocs. destruct (Terms idx !! t); simpl; [reflexivity|].
  rewrite dom_empty_L. reflexivity.
Qed.

Lemma EvaluateRPN_NOT_term t idx :
  t <> "AND" -> t <> "OR" -> t <> "NOT" -> HasPrefix t "PHRASE:" = false ->
  returns (EvaluateRPN [t; "NOT"]) idx (dom (Docs idx) ∖ termDocs idx t).
Proof.
  intros H1 H2 H3 Htag. unfold EvaluateRPN.
  eapply returns_bind; [apply returns_gets|].
  eapply (returns_bind _ _ idx [dom (Docs idx) ∖ termDocs idx t]); [|reflexivity].
  simpl. eapply returns_bind; [apply evalStep_term; assumption|].
  eapply returns_bind; [apply evalStep_NOT | reflexivity].
Qed.

(** *** The documents of a term in an index built by [AddDocument] *)

Lemma addPosting_termDocs id pos tok idx t :
  termDocs (snd (addPosting id pos tok idx)) t =
  if decide (t = tok) then {[id]} ∪ termDocs idx t else termDocs idx t.
Proof.
  unfold addPosting, mbind, IndexM_bind, gets, modify, mret, IndexM_ret, termDocs.
  destruct (Terms idx !! tok) as [posting|] eqn:Ht.
  - rewrite bool_decide_eq_true_2 by eauto. simpl.
    destruct (decide (t = tok)) as [->|Hne].
    + rewrite lookup_insert_eq, Ht. simpl. apply dom_insert_L.
    + rewrite lookup_insert_ne by congruence. reflexivity.
  - rewrite bool_decide_eq_false_2 by (intros [? ?]; congruence). simpl.
    destruct (decide (t = tok)) as [->|Hne].
    + rewrite !lookup_insert_eq, Ht. simpl. apply dom_insert_L.
    + rewrite !lookup_insert_ne by congruence. reflexivity.
Qed.

Lemma addTokens_termDocs id tokens t :
  forall pos idx,
    termDocs (snd (addTokens id pos tokens idx)) t =
    if decide (t ∈ tokens) then {[id]} ∪ termDocs idx t else termDocs idx t.
Proof.
  induction tokens as [|tok rest IH]; intros pos idx.
  - simpl. destruct (decide (t ∈ [])) as [H|_]; [inversion H | reflexivity].
  - destruct (addPosting_spec id pos tok idx) as (idx1 & H1 & _).
    assert (E : addTokens id pos (tok :: rest) idx = addTokens id (S pos) rest idx1).
    { simpl. unfold mbind, IndexM_bind. rewrite H1. reflexivity. }
    rewrite E, IH.
    replace idx1 with (snd (addPosting id pos tok idx)) by (rewrite H1; reflexivity).
    rewrite addPosting_termDocs.
    destruct (decide (t = tok)) as [->|Hne].
    + destruct (decide (tok ∈ tok :: rest)) as [_|Hn]; [|exfalso; apply Hn; left].
      destruct (decide (tok ∈ rest)); [|reflexivity].
      apply set_eq. intros x. rewrite !elem_of_union. tauto.
    + destruct (decide (t ∈ rest)) as [Hin|Hnin].
      * destruct (decide (t ∈ tok :: rest)) as [_|Hn]; [reflexivity|].
        exfalso. apply Hn. right. exact Hin.
      * destruct (decide (t ∈ tok :: rest)) as [Hin|_]; [|reflexivity].
        apply elem_of_cons in Hin as [?|?]; contradiction.
Qed.

Lemma AddDocument_termDocs d idx t :
  termDocs (snd (AddDocument d idx)) t =
  if decide (t ∈ docTokens d) then {[ID d]} ∪ termDocs idx t else termDocs idx t.
Proof.
  unfold AddDocument. fold (docTokens d).
  set (idxA := mkIndex (Terms idx) (<[ID d := d]> (Docs idx))
                       (<[ID d := length (docTokens d)]> (DocTokCounts idx)) (N idx)).
  destruct (addTokens_spec (ID d) (docTokens d) 0 idxA) as (idx1 & H1 & _).
  pose proof (addTokens_termDocs (ID d) (docTokens d) t 0 idxA) as Ht.
  rewrite H1 in Ht. simpl in Ht.
  unfold mbind, IndexM_bind, modify. simpl. fold idxA. rewrite H1. simpl.
  exact Ht.
Qed.

Lemma indexAll_termDocs docs t :
  forall idx,
    termDocs (snd (indexAll docs idx)) t =
    termDocs idx t ∪
    list_to_set (map ID (filter (fun d => t ∈ docTokens d) docs)).
Proof.
  induction docs as [|d docs IH]; intros idx.
  - simpl. apply set_eq. intros x. rewrite elem_of_union, elem_of_empty. tauto.
  - destruct (AddDocument_spec d idx) as (idx1 & H1 & _).
    assert (E : indexAll (d :: docs) idx = indexAll docs idx1).
    { unfold indexAll. simpl. unfold mbind, IndexM_bind. rewrite H1. reflexivity. }
    rewrite E, IH.
    replace idx1 with (snd (AddDocument d idx)) by (rewrite H1; reflexivity).
    rewrite AddDocument_termDocs, filter_cons.
    destruct (decide (t ∈ docTokens d)); [|reflexivity].
    simpl. apply set_eq. intros x. rewrite !elem_of_union. tauto.
Qed.

Lemma indexAll_Docs docs :
  forall idx,
    dom (Docs (snd (indexAll docs idx))) = dom (Docs idx) ∪ list_to_set (map ID docs).
Proof.
  induction docs as [|d docs IH]; intros idx.
  - simpl. apply set_eq. intros x. rewrite elem_of_union, elem_of_empty. tauto.
  - destruct (AddDocument_spec d idx) as (idx1 & H1 & Hd & _).
    assert (E : indexAll (d :: docs) idx = indexAll docs idx1).
    { unfold indexAll. simpl. unfold mbind, IndexM_bind. rewrite H1. reflexivity. }
    rewrite E, IH, Hd, dom_insert_L. simpl.
    apply set_eq. intros x. rewrite !elem_of_union. tauto.
Qed.

(** C4. NOT pops one set and pushes its complement in the set of all
    indexed document identifiers.  So for a single term [t] the query
    "NOT t" gives the indexed documents without those that have a posting
    for [t], and all of them when there is none; in an index built from
    [docs] these are the documents whose tokens do not include [t]. *)
Theorem NOT_is_complement (idx : Index) (t : string) :
  (forall universe a stack,
     returns (evalStep universe (a :: stack) "NOT") idx ((universe ∖ a) :: stack)) /\
  returns allDocsSet idx (dom (Docs idx)) /\
  (t <> "AND" -> t <> "OR" -> t <> "NOT" -> HasPrefix t "PHRASE:" = false ->
   returns (EvaluateRPN [t; "NOT"]) idx (dom (Docs idx) ∖ termDocs idx t)) /\
  (plainWord t ->
   QueryToRPN ("NOT " +:+ t) = [t; "NOT"] /\
   returns (EvaluateRPN (QueryToRPN ("NOT " +:+ t))) idx
           (dom (Docs idx) ∖ termDocs idx t) /\
   (termDocs idx t = ∅ ->
    returns (EvaluateRPN (QueryToRPN ("NOT " +:+ t))) idx (dom (Docs idx))) /\
   forall docs,
     returns (EvaluateRPN (QueryToRPN ("NOT " +:+ t))) (buildIndex docs)
       (list_to_set (map ID docs)
        ∖ list_to_set (map ID (filter (fun d => t ∈ docTokens d) docs)))).
Proof.
  split; [intros; apply evalStep_NOT|]. split; [reflexivity|].
  split; [apply EvaluateRPN_NOT_term|].
  intros Hw. pose proof Hw as (_ & Hplain & _).
  destruct (plain_not_tagged t Hplain) as (Htag & _ & _ & H1 & H2 & H3).
  rewrite (QueryToRPN_NOT_word t Hw).
  split; [reflexivity|]. split; [apply EvaluateRPN_NOT_term; assumption|].
  split.
  - intros Hnone.
    pose proof (EvaluateRPN_NOT_term t idx H1 H2 H3 Htag) as Hr.
    rewrite Hnone, difference_empty_L in Hr. exact Hr.
  - intros docs.
    pose proof (EvaluateRPN_NOT_term t (buildIndex docs) H1 H2 H3 Htag) as Hr.
    unfold buildIndex in Hr at 2 3.
    rewrite indexAll_Docs, indexAll_termDocs in Hr.
    replace (dom (Docs NewIndex)) with (∅ : gset Z) in Hr by reflexivity.
    replace (termDocs NewIndex t) with (∅ : gset Z) in Hr by reflexivity.
    rewrite !(left_id_L ∅ (∪)) in Hr. exact Hr.
Qed.

Lemma NOT_is_complement_witness :
  plainWord "cats" /\
  QueryToRPN "NOT cats" = ["cats"; "NOT"] /\
  returns (EvaluateRPN (QueryToRPN "NOT cats")) (buildIndex sampleDocs) {[2%Z]}.
Proof.
  assert (Hw : plainWord "cats").
  { split; [discriminate|]. split; [repeat constructor|].
    split; [apply (bool_decide_unpack _); vm_compute; exact I | reflexivity]. }
  destruct (NOT_is_complement (buildIndex sampleDocs) "cats") as (_ & _ & _ & Hq).
  destruct (Hq Hw) as (Hrpn & _ & _ & Hdocs).
  split; [exact Hw|]. split; [exact Hrpn|].
  replace ({[2%Z]} : gset Z)
    with (list_to_set (map ID sampleDocs)
          ∖ list_to_set (map ID (filter (fun d => "cats" ∈ docTokens d) sampleDocs)) : gset Z)
    by (vm_compute; reflexivity).
  apply Hdocs.
Defined.

(** ** Further observations *)

(** [Stem] returns its argument, so the stemming flag does not change the
    tokens. *)
Lemma TokenizeWith_flag stem text : TokenizeWith stem text = Tokenize text.
Proof. destruct stem; reflexivity. Qed.

(** A phrase made of stopwords only has no tokens.  [EvaluateRPN] treats it
    as the empty set, but [matchedTermsInDoc] hands the empty token list to
    [checkPhraseInDoc] for every result document, and [Search] panics. *)
Example Search_panics_on_stopword_phrase :
  fst (EvaluateRPN (QueryToRPN ("cat OR " +:+ quoted "the")) (buildIndex [catDoc]))
    = Done {[1%Z]} /\
  fst (Search ("cat OR " +:+ quoted "the") (buildIndex [catDoc])) = Panic.
Proof. split; vm_compute; reflexivity. Qed.

(** Adding the same identifier twice appends the positions a second time:
    the list is no longer increasing. *)
Example AddDocument_twice_repeats_positions :
  positions (buildIndex [catDoc; catDoc]) "small" 1 = [0; 0].
Proof. vm_compute. reflexivity. Qed.

(** A parenthesised token sequence that leaves "(" on the operator stack
    makes the query match nothing: the stray "(" is evaluated as a term. *)
Example Search_unclosed_paren_matches_nothing :
  fst (EvaluateRPN (QueryToRPN "(cat") (buildIndex [catDoc])) = Done ∅ /\
  fst (EvaluateRPN (QueryToRPN "cat") (buildIndex [catDoc])) = Done {[1%Z]}.
Proof. split; vm_compute; reflexivity. Qed.

(** * Further properties of the code *)

(** ** The tokenizer *)

Lemma lowerByte_word c :
  isWordByte (lowerByte c) = true -> isLower (lowerByte c) || isDigit (lowerByte c) = true.
Proof.
  destruct c as [[] [] [] [] [] [] [] []]; vm_compute; intros H;
    first [discriminate H | reflexivity].
Qed.

Lemma lowerByte_fold c :
  lowerByte (upperByte c) = lowerByte c /\ lowerByte (lowerByte c) = lowerByte c.
Proof. destruct c as [[] [] [] [] [] [] [] []]; vm_compute; split; reflexivity. Qed.

Lemma nonword_lowerByte c : isWordByte c = false -> lowerByte c = c.
Proof.
  destruct c as [[] [] [] [] [] [] [] []]; vm_compute; intros H;
    first [discriminate H | reflexivity].
Qed.

Lemma ToLower_app s1 s2 : ToLower (s1 +:+ s2) = ToLower s1 +:+ ToLower s2.
Proof.
  unfold ToLower. induction s1 as [|c s1 IH]; [reflexivity|].
  rewrite app_cons. simpl. rewrite IH, app_cons. reflexivity.
Qed.

Lemma ToLower_bytes s :
  Forall (fun c => isWordByte c = true -> isLower c || isDigit c = true)
         (list_ascii_of_string (ToLower s)).
Proof.
  unfold ToLower. induction s as [|c s IH]; simpl; constructor.
  - apply lowerByte_word.
  - exact IH.
Qed.

Lemma list_ascii_snoc cur c :
  list_ascii_of_string (snoc cur c) = list_ascii_of_string cur ++ [c].
Proof. unfold snoc. apply list_ascii_of_string_app. Qed.

(** Every run found by the scan is not empty and made of word bytes that
    satisfy [P], when the bytes already read do. *)
Lemma findWords_runs (P : ascii -> Prop) s :
  Forall (fun c => isWordByte c = true -> P c) (list_ascii_of_string s) ->
  forall cur w,
    Forall P (list_ascii_of_string cur) ->
    w ∈ findWords cur s ->
    w <> "" /\ Forall P (list_ascii_of_string w).
Proof.
  induction s as [|c s IH]; intros Hs cur w Hcur Hw; simpl in *.
  - destruct (decide (cur = "")); [inversion Hw|].
    apply list_elem_of_singleton in Hw. subst w. auto.
  - apply Forall_cons in Hs as [Hc Hs].
    destruct (isWordByte c) eqn:E.
    + apply (IH Hs (snoc cur c)); [|exact Hw].
      rewrite list_ascii_snoc. apply Forall_app. split; [exact Hcur|].
      constructor; [auto | constructor].
    + apply elem_of_app in Hw as [Hw|Hw].
      * destruct (decide (cur = "")); [inversion Hw|].
        apply list_elem_of_singleton in Hw. subst w. auto.
      * apply (IH Hs ""); [constructor | exact Hw].
Qed.

Lemma elem_of_Tokenize text w :
  w ∈ Tokenize text <-> w ∈ FindAllString (ToLower text) /\ w ∉ stopwords.
Proof.
  unfold Tokenize, TokenizeWith, EnableStemming. rewrite list_elem_of_omap. split.
  - intros (m & Hm & Hsome). destruct (bool_decide (m ∈ stopwords)) eqn:E; [discriminate|].
    inversion Hsome; subst. apply bool_decide_eq_false in E. auto.
  - intros [Hw Hstop]. exists w. split; [exact Hw|].
    rewrite bool_decide_eq_false_2 by exact Hstop. reflexivity.
Qed.

(** X1. Every token is a non-empty run of lower-case letters and digits and
    is not a stopword. *)
Theorem Tokenize_tokens_wellformed (text w : string) :
  w ∈ Tokenize text ->
  w <> "" /\
  Forall (fun c => isLower c || isDigit c = true) (list_ascii_of_string w) /\
  (w ∉ stopwords).
Proof.
  intros Hw. apply elem_of_Tokenize in Hw as [Hw Hstop].
  destruct (findWords_runs (fun c => isLower c || isDigit c = true)
              (ToLower text) (ToLower_bytes text) "" w) as [Hne Hbytes];
    [constructor | exact Hw |].
  auto.
Qed.

Lemma Tokenize_tokens_wellformed_witness :
  "x9" <> "" /\
  Forall (fun c => isLower c || isDigit c = true) (list_ascii_of_string "x9") /\
  ("x9" ∉ stopwords).
Proof.
  apply (Tokenize_tokens_wellformed "The small cat sat, on X9-mat").
  apply (bool_decide_unpack _). vm_compute. exact I.
Defined.

Lemma ToLower_ToUpper s : ToLower (ToUpper s) = ToLower s.
Proof.
  unfold ToLower, ToUpper. induction s as [|c s IH]; [reflexivity|].
  simpl. rewrite IH. destruct (lowerByte_fold c) as [-> _]. reflexivity.
Qed.

Lemma ToLower_idem s : ToLower (ToLower s) = ToLower s.
Proof.
  unfold ToLower. induction s as [|c s IH]; [reflexivity|].
  simpl. rewrite IH. destruct (lowerByte_fold c) as [_ ->]. reflexivity.
Qed.

(** X2. On ASCII text tokenizing does not depend on the case of the
    letters: the text in upper case and the text in lower case have the
    tokens of the text. *)
Theorem Tokenize_case_insensitive (text : string) :
  isASCII text ->
  Tokenize (ToUpper text) = Tokenize text /\
  Tokenize (ToLower text) = Tokenize text.
Proof.
  intros _. unfold Tokenize, TokenizeWith.
  rewrite ToLower_ToUpper, ToLower_idem. split; reflexivity.
Qed.

Lemma Tokenize_case_insensitive_witness :
  Tokenize (ToUpper "The Small-cat sat3") = Tokenize "The Small-cat sat3" /\
  Tokenize (ToLower "The Small-cat sat3") = Tokenize "The Small-cat sat3".
Proof.
  apply (Tokenize_case_insensitive "The Small-cat sat3").
  apply (bool_decide_unpack _). vm_compute. exact I.
Defined.

Lemma findWords_app_sep s1 c s2 :
  isWordByte c = false ->
  forall cur,
    findWords cur (s1 +:+ String c s2) = findWords cur s1 ++ findWords "" s2.
Proof.
  intros Hc. induction s1 as [|a s1 IH]; intros cur.
  - change ("" +:+ String c s2) with (String c s2). simpl. rewrite Hc. reflexivity.
  - rewrite app_cons. simpl. destruct (isWordByte a).
    + apply IH.
    + rewrite IH, app_assoc. reflexivity.
Qed.

Lemma Tokenize_app_sep s1 c s2 :
  isWordByte c = false ->
  Tokenize (s1 +:+ String c s2) = Tokenize s1 ++ Tokenize s2.
Proof.
  intros Hc. unfold Tokenize, TokenizeWith, FindAllString.
  rewrite ToLower_app. unfold ToLower at 2. simpl. fold (ToLower s2).
  rewrite (nonword_lowerByte c Hc), (findWords_app_sep _ c _ Hc).
  apply omap_app.
Qed.

(** X3. In ASCII text a byte outside [[a-zA-Z0-9]] separates: the tokens
    of [s1 + c + s2] are the tokens of [s1] followed by those of [s2].  So
    the token stream that [AddDocument] indexes for a document with title
    [s1] and content [s2] is the title's tokens followed by the
    content's. *)
Theorem Tokenize_separator (s1 s2 : string) (c : ascii) :
  isASCII s1 ->
  isASCII s2 ->
  isASCIIByte c = true ->
  isWordByte c = false ->
  Tokenize (s1 +:+ String c s2) = Tokenize s1 ++ Tokenize s2 /\
  forall (id : Z) (date : string),
    docTokens (mkDocument id s1 date s2) = Tokenize s1 ++ Tokenize s2.
Proof.
  intros _ _ _ Hc. split; [apply Tokenize_app_sep; exact Hc|].
  intros id date. unfold docTokens.
  apply (Tokenize_app_sep s1 " "%char s2). reflexivity.
Qed.

Lemma Tokenize_separator_witness :
  Tokenize ("Small cat" +:+ String "-"%char "sat down")
    = Tokenize "Small cat" ++ Tokenize "sat down" /\
  forall (id : Z) (date : string),
    docTokens (mkDocument id "Small cat" date "sat down")
    = Tokenize "Small cat" ++ Tokenize "sat down".
Proof.
  apply (Tokenize_separator "Small cat" "sat down" "-"%char).
  - apply (bool_decide_unpack _). vm_compute. exact I.
  - apply (bool_decide_unpack _). vm_compute. exact I.
  - reflexivity.
  - reflexivity.
Defined.

Lemma Tokenize_word w :
  w <> "" ->
  Forall (fun c => isLower c || isDigit c = true) (list_ascii_of_string w) ->
  w ∉ stopwords ->
  Tokenize w = [w].
Proof.
  intros Hne Hplain Hstop. unfold Tokenize, TokenizeWith, FindAllString.
  rewrite (plain_ToLower w Hplain), (plain_findWords w Hplain "" Hne).
  simpl. rewrite bool_decide_eq_false_2 by exact Hstop. reflexivity.
Qed.

Lemma Tokenize_Join_words ws :
  Forall (fun w => w <> "" /\
            Forall (fun c => isLower c || isDigit c = true) (list_ascii_of_string w) /\
            w ∉ stopwords) ws ->
  Tokenize (Join ws " ") = ws.
Proof.
  induction ws as [|w [|w2 rest] IH]; intros H.
  - reflexivity.
  - apply Forall_cons in H as [(? & ? & ?) _]. simpl. apply Tokenize_word; assumption.
  - apply Forall_cons in H as [(Hne & Hplain & Hstop) Hrest].
    change (Join (w :: w2 :: rest) " ") with (w +:+ String " " (Join (w2 :: rest) " ")).
    rewrite Tokenize_app_sep by reflexivity.
    rewrite (IH Hrest), (Tokenize_word w Hne Hplain Hstop). reflexivity.
Qed.

(** X4. Tokens joined by single spaces tokenize to themselves: tokenizing
    is idempotent on its own output, as when a snippet is tokenized
    again. *)
Theorem Tokenize_Join_roundtrip (text : string) :
  Tokenize (Join (Tokenize text) " ") = Tokenize text.
Proof.
  apply Tokenize_Join_words. apply Forall_forall. intros w Hw.
  destruct (findWords_runs (fun c => isLower c || isDigit c = true)
              (ToLower text) (ToLower_bytes text) "" w) as [Hne Hbytes].
  - constructor.
  - apply elem_of_Tokenize in Hw. tauto.
  - apply elem_of_Tokenize in Hw. tauto.
Qed.

(** ** The index built by [AddDocument] *)

Lemma indexAll_tables docs :
  forall idx,
    let idx' := snd (indexAll docs idx) in
    Docs idx' = fold_left (fun m d => <[ID d := d]> m) docs (Docs idx) /\
    DocTokCounts idx'
      = fold_left (fun m d => <[ID d := length (docTokens d)]> m) docs (DocTokCounts idx) /\
    (docs <> [] -> N idx' = size (Docs idx')).
Proof.
  induction docs as [|d docs IH]; intros idx; simpl.
  - repeat split. congruence.
  - destruct (AddDocument_spec d idx) as (idx1 & H1 & Hd & Hc & Hn & _).
    assert (E : indexAll (d :: docs) idx = indexAll docs idx1).
    { unfold indexAll. simpl. unfold mbind, IndexM_bind. rewrite H1. reflexivity. }
    rewrite E. destruct (IH idx1) as (IHd & IHc & IHn).
    rewrite IHd, IHc, Hd, Hc. repeat split.
    intros _. destruct docs as [|d2 docs].
    + simpl. rewrite Hn, Hd. reflexivity.
    + rewrite IHn by discriminate. rewrite IHd, Hd. reflexivity.
Qed.

Lemma fold_insert_other {V} (f : Document -> V) docs :
  forall (m : gmap Z V) k,
    k ∉ map ID docs ->
    fold_left (fun m d => <[ID d := f d]> m) docs m !! k = m !! k.
Proof.
  induction docs as [|d docs IH]; intros m k Hk; simpl; [reflexivity|].
  simpl in Hk. apply not_elem_of_cons in Hk as [Hne Hk].
  rewrite IH by exact Hk. apply lookup_insert_ne. congruence.
Qed.

Lemma fold_insert_last {V} (f : Document -> V) docs :
  forall (m : gmap Z V) before d after,
    docs = before ++ d :: after ->
    ID d ∉ map ID after ->
    fold_left (fun m d => <[ID d := f d]> m) docs m !! ID d = Some (f d).
Proof.
  intros m before d after -> Hafter.
  rewrite fold_left_app. simpl.
  rewrite fold_insert_other by exact Hafter. apply lookup_insert_eq.
Qed.

(** X5. The tables of an index built from [docs]: the keys of [Docs] are the
    identifiers added, [N] is their number, and the entry and the token
    count of an identifier are those of the document added last with it.
    With distinct identifiers [N] is the number of documents. *)
Theorem buildIndex_tables (docs : list Document) :
  let idx := buildIndex docs in
  dom (Docs idx) = list_to_set (map ID docs) /\
  N idx = size (Docs idx) /\
  (forall before d after,
     docs = before ++ d :: after -> ID d ∉ map ID after ->
     Docs idx !! ID d = Some d /\ tokCount idx (ID d) = length (docTokens d)) /\
  (NoDup (map ID docs) -> N idx = length docs).
Proof.
  simpl. destruct (indexAll_tables docs NewIndex) as (Hd & Hc & Hn).
  fold (buildIndex docs) in Hd, Hc, Hn.
  assert (Hdom : dom (Docs (buildIndex docs)) = list_to_set (map ID docs)).
  { unfold buildIndex. rewrite indexAll_Docs. simpl.
    rewrite dom_empty_L. apply (left_id_L ∅ (∪)). }
  assert (HN : N (buildIndex docs) = size (Docs (buildIndex docs))).
  { destruct docs as [|d docs]; [reflexivity | apply Hn; discriminate]. }
  split; [exact Hdom|]. split; [exact HN|]. split.
  - intros before d after Hdocs Hafter. split.
    + rewrite Hd. apply (fold_insert_last (fun d => d) docs ∅ before d after Hdocs Hafter).
    + unfold tokCount. rewrite Hc.
      change (DocTokCounts NewIndex) with (∅ : gmap Z nat).
      rewrite (fold_insert_last (fun d => length (docTokens d)) docs ∅ before d after Hdocs Hafter).
      reflexivity.
  - intros Hnd. rewrite HN, <- size_dom, Hdom.
    rewrite size_list_to_set by exact Hnd. apply length_map.
Qed.

Lemma occurrencesFrom_elem_of t tokens :
  forall pos p,
    p ∈ occurrencesFrom pos t tokens <->
    exists i, p = pos + i /\ tokens !! i = Some t.
Proof.
  induction tokens as [|w rest IH]; intros pos p; simpl.
  - split; [intros H; inversion H | intros (i & _ & H); discriminate].
  - rewrite elem_of_app, IH. split.
    + intros [H|(i & -> & Hi)].
      * destruct (decide (w = t)) as [->|]; [|inversion H].
        apply list_elem_of_singleton in H. subst p. exists 0. split; [lia | reflexivity].
      * exists (S i). split; [lia | exact Hi].
    + intros ([|i] & -> & Hi); simpl in Hi.
      * inversion Hi; subst w. left.
        destruct (decide (t = t)); [|contradiction].
        rewrite Nat.add_0_r. apply list_elem_of_singleton. reflexivity.
      * right. exists i. split; [lia | exact Hi].
Qed.

Lemma recorded_unique t d docs :
  NoDup (map ID docs) -> d ∈ docs ->
  recorded t (ID d) docs = occurrencesFrom 0 t (docTokens d).
Proof.
  induction docs as [|x docs IH]; intros Hnd Hd; [inversion Hd|].
  simpl in Hnd. apply NoDup_cons in Hnd as [Hx Hnd].
  apply elem_of_cons in Hd as [->|Hd]; simpl.
  - destruct (decide (ID x = ID x)); [|contradiction].
    rewrite (recorded_fresh t (ID x) docs Hx). apply app_nil_r.
  - destruct (decide (ID x = ID d)) as [E|_].
    + exfalso. apply Hx. rewrite E. apply list_elem_of_fmap. eauto.
    + simpl. apply IH; assumption.
Qed.

Lemma positions_buildIndex docs t doc :
  positions (buildIndex docs) t doc = recorded t doc docs.
Proof.
  destruct (indexAll_spec docs NewIndex) as (idx & Hrun & Hp).
  unfold buildIndex. rewrite Hrun. simpl. rewrite Hp, positions_NewIndex. reflexivity.
Qed.

(** X6. The inverted index is exact.  After documents with distinct
    identifiers are added, position [p] is recorded for term [t] in
    document [d] exactly when the token at index [p] of the document's
    token stream is [t]; an identifier that was never added has no
    positions. *)
Theorem positions_are_token_indices (docs : list Document) (d : Document) (t : string) :
  NoDup (map ID docs) ->
  d ∈ docs ->
  (forall p, p ∈ positions (buildIndex docs) t (ID d) <-> docTokens d !! p = Some t) /\
  (forall doc, doc ∉ map ID docs -> positions (buildIndex docs) t doc = []).
Proof.
  intros Hnd Hd. split.
  - intros p. rewrite positions_buildIndex, (recorded_unique t d docs Hnd Hd).
    rewrite occurrencesFrom_elem_of. split.
    + intros (i & -> & Hi). exact Hi.
    + intros H. exists p. auto.
  - intros doc Hdoc. rewrite positions_buildIndex. apply recorded_fresh. exact Hdoc.
Qed.

Lemma positions_are_token_indices_witness :
  (forall p, p ∈ positions (buildIndex sampleDocs) "small" 3
             <-> docTokens (mkDocument 3 "" "" "small cats and small dogs") !! p = Some "small") /\
  (forall doc, doc ∉ map ID sampleDocs -> positions (buildIndex sampleDocs) "small" doc = []).
Proof.
  apply (positions_are_token_indices sampleDocs
           (mkDocument 3 "" "" "small cats and small dogs") "small").
  - apply (bool_decide_unpack _). vm_compute. exact I.
  - right. right. left.
Defined.

Lemma occurrencesFrom_nonempty t tokens pos :
  occurrencesFrom pos t tokens <> [] <-> t ∈ tokens.
Proof.
  split.
  - intros H. destruct (occurrencesFrom pos t tokens) as [|p l] eqn:E; [contradiction|].
    assert (Hp : p ∈ occurrencesFrom pos t tokens) by (rewrite E; left).
    apply occurrencesFrom_elem_of in Hp as (i & _ & Hi).
    eapply list_elem_of_lookup_2. exact Hi.
  - intros Ht E. apply list_elem_of_lookup_1 in Ht as [i Hi].
    assert (Hp : (pos + i) ∈ occurrencesFrom pos t tokens)
      by (apply occurrencesFrom_elem_of; eauto).
    rewrite E in Hp. inversion Hp.
Qed.

Lemma recorded_nonempty t doc docs :
  recorded t doc docs <> [] <-> exists d, d ∈ docs /\ ID d = doc /\ t ∈ docTokens d.
Proof.
  induction docs as [|x docs IH]; simpl.
  - split; [contradiction | intros (d & H & _); inversion H].
  - split.
    + intros H. destruct (decide (ID x = doc)) as [E|Hne].
      * destruct (decide (t ∈ docTokens x)) as [Ht|Hnt].
        -- exists x. split; [left | auto].
        -- assert (E0 : occurrencesFrom 0 t (docTokens x) = []).
           { destruct (occurrencesFrom 0 t (docTokens x)) eqn:Eo; [reflexivity|].
             exfalso. apply Hnt. apply (occurrencesFrom_nonempty t _ 0). rewrite Eo. discriminate. }
           rewrite E0 in H. simpl in H. apply IH in H as (d & Hd & ?).
           exists d. split; [right; exact Hd | assumption].
      * simpl in H. apply IH in H as (d & Hd & ?).
        exists d. split; [right; exact Hd | assumption].
    + intros (d & Hd & Hid & Ht) E. apply app_eq_nil in E as [E1 E2].
      apply elem_of_cons in Hd as [->|Hd].
      * destruct (decide (ID x = doc)); [|contradiction].
        apply (occurrencesFrom_nonempty t (docTokens x) 0); assumption.
      * apply IH; [|exact E2]. eauto.
Qed.

Lemma termDocs_buildIndex docs t doc :
  doc ∈ termDocs (buildIndex docs) t <->
  exists d, d ∈ docs /\ ID d = doc /\ t ∈ docTokens d.
Proof.
  unfold buildIndex. rewrite indexAll_termDocs.
  replace (termDocs NewIndex t) with (∅ : gset Z) by reflexivity.
  rewrite elem_of_union, elem_of_empty, elem_of_list_to_set, list_elem_of_fmap.
  split.
  - intros [[]|(d & -> & Hd)]. apply list_elem_of_filter in Hd as [Ht Hd]. eauto.
  - intros (d & Hd & <- & Ht). right. exists d. split; [reflexivity|].
    apply list_elem_of_filter. auto.
Qed.

Lemma termDocs_indexed docs t doc :
  doc ∈ termDocs (buildIndex docs) t -> doc ∈ dom (Docs (buildIndex docs)).
Proof.
  intros H. apply termDocs_buildIndex in H as (d & Hd & <- & _).
  unfold buildIndex. rewrite indexAll_Docs.
  apply elem_of_union. right. apply elem_of_list_to_set, list_elem_of_fmap. eauto.
Qed.

(** X7. In an index built by [AddDocument] a posting never holds an empty
    position list and never names a document that is not in [Docs]: the
    documents of the posting of [t] are those with a position for [t],
    which are the added documents whose token stream contains [t]. *)
Theorem postings_wellformed (docs : list Document) (t : string) (doc : Z) :
  let idx := buildIndex docs in
  (doc ∈ termDocs idx t <-> positions idx t doc <> []) /\
  (positions idx t doc <> [] <-> exists d, d ∈ docs /\ ID d = doc /\ t ∈ docTokens d) /\
  (doc ∈ termDocs idx t -> doc ∈ dom (Docs idx)).
Proof.
  simpl.
  assert (Hpos : positions (buildIndex docs) t doc <> [] <->
                 exists d, d ∈ docs /\ ID d = doc /\ t ∈ docTokens d).
  { rewrite positions_buildIndex. apply recorded_nonempty. }
  split; [rewrite termDocs_buildIndex, Hpos; reflexivity|]. split; [exact Hpos|].
  apply termDocs_indexed.
Qed.

(** X8. Adding again a document that is already indexed breaks the order
    of its position lists: for every term of the document the list is no
    longer strictly increasing. *)
Theorem AddDocument_again_breaks_order (docs : list Document) (d : Document) (t : string) :
  d ∈ docs ->
  t ∈ docTokens d ->
  positions (buildIndex (docs ++ [d])) t (ID d)
    = positions (buildIndex docs) t (ID d) ++ occurrencesFrom 0 t (docTokens d) /\
  ~ StronglySorted lt (positions (buildIndex (docs ++ [d])) t (ID d)).
Proof.
  intros Hd Ht.
  assert (E : positions (buildIndex (docs ++ [d])) t (ID d)
              = positions (buildIndex docs) t (ID d) ++ occurrencesFrom 0 t (docTokens d)).
  { rewrite !positions_buildIndex. unfold recorded. rewrite flat_map_app. simpl.
    destruct (decide (ID d = ID d)); [|contradiction]. rewrite app_nil_r. reflexivity. }
  split; [exact E|]. rewrite E. intros Hs.
  apply list_elem_of_lookup_1 in Ht as [i Hi].
  assert (Hp : (0 + i) ∈ occurrencesFrom 0 t (docTokens d))
    by (apply occurrencesFrom_elem_of; eauto).
  assert (Hq : (0 + i) ∈ positions (buildIndex docs) t (ID d)).
  { rewrite positions_buildIndex. unfold recorded.
    apply list_elem_of_In, in_flat_map. exists d. split; [apply list_elem_of_In; exact Hd|].
    destruct (decide (ID d = ID d)); [|contradiction]. apply list_elem_of_In. exact Hp. }
  pose proof (StronglySorted_app_1_elem_of lt _ _ _ _ Hs Hq Hp). lia.
Qed.

Lemma AddDocument_again_breaks_order_witness :
  positions (buildIndex ([catDoc] ++ [catDoc])) "small" (ID catDoc)
    = positions (buildIndex [catDoc]) "small" (ID catDoc)
      ++ occurrencesFrom 0 "small" (docTokens catDoc) /\
  ~ StronglySorted lt (positions (buildIndex ([catDoc] ++ [catDoc])) "small" (ID catDoc)).
Proof.
  apply (AddDocument_again_breaks_order [catDoc] catDoc "small").
  - left.
  - apply (bool_decide_unpack _). vm_compute. exact I.
Defined.

(** ** Sorted lists and sets of identifiers *)

Lemma intersectSorted_sound a :
  forall b d, d ∈ intersectSorted a b -> d ∈ a /\ d ∈ b.
Proof.
  induction a as [|x a' IHa]; intros b d; [intros H; inversion H|].
  induction b as [|y b' IHb]; [intros H; inversion H|].
  simpl. destruct (decide (x = y)) as [->|Hne].
  - rewrite elem_of_cons. intros [->|H]; [split; left|].
    apply IHa in H as [? ?]. split; right; assumption.
  - destruct (decide (x < y)%Z).
    + intros H. apply IHa in H as [? ?]. split; [right|]; assumption.
    + intros H. apply IHb in H as [? ?]. split; [|right]; assumption.
Qed.

(** X9. [intersectSorted] only ever returns common elements; on strictly
    increasing inputs it returns all of them, in strictly increasing
    order. *)
Theorem intersectSorted_correct (a b : list Z) :
  (forall d, d ∈ intersectSorted a b -> d ∈ a /\ d ∈ b) /\
  (StronglySorted Z.lt a -> StronglySorted Z.lt b ->
   (forall d, d ∈ a -> d ∈ b -> d ∈ intersectSorted a b) /\
   StronglySorted Z.lt (intersectSorted a b)).
Proof.
  split; [apply intersectSorted_sound|].
  intros Ha Hb. split; [|apply intersectSorted_sorted; assumption].
  intros d H1 H2. apply intersectSorted_elem_of; auto.
Qed.

(** Without the order the merge misses common elements. *)
Example intersectSorted_unsorted_misses :
  intersectSorted [2; 1]%Z [1; 2]%Z = [2]%Z.
Proof. reflexivity. Qed.

(** X10. [postingIDs] lists the documents of a posting, each once, in
    strictly increasing order. *)
Theorem postingIDs_sorted_keys (post : gmap Z (list nat)) :
  StronglySorted Z.lt (postingIDs post) /\
  NoDup (postingIDs post) /\
  (forall d, d ∈ postingIDs post <-> is_Some (post !! d)).
Proof.
  split; [apply postingIDs_sorted|]. split.
  - unfold postingIDs. rewrite merge_sort_Permutation. apply NoDup_fst_map_to_list.
  - intros d. rewrite postingIDs_elem_of. apply elem_of_dom.
Qed.

(** X11. The three set helpers are intersection, union and difference;
    which argument [setIntersect] iterates does not matter. *)
Theorem set_helpers_are_set_algebra (a b : gset Z) :
  setIntersect a b = a ∩ b /\
  setIntersect a b = setIntersect b a /\
  setUnion a b = a ∪ b /\
  setDiff a b = a ∖ b.
Proof.
  split; [apply setIntersect_eq|]. split.
  - rewrite !setIntersect_eq. apply set_eq. intros x.
    rewrite !elem_of_intersection. tauto.
  - split; [apply setUnion_eq | apply setDiff_eq].
Qed.

(** ** The stack evaluator *)

Lemma returns_inj {A} (m : IndexM A) idx a b :
  returns m idx a -> returns m idx b -> a = b.
Proof. unfold returns. intros -> H. inversion H. reflexivity. Qed.

Lemma phraseDocs_returns idx tokens :
  returns (docsWithPhrase tokens) idx (phraseDocs idx tokens) /\
  forall d, d ∈ phraseDocs idx tokens <->
    match tokens with
    | [] => False
    | t :: rest => phraseAt idx d t rest = true
    end.
Proof.
  destruct (docsWithPhrase_returns idx tokens) as [res [Hres Hspec]].
  assert (E : phraseDocs idx tokens = res).
  { unfold phraseDocs. rewrite Hres. reflexivity. }
  rewrite E. auto.
Qed.

Lemma evalStep_operand universe stack tok idx :
  evalOperand tok ->
  returns (evalStep universe stack tok) idx (operandDocs idx tok :: stack).
Proof.
  intros (H1 & H2 & H3). unfold operandDocs.
  destruct (HasPrefix tok "PHRASE:") eqn:Htag; [|apply evalStep_term; assumption].
  unfold evalStep. rewrite !bool_decide_eq_false_2 by assumption. cbn [orb]. rewrite Htag.
  eapply returns_bind; [apply phraseDocs_returns | reflexivity].
Qed.

Lemma evalStep_AND universe r l stack idx :
  returns (evalStep universe (r :: l :: stack) "AND") idx ((l ∩ r) :: stack).
Proof. unfold evalStep. simpl. rewrite setIntersect_eq. reflexivity. Qed.

Lemma evalStep_OR universe r l stack idx :
  returns (evalStep universe (r :: l :: stack) "OR") idx ((l ∪ r) :: stack).
Proof. unfold evalStep. simpl. rewrite setUnion_eq. reflexivity. Qed.

Lemma forRange_cons {A B} (body : B -> A -> IndexM B) acc x l idx acc' :
  returns (body acc x) idx acc' ->
  forRange body acc (x :: l) idx = forRange body acc' l idx.
Proof.
  intros H. exact (run_bind (body acc x) (fun a => forRange body a l) idx acc' H).
Qed.

Lemma eval_toRPN idx q :
  Forall evalOperand (operands q) ->
  forall stack rest,
    forRange (evalStep (dom (Docs idx))) stack (toRPN q ++ rest) idx
    = forRange (evalStep (dom (Docs idx))) (denote idx q :: stack) rest idx.
Proof.
  induction q as [tok|q IH|l IHl r IHr|l IHl r IHr]; simpl; intros Hwf stack rest.
  - apply Forall_cons in Hwf as [Htok _].
    apply (forRange_cons _ _ _ _ _ _ (evalStep_operand _ _ _ _ Htok)).
  - rewrite <- app_assoc, (IH Hwf). simpl.
    apply (forRange_cons _ _ _ _ _ _ (evalStep_NOT _ _ _ _)).
  - apply Forall_app in Hwf as [Hl Hr].
    rewrite <- !app_assoc, (IHl Hl), (IHr Hr). simpl.
    apply (forRange_cons _ _ _ _ _ _ (evalStep_AND _ _ _ _ _)).
  - apply Forall_app in Hwf as [Hl Hr].
    rewrite <- !app_assoc, (IHl Hl), (IHr Hr). simpl.
    apply (forRange_cons _ _ _ _ _ _ (evalStep_OR _ _ _ _ _)).
Qed.

Lemma EvaluateRPN_toRPN (idx : Index) (q : Query) :
  Forall evalOperand (operands q) ->
  returns (EvaluateRPN (toRPN q)) idx (denote idx q).
Proof.
  intros Hwf. unfold EvaluateRPN.
  eapply returns_bind; [apply returns_gets|].
  eapply (returns_bind _ _ idx [denote idx q]); [|reflexivity].
  unfold returns.
  rewrite <- (app_nil_r (toRPN q)), (eval_toRPN idx q Hwf [] []). reflexivity.
Qed.

(** X12. The stack machine computes boolean set algebra: on the postfix
    form of a query tree [EvaluateRPN] returns the set the tree stands for,
    with AND as intersection, OR as union and NOT as complement in the
    indexed documents. *)
Theorem EvaluateRPN_denotes (idx : Index) (q : Query) :
  Forall evalOperand (operands q) ->
  returns (EvaluateRPN (toRPN q)) idx (denote idx q).
Proof. intros Hwf. apply EvaluateRPN_toRPN. exact Hwf. Qed.

Lemma EvaluateRPN_denotes_witness :
  returns (EvaluateRPN ["cats"; "dogs"; "NOT"; "AND"]) (buildIndex sampleDocs)
          (denote (buildIndex sampleDocs)
                  (QAnd (QOperand "cats") (QNot (QOperand "dogs")))).
Proof.
  apply (EvaluateRPN_denotes (buildIndex sampleDocs)
           (QAnd (QOperand "cats") (QNot (QOperand "dogs")))).
  repeat constructor; discriminate.
Defined.

Lemma evalStep_within universe stack tok idx :
  (forall tok, operandDocs idx tok ⊆ universe) ->
  Forall (fun s => s ⊆ universe) stack ->
  exists stack',
    returns (evalStep universe stack tok) idx stack' /\
    Forall (fun s => s ⊆ universe) stack'.
Proof.
  intros Hop Hstack.
  destruct (decide (tok = "AND")) as [->|H1].
  { destruct stack as [|r [|l s]]; try (eexists; split; [reflexivity | assumption]).
    exists ((l ∩ r) :: s). split; [apply evalStep_AND|].
    apply Forall_cons in Hstack as [Hr Hstack]. apply Forall_cons in Hstack as [Hl Hs].
    constructor; [|exact Hs]. intros x Hx. apply elem_of_intersection in Hx as [Hx _]. auto. }
  destruct (decide (tok = "OR")) as [->|H2].
  { destruct stack as [|r [|l s]]; try (eexists; split; [reflexivity | assumption]).
    exists ((l ∪ r) :: s). split; [apply evalStep_OR|].
    apply Forall_cons in Hstack as [Hr Hstack]. apply Forall_cons in Hstack as [Hl Hs].
    constructor; [|exact Hs]. intros x Hx. apply elem_of_union in Hx as [Hx|Hx]; auto. }
  destruct (decide (tok = "NOT")) as [->|H3].
  { destruct stack as [|a s]; [eexists; split; [reflexivity | assumption]|].
    exists ((universe ∖ a) :: s). split; [apply evalStep_NOT|].
    apply Forall_cons in Hstack as [_ Hs].
    constructor; [|exact Hs]. intros x Hx. apply elem_of_difference in Hx as [Hx _]. exact Hx. }
  exists (operandDocs idx tok :: stack). split.
  - apply evalStep_operand. repeat split; assumption.
  - constructor; [apply Hop | exact Hstack].
Qed.

Lemma operandDocs_indexed docs tok :
  operandDocs (buildIndex docs) tok ⊆ dom (Docs (buildIndex docs)).
Proof.
  intros d Hd. unfold operandDocs in Hd.
  destruct (HasPrefix tok "PHRASE:"); [|eapply termDocs_indexed; exact Hd].
  apply phraseDocs_returns in Hd.
  destruct (Tokenize (TrimPrefix tok "PHRASE:")) as [|t rest]; [contradiction|].
  apply phraseAt_spec in Hd as [Hne _].
  apply (termDocs_indexed docs t). apply termDocs_buildIndex.
  apply recorded_nonempty. rewrite <- positions_buildIndex. apply Hne. left.
Qed.

(** X13. On an index built by [AddDocument], whatever the token sequence,
    [EvaluateRPN] returns a set of indexed documents. *)
Theorem EvaluateRPN_within_indexed (docs : list Document) (rpn : list string) :
  exists s,
    returns (EvaluateRPN rpn) (buildIndex docs) s /\
    s ⊆ dom (Docs (buildIndex docs)) /\
    forall d, d ∈ s -> d ∈ map ID docs.
Proof.
  set (idx := buildIndex docs). set (U := dom (Docs idx)).
  assert (Hloop : forall rpn stack,
             Forall (fun s => s ⊆ U) stack ->
             exists stack',
               returns (forRange (evalStep U) stack rpn) idx stack' /\
               Forall (fun s => s ⊆ U) stack').
  { clear rpn. induction rpn as [|tok rpn IH]; intros stack Hstack.
    - exists stack. split; [reflexivity | exact Hstack].
    - destruct (evalStep_within U stack tok idx (operandDocs_indexed docs) Hstack)
        as (stack1 & H1 & Hs1).
      destruct (IH stack1 Hs1) as (stack2 & H2 & Hs2).
      exists stack2. split; [|exact Hs2].
      unfold returns. rewrite (forRange_cons _ _ _ _ _ _ H1). exact H2. }
  destruct (Hloop rpn [] (Forall_nil_2 _)) as (stack & Hrun & Hs).
  assert (Hsub : match stack with [] => ∅ | top :: _ => top end ⊆ U).
  { destruct stack as [|top s]; [intros x Hx; inversion Hx|].
    apply Forall_cons in Hs as [Ht _]. exact Ht. }
  exists (match stack with [] => ∅ | top :: _ => top end). split; [|split].
  - unfold EvaluateRPN. eapply returns_bind; [apply returns_gets|].
    eapply returns_bind; [exact Hrun|]. destruct stack; reflexivity.
  - exact Hsub.
  - intros d Hd. apply Hsub in Hd. unfold U, idx, buildIndex in Hd.
    rewrite indexAll_Docs in Hd. apply elem_of_union in Hd as [Hd|Hd].
    + simpl in Hd. rewrite dom_empty_L in Hd. inversion Hd.
    + apply elem_of_list_to_set in Hd. exact Hd.
Qed.

(** ** The shunting-yard loop *)

Lemma HasPrefix_TrimPrefix s p : HasPrefix s p = true -> p +:+ TrimPrefix s p = s.
Proof.
  intros H. unfold TrimPrefix. rewrite H. revert s H.
  induction p as [|a p IH]; intros s H; [reflexivity|].
  destruct s as [|b s]; [discriminate|]. simpl in H.
  destruct (decide (a = b)) as [->|]; [|discriminate].
  rewrite app_cons. simpl. rewrite (IH s H). reflexivity.
Qed.

Lemma yardStep_operand out ops tk :
  yardOperand tk -> yardStep (mkYard out ops) tk = mkYard (out ++ [tk]) ops.
Proof.
  intros (Hl & Hr & Hop). unfold yardStep.
  destruct (decide (tk = "(")); [contradiction|].
  destruct (decide (tk = ")")); [contradiction|].
  unfold isOperator in Hop. cbv zeta in Hop. rewrite Hop.
  destruct (HasPrefix tk "PHRASE:") eqn:E; [|reflexivity].
  rewrite (HasPrefix_TrimPrefix tk "PHRASE:" E). reflexivity.
Qed.

Lemma yardStep_operator out ops u :
  u = "AND" \/ u = "OR" \/ u = "NOT" ->
  yardStep (mkYard out ops) u
  = mkYard (y_out (popHigher u out ops)) (u :: y_ops (popHigher u out ops)).
Proof. intros [->|[->| ->]]; reflexivity. Qed.

Lemma yardStep_open out ops :
  yardStep (mkYard out ops) "(" = mkYard out ("(" :: ops).
Proof. reflexivity. Qed.

Lemma yardStep_close out ops :
  yardStep (mkYard out ops) ")"
  = match y_ops (popToParen out ops) with
    | top :: rest =>
        if decide (top = "(") then mkYard (y_out (popToParen out ops)) rest
        else popToParen out ops
    | [] => popToParen out ops
    end.
Proof. reflexivity. Qed.

Lemma popToParen_pending P :
  forall out ops,
    Forall (fun op => op <> "(") P ->
    popToParen out (P ++ "(" :: ops) = mkYard (out ++ P) ("(" :: ops).
Proof.
  induction P as [|op P IH]; intros out ops H; simpl.
  - rewrite app_nil_r. reflexivity.
  - apply Forall_cons in H as [Hop H].
    destruct (decide (op = "(")); [contradiction|].
    rewrite IH by exact H. rewrite <- app_assoc. reflexivity.
Qed.

Lemma popHigher_base u out ops : atBase ops -> popHigher u out ops = mkYard out ops.
Proof. intros [->|[rest ->]]; reflexivity. Qed.

Lemma popHigher_pending u (ok : string -> Prop) :
  (forall op, ok op -> op <> "(" /\ (precOf u <=? precOf (ToUpper op))%nat = true) ->
  forall P out ops,
    Forall ok P ->
    popHigher u out (P ++ ops) = popHigher u (out ++ P) ops.
Proof.
  intros Hok. induction P as [|op P IH]; intros out ops H; simpl.
  - rewrite app_nil_r. reflexivity.
  - apply Forall_cons in H as [Hop H]. destruct (Hok op Hop) as [Hne Hprec].
    destruct (decide (op = "(")); [contradiction|]. rewrite Hprec.
    rewrite IH by exact H. rewrite <- app_assoc. reflexivity.
Qed.

Lemma yard_close_pending out P ops :
  Forall (fun op => op <> "(") P ->
  yardStep (mkYard out (P ++ "(" :: ops)) ")" = mkYard (out ++ P) ops.
Proof.
  intros H. rewrite yardStep_close, (popToParen_pending P out ops H).
  cbn [y_ops y_out]. destruct (decide ("(" = "(")); [reflexivity | contradiction].
Qed.

Lemma yard_push_at_paren out ops u :
  u = "AND" \/ u = "OR" \/ u = "NOT" ->
  yardStep (mkYard out ("(" :: ops)) u = mkYard out (u :: "(" :: ops).
Proof. intros [->|[->| ->]]; reflexivity. Qed.

Lemma run_render q :
  Forall yardOperand (operands q) ->
  forall out ops rest,
    fold_left yardStep (render q ++ rest) (mkYard out ops)
    = fold_left yardStep rest (mkYard (out ++ toRPN q) ops).
Proof.
  induction q as [tok|q IH|l IHl r IHr|l IHl r IHr];
    cbn [render operands toRPN]; intros Hwf out ops rest.
  - apply Forall_cons in Hwf as [Htok _]. cbn [app fold_left].
    rewrite (yardStep_operand _ _ _ Htok). reflexivity.
  - cbn [app fold_left].
    rewrite yardStep_open, yard_push_at_paren by auto.
    rewrite <- app_assoc, (IH Hwf). cbn [app fold_left].
    rewrite (yard_close_pending _ ["NOT"] ops) by (repeat constructor; discriminate).
    rewrite <- !app_assoc. reflexivity.
  - apply Forall_app in Hwf as [Hl Hr]. cbn [app fold_left].
    rewrite yardStep_open, <- app_assoc, (IHl Hl). cbn [app fold_left].
    rewrite yard_push_at_paren by auto.
    rewrite <- app_assoc, (IHr Hr). cbn [app fold_left].
    rewrite (yard_close_pending _ ["AND"] ops) by (repeat constructor; discriminate).
    rewrite <- !app_assoc. reflexivity.
  - apply Forall_app in Hwf as [Hl Hr]. cbn [app fold_left].
    rewrite yardStep_open, <- app_assoc, (IHl Hl). cbn [app fold_left].
    rewrite yard_push_at_paren by auto.
    rewrite <- app_assoc, (IHr Hr). cbn [app fold_left].
    rewrite (yard_close_pending _ ["OR"] ops) by (repeat constructor; discriminate).
    rewrite <- !app_assoc. reflexivity.
Qed.

(** X14. Parentheses group: a query written with every operator
    application in parentheses compiles to the postfix form of its tree. *)
Theorem shuntingYard_parenthesised (q : Query) :
  Forall yardOperand (operands q) ->
  shuntingYard (render q) = toRPN q.
Proof.
  intros Hwf. unfold shuntingYard.
  rewrite <- (app_nil_r (render q)), (run_render q Hwf [] [] []).
  unfold yardFlush. cbn [fold_left y_out y_ops app]. apply app_nil_r.
Qed.

Lemma shuntingYard_parenthesised_witness :
  shuntingYard (render (QAnd (QOr (QOperand "a") (QOperand "b")) (QNot (QOperand "c"))))
  = toRPN (QAnd (QOr (QOperand "a") (QOperand "b")) (QNot (QOperand "c"))).
Proof.
  apply shuntingYard_parenthesised.
  repeat constructor; discriminate.
Defined.

(** *** Queries without parentheses *)

Lemma popHigher_AND_stops out ops : andStops ops -> popHigher "AND" out ops = mkYard out ops.
Proof. intros [[->|[rest ->]]|[rest ->]]; reflexivity. Qed.

Lemma popHigher_NOT_stops out ops : notStops ops -> popHigher "NOT" out ops = mkYard out ops.
Proof. intros [[[->|[rest ->]]|[rest ->]]|[rest ->]]; reflexivity. Qed.

Lemma popHigher_AND_pending P out ops :
  Forall pendAND P -> andStops ops ->
  popHigher "AND" out (P ++ ops) = mkYard (out ++ P) ops.
Proof.
  intros HP Hops. rewrite (popHigher_pending "AND" pendAND).
  - apply popHigher_AND_stops. exact Hops.
  - intros op [->| ->]; split; (discriminate || reflexivity).
  - exact HP.
Qed.

Lemma popHigher_OR_pending P out ops :
  Forall pendOR P -> atBase ops ->
  popHigher "OR" out (P ++ ops) = mkYard (out ++ P) ops.
Proof.
  intros HP Hops. rewrite (popHigher_pending "OR" pendOR).
  - apply popHigher_base. exact Hops.
  - intros op [->|[->| ->]]; split; (discriminate || reflexivity).
  - exact HP.
Qed.

Lemma run_lit l out ops rest :
  yardOperand (snd l) -> notStops ops ->
  fold_left yardStep (litTokens l ++ rest) (mkYard out ops)
  = fold_left yardStep rest
      (mkYard (out ++ [snd l]) ((if fst l then ["NOT"] else []) ++ ops)).
Proof.
  intros Hop Hops. destruct l as [[|] t]; unfold litTokens; cbn [fst snd app fold_left].
  - rewrite yardStep_operator by auto. rewrite (popHigher_NOT_stops out ops Hops).
    cbn [y_out y_ops]. rewrite (yardStep_operand _ _ _ Hop). reflexivity.
  - rewrite (yardStep_operand _ _ _ Hop). reflexivity.
Qed.

Lemma toRPN_lit l :
  toRPN (litQuery l) = snd l :: (if fst l then ["NOT"] else []).
Proof. destruct l as [[|] t]; reflexivity. Qed.

Lemma run_conj_tail ops ls :
  andStops ops ->
  Forall (fun l => yardOperand (snd l)) ls ->
  forall out P rest,
    Forall pendAND P ->
    exists out' P',
      fold_left yardStep (flat_map (fun l => "AND" :: litTokens l) ls ++ rest)
                (mkYard out (P ++ ops))
      = fold_left yardStep rest (mkYard out' (P' ++ ops)) /\
      out' ++ P' = (out ++ P) ++ flat_map (fun l => toRPN (litQuery l) ++ ["AND"]) ls /\
      Forall pendAND P'.
Proof.
  intros Hops. induction ls as [|l ls IH]; intros Hls out P rest HP.
  - exists out, P. cbn [flat_map app]. rewrite app_nil_r. auto.
  - apply Forall_cons in Hls as [Hl Hls].
    cbn [flat_map]. rewrite <- !app_assoc. cbn [app fold_left].
    rewrite yardStep_operator by auto.
    rewrite (popHigher_AND_pending P out ops HP Hops). cbn [y_out y_ops].
    rewrite (run_lit l _ ("AND" :: ops)) by (auto; right; eauto).
    destruct (IH Hls (out ++ P ++ [snd l]) ((if fst l then ["NOT"] else []) ++ ["AND"]) rest)
      as (out' & P' & Hrun & Hout & HP').
    { destruct (fst l); repeat (apply Forall_cons; split); try apply Forall_nil_2;
        unfold pendAND; auto. }
    exists out', P'. split; [|split; [|exact HP']].
    + rewrite <- Hrun. rewrite <- !app_assoc. reflexivity.
    + rewrite Hout, toRPN_lit. rewrite <- !app_assoc. reflexivity.
Qed.

Lemma toRPN_conj c :
  toRPN (conjQuery c)
  = toRPN (litQuery (fst c)) ++ flat_map (fun l => toRPN (litQuery l) ++ ["AND"]) (snd c).
Proof.
  destruct c as [l ls]. unfold conjQuery. cbn [fst snd].
  generalize (litQuery l). induction ls as [|l' ls IH]; intros q; cbn [fold_left flat_map].
  - rewrite app_nil_r. reflexivity.
  - rewrite IH. cbn [toRPN]. rewrite <- !app_assoc. reflexivity.
Qed.

Lemma operands_conj c : operands (conjQuery c) = map snd (fst c :: snd c).
Proof.
  destruct c as [l ls]. unfold conjQuery. cbn [fst snd].
  assert (H : forall q, operands (fold_left (fun q l => QAnd q (litQuery l)) ls q)
                        = operands q ++ map snd ls).
  { induction ls as [|l' ls IH]; intros q; cbn [fold_left map].
    - rewrite app_nil_r. reflexivity.
    - rewrite IH. cbn [operands]. rewrite <- app_assoc.
      destruct l' as [[|] t]; reflexivity. }
  rewrite H. destruct l as [[|] t]; reflexivity.
Qed.

Lemma run_conj ops c out rest :
  andStops ops ->
  Forall yardOperand (operands (conjQuery c)) ->
  exists out' P',
    fold_left yardStep (conjTokens c ++ rest) (mkYard out ops)
    = fold_left yardStep rest (mkYard out' (P' ++ ops)) /\
    out' ++ P' = out ++ toRPN (conjQuery c) /\
    Forall pendAND P'.
Proof.
  intros Hops Hwf. rewrite operands_conj in Hwf. destruct c as [l ls].
  cbn [fst snd map] in Hwf. apply Forall_cons in Hwf as [Hl Hls].
  assert (Hls' : Forall (fun l => yardOperand (snd l)) ls).
  { apply Forall_forall. intros x Hx. rewrite Forall_forall in Hls.
    apply Hls. apply list_elem_of_fmap. eauto. }
  clear Hls. rename Hls' into Hls.
  unfold conjTokens. cbn [fst snd]. rewrite <- app_assoc.
  rewrite (run_lit l out ops) by (auto; left; exact Hops).
  destruct (run_conj_tail ops ls Hops Hls (out ++ [snd l]) (if fst l then ["NOT"] else []) rest)
    as (out' & P' & Hrun & Hout & HP').
  { destruct (fst l); repeat (apply Forall_cons; split); try apply Forall_nil_2;
      unfold pendAND; auto. }
  exists out', P'. split; [exact Hrun|]. split; [|exact HP'].
  rewrite Hout, toRPN_conj, toRPN_lit. cbn [fst snd]. rewrite <- !app_assoc. reflexivity.
Qed.

Lemma run_disj_tail ops cs :
  atBase ops ->
  Forall (fun c => Forall yardOperand (operands (conjQuery c))) cs ->
  forall out P rest,
    Forall pendOR P ->
    exists out' P',
      fold_left yardStep (flat_map (fun c => "OR" :: conjTokens c) cs ++ rest)
                (mkYard out (P ++ ops))
      = fold_left yardStep rest (mkYard out' (P' ++ ops)) /\
      out' ++ P' = (out ++ P) ++ flat_map (fun c => toRPN (conjQuery c) ++ ["OR"]) cs /\
      Forall pendOR P'.
Proof.
  intros Hops. induction cs as [|c cs IH]; intros Hcs out P rest HP.
  - exists out, P. cbn [flat_map app]. rewrite app_nil_r. auto.
  - apply Forall_cons in Hcs as [Hc Hcs].
    cbn [flat_map]. rewrite <- !app_assoc. cbn [app fold_left].
    rewrite yardStep_operator by auto.
    rewrite (popHigher_OR_pending P out ops HP Hops). cbn [y_out y_ops].
    destruct (run_conj ("OR" :: ops) c (out ++ P)
                (flat_map (fun c => "OR" :: conjTokens c) cs ++ rest))
      as (out1 & P1 & Hrun1 & Hout1 & HP1); [right; eauto | exact Hc |].
    rewrite Hrun1.
    destruct (IH Hcs out1 (P1 ++ ["OR"]) rest) as (out' & P' & Hrun & Hout & HP').
    { apply Forall_app. split.
      - eapply Forall_impl; [exact HP1|]. intros op [->| ->]; [left | right; left]; reflexivity.
      - repeat (apply Forall_cons; split); try apply Forall_nil_2.
        unfold pendOR. auto. }
    rewrite <- (app_assoc P1 ["OR"] ops) in Hrun. cbn [app] in Hrun.
    exists out', P'. split; [exact Hrun|]. split; [|exact HP'].
    rewrite Hout, (app_assoc out1 P1), Hout1. rewrite <- !app_assoc. reflexivity.
Qed.

Lemma toRPN_disj d :
  toRPN (disjQuery d)
  = toRPN (conjQuery (fst d)) ++ flat_map (fun c => toRPN (conjQuery c) ++ ["OR"]) (snd d).
Proof.
  destruct d as [c cs]. unfold disjQuery. cbn [fst snd].
  generalize (conjQuery c). induction cs as [|c' cs IH]; intros q; cbn [fold_left flat_map].
  - rewrite app_nil_r. reflexivity.
  - rewrite IH. cbn [toRPN]. rewrite <- !app_assoc. reflexivity.
Qed.

Lemma operands_disj d :
  operands (disjQuery d) = flat_map (fun c => operands (conjQuery c)) (fst d :: snd d).
Proof.
  destruct d as [c cs]. unfold disjQuery. cbn [fst snd flat_map].
  generalize (conjQuery c). induction cs as [|c' cs IH]; intros q; cbn [fold_left flat_map].
  - rewrite app_nil_r. reflexivity.
  - rewrite IH. cbn [operands]. rewrite <- app_assoc. reflexivity.
Qed.

Lemma shuntingYard_flat
    (d : ((bool * string) * list (bool * string))
         * list ((bool * string) * list (bool * string))) :
  Forall yardOperand (operands (disjQuery d)) ->
  shuntingYard (disjTokens d) = toRPN (disjQuery d).
Proof.
  intros Hwf. rewrite operands_disj in Hwf. destruct d as [c cs].
  cbn [fst snd flat_map] in Hwf. apply Forall_app in Hwf as [Hc Hcs].
  apply Forall_flat_map in Hcs.
  unfold shuntingYard, disjTokens. cbn [fst snd].
  destruct (run_conj [] c [] (flat_map (fun c => "OR" :: conjTokens c) cs))
    as (out1 & P1 & Hrun1 & Hout1 & HP1); [left; left; reflexivity | exact Hc |].
  rewrite Hrun1.
  destruct (run_disj_tail [] cs (or_introl eq_refl) Hcs out1 P1 []) as (out' & P' & Hrun & Hout & _).
  { eapply Forall_impl; [exact HP1|]. intros op [->| ->]; [left | right; left]; reflexivity. }
  rewrite app_nil_r in Hrun. rewrite Hrun.
  unfold yardFlush. cbn [fold_left y_out y_ops]. rewrite app_nil_r.
  rewrite Hout, Hout1, toRPN_disj. reflexivity.
Qed.

(** X15. Precedence without parentheses: a disjunction of conjunctions of
    operands, each possibly under one NOT, compiles to the postfix form of
    the tree in which NOT binds tighter than AND, AND tighter than OR, and
    AND and OR associate to the left. *)
Theorem shuntingYard_precedence
    (d : ((bool * string) * list (bool * string))
         * list ((bool * string) * list (bool * string))) :
  Forall yardOperand (operands (disjQuery d)) ->
  shuntingYard (disjTokens d) = toRPN (disjQuery d).
Proof. intros Hwf. apply shuntingYard_flat. exact Hwf. Qed.

Lemma shuntingYard_precedence_witness :
  shuntingYard ["a"; "OR"; "NOT"; "b"; "AND"; "c"; "OR"; "d"]
  = ["a"; "b"; "NOT"; "c"; "AND"; "OR"; "d"; "OR"].
Proof.
  apply (shuntingYard_precedence
           (((false, "a"), []), [((true, "b"), [(false, "c")]); ((false, "d"), [])])).
  repeat constructor; discriminate.
Defined.

(** *** What the compiler keeps *)

Lemma popToParen_split ops :
  forall out, exists P rest,
    ops = P ++ rest /\ popToParen out ops = mkYard (out ++ P) rest.
Proof.
  induction ops as [|op ops IH]; intros out; simpl.
  - exists [], []. split; [reflexivity | rewrite app_nil_r; reflexivity].
  - destruct (decide (op = "(")).
    + exists [], (op :: ops). split; [reflexivity | rewrite app_nil_r; reflexivity].
    + destruct (IH (out ++ [op])) as (P & rest & -> & ->).
      exists (op :: P), rest. split; [reflexivity | rewrite <- app_assoc; reflexivity].
Qed.

Lemma popHigher_split u ops :
  forall out, exists P rest,
    ops = P ++ rest /\ popHigher u out ops = mkYard (out ++ P) rest.
Proof.
  induction ops as [|op ops IH]; intros out; simpl.
  - exists [], []. split; [reflexivity | rewrite app_nil_r; reflexivity].
  - destruct (decide (op = "(")).
    + exists [], (op :: ops). split; [reflexivity | rewrite app_nil_r; reflexivity].
    + destruct (precOf u <=? precOf (ToUpper op))%nat.
      * destruct (IH (out ++ [op])) as (P & rest & -> & ->).
        exists (op :: P), rest. split; [reflexivity | rewrite <- app_assoc; reflexivity].
      * exists [], (op :: ops). split; [reflexivity | rewrite app_nil_r; reflexivity].
Qed.

Lemma opsTok_facts op :
  opsTok op -> op <> ")" /\ isYardOperand op = false.
Proof. intros [->|[->|[->| ->]]]; split; (discriminate || reflexivity). Qed.

Lemma filter_operand_ops P :
  Forall opsTok P -> List.filter isYardOperand P = [].
Proof.
  induction P as [|op P IH]; intros H; [reflexivity|].
  apply Forall_cons in H as [Hop H]. simpl.
  destruct (opsTok_facts op Hop) as [_ ->]. auto.
Qed.

(** Moving operators from the stack to the output keeps the invariant. *)
Lemma yardInv_move out P rest consumed :
  yardInv (mkYard out (P ++ rest)) consumed ->
  yardInv (mkYard (out ++ P) rest) consumed.
Proof.
  intros (Hops & Hout & Hf & Hg). unfold yardInv. cbn [y_out y_ops] in *.
  apply Forall_app in Hops as [HP Hrest].
  split; [exact Hrest|]. split; [|split].
  - apply Forall_app. split; [exact Hout|].
    eapply Forall_impl; [exact HP|]. intros op Hop. apply (opsTok_facts op Hop).
  - rewrite List.filter_app, (filter_operand_ops P HP), app_nil_r. exact Hf.
  - rewrite List.filter_app in *. rewrite !length_app in *. lia.
Qed.

Lemma yardInv_step st consumed tk :
  yardInv st consumed -> yardInv (yardStep st tk) (consumed ++ [tk]).
Proof.
  destruct st as [out ops]. intros Hinv. unfold yardStep.
  destruct (decide (tk = "(")) as [->|Hl].
  { destruct Hinv as (Hops & Hout & Hf & Hg). unfold yardInv. cbn [y_out y_ops] in *.
    split; [constructor; [left; reflexivity | exact Hops]|].
    split; [exact Hout|]. rewrite !List.filter_app. simpl.
    rewrite app_nil_r, length_app. simpl. split; [exact Hf | lia]. }
  destruct (decide (tk = ")")) as [->|Hr].
  { destruct (popToParen_split ops out) as (P & rest & -> & ->).
    apply yardInv_move in Hinv. cbn [y_ops y_out].
    set (o := out ++ P) in *.
    assert (Hinv' : yardInv (mkYard o rest) (consumed ++ [")"])).
    { destruct Hinv as (Hops & Hout & Hf & Hg). unfold yardInv. cbn [y_out y_ops] in *.
      repeat split; try assumption; rewrite !List.filter_app; simpl.
      - rewrite app_nil_r. exact Hf.
      - rewrite length_app. simpl. lia. }
    destruct rest as [|top rest]; [exact Hinv'|].
    destruct (decide (top = "(")) as [->|]; [|exact Hinv'].
    destruct Hinv' as (Hops & Hout & Hf & Hg). unfold yardInv. cbn [y_out y_ops] in *.
    apply Forall_cons in Hops as [_ Hops]. simpl in Hg.
    repeat split; assumption. }
  destruct (bool_decide (ToUpper tk = "AND") || bool_decide (ToUpper tk = "OR")
            || bool_decide (ToUpper tk = "NOT")) eqn:Hop.
  { destruct (popHigher_split (ToUpper tk) ops out) as (P & rest & -> & ->).
    apply yardInv_move in Hinv. cbn [y_ops y_out].
    set (o := out ++ P) in *.
    destruct Hinv as (Hops & Hout & Hf & Hg). unfold yardInv. cbn [y_out y_ops] in *.
    assert (Hu : opsTok (ToUpper tk) /\ isOperator (ToUpper tk) = true).
    { apply orb_true_iff in Hop as [Hop|Hop];
        [apply orb_true_iff in Hop as [Hop|Hop]|];
        apply bool_decide_eq_true in Hop; rewrite Hop; split;
        try reflexivity; unfold opsTok; auto. }
    destruct Hu as [Hu1 Hu2].
    assert (Htk1 : isYardOperand tk = false).
    { unfold isYardOperand, isOperator. cbv zeta. rewrite Hop.
      rewrite andb_false_r. reflexivity. }
    assert (Htk2 : isOperator tk = true) by (unfold isOperator; cbv zeta; exact Hop).
    split; [constructor; assumption|]. split; [exact Hout|].
    rewrite !List.filter_app. cbn [List.filter]. rewrite Htk1, Htk2, Hu2.
    rewrite app_nil_r, length_app. simpl. split; [exact Hf | lia]. }
  assert (Htk1 : isYardOperand tk = true).
  { unfold isYardOperand, isOperator. cbv zeta. rewrite Hop.
    rewrite !bool_decide_eq_false_2 by assumption. reflexivity. }
  assert (Htk2 : isOperator tk = false) by (unfold isOperator; cbv zeta; exact Hop).
  assert (E : (if HasPrefix tk "PHRASE:"
               then mkYard (out ++ ["PHRASE:" +:+ TrimPrefix tk "PHRASE:"]) ops
               else mkYard (out ++ [tk]) ops) = mkYard (out ++ [tk]) ops).
  { destruct (HasPrefix tk "PHRASE:") eqn:E; [|reflexivity].
    rewrite (HasPrefix_TrimPrefix tk "PHRASE:" E). reflexivity. }
  rewrite E. destruct Hinv as (Hops & Hout & Hf & Hg). unfold yardInv. cbn [y_out y_ops] in *.
  split; [exact Hops|]. split.
  - apply Forall_app. split; [exact Hout|]. constructor; [exact Hr | constructor].
  - rewrite !List.filter_app. cbn [List.filter]. rewrite Htk1, Htk2, Hf.
    rewrite app_nil_r, !length_app. simpl. split; [reflexivity | lia].
Qed.

Lemma yardInv_run toks :
  forall st consumed,
    yardInv st consumed -> yardInv (fold_left yardStep toks st) (consumed ++ toks).
Proof.
  induction toks as [|tk toks IH]; intros st consumed H; simpl.
  - rewrite app_nil_r. exact H.
  - replace (consumed ++ tk :: toks) with ((consumed ++ [tk]) ++ toks)
      by (rewrite <- app_assoc; reflexivity).
    apply IH, yardInv_step, H.
Qed.

(** X16. Whatever the tokens, the shunting-yard loop never puts a closing
    parenthesis in its output, keeps every operand once and in the order
    of the query, and emits as many operators as it read.  So for every
    query string no [")"] appears in the RPN. *)
Theorem shuntingYard_keeps_tokens (toks : list string) (q : string) :
  (")" ∉ shuntingYard toks) /\
  List.filter isYardOperand (shuntingYard toks) = List.filter isYardOperand toks /\
  length (List.filter isOperator (shuntingYard toks))
  = length (List.filter isOperator toks) /\
  (")" ∉ QueryToRPN q).
Proof.
  assert (Hall : forall toks,
             (")" ∉ shuntingYard toks) /\
             List.filter isYardOperand (shuntingYard toks) = List.filter isYardOperand toks /\
             length (List.filter isOperator (shuntingYard toks))
             = length (List.filter isOperator toks)).
  { clear toks. intros toks.
    assert (H0 : yardInv (mkYard [] []) []) by (repeat split; constructor).
    pose proof (yardInv_run toks _ _ H0) as H. simpl in H.
    unfold shuntingYard, yardFlush.
    destruct (fold_left yardStep toks (mkYard [] [])) as [out ops].
    destruct H as (Hops & Hout & Hf & Hg). cbn [y_out y_ops] in *.
    split; [|split].
    - intros Hin. apply elem_of_app in Hin as [Hin|Hin].
      + rewrite Forall_forall in Hout. apply (Hout _ Hin). reflexivity.
      + rewrite Forall_forall in Hops. apply (opsTok_facts _ (Hops _ Hin)). reflexivity.
    - rewrite List.filter_app, (filter_operand_ops ops Hops), app_nil_r. exact Hf.
    - rewrite List.filter_app, length_app. exact Hg. }
  destruct (Hall toks) as (H1 & H2 & H3).
  repeat split; try assumption.
  unfold QueryToRPN. destruct (decide (TrimSpace q = "")).
  - intros H. inversion H.
  - apply Hall.
Qed.

(** ** The scan of the query string *)

Lemma lexRun_cons st c s : lexRun st (String c s) = lexRun (lexStep st c) s.
Proof. reflexivity. Qed.

Lemma isSpace_space c : isSpace c = false -> c <> " "%char.
Proof. intros H ->. discriminate H. Qed.

Lemma lexRun_run t :
  Forall (fun c => isASCIIByte c = true /\ isSpace c = false /\
                   c <> quoteByte /\ c <> "("%char /\ c <> ")"%char)
         (list_ascii_of_string t) ->
  forall toks cur,
    lexRun (mkLex toks cur false) t = mkLex toks (cur +:+ t) false.
Proof.
  induction t as [|c s IH]; intros H toks cur.
  - unfold lexRun. simpl. rewrite app_empty_r. reflexivity.
  - simpl in H. apply Forall_cons in H as [(Ha & Hsp & Hq & Hl & Hr) Hs].
    rewrite lexRun_cons. unfold lexStep. rewrite (append_rune_ascii cur c Ha).
    destruct (decide (c = quoteByte)); [contradiction|].
    destruct (decide (c = " "%char)) as [E|_]; [exfalso; exact (isSpace_space c Hsp E)|].
    rewrite !bool_decide_eq_false_2 by assumption. cbn [orb].
    rewrite (IH Hs), snoc_app. reflexivity.
Qed.

(** A token followed by a space, and a token at the end of the input. *)
Lemma lexRun_tok_space t toks rest :
  simpleTok t ->
  lexRun (mkLex toks "" false) (t +:+ String " " rest)
  = lexRun (mkLex (toks ++ [t]) "" false) rest.
Proof.
  intros [->|[->|[Hne Hrun]]]; try reflexivity.
  rewrite lexRun_app, (lexRun_run t Hrun), lexRun_cons.
  change ("" +:+ t) with t. unfold lexStep.
  destruct (decide (" "%char = quoteByte)) as [E|_]; [discriminate E|].
  destruct (decide (" "%char = " "%char)); [|contradiction].
  destruct (decide (t = "")); [contradiction | reflexivity].
Qed.

Lemma lexRun_tok_end t toks :
  simpleTok t ->
  lexFinish (lexRun (mkLex toks "" false) t) = toks ++ [t].
Proof.
  intros [->|[->|[Hne Hrun]]]; try reflexivity.
  rewrite (lexRun_run t Hrun). change ("" +:+ t) with t.
  unfold lexFinish. cbn [lx_cur lx_toks].
  destruct (decide (t = "")); [contradiction | reflexivity].
Qed.

Lemma Join_cons2 t t2 ts :
  Join (t :: t2 :: ts) " " = t +:+ String " " (Join (t2 :: ts) " ").
Proof. reflexivity. Qed.

Lemma lex_Join ts :
  Forall simpleTok ts -> ts <> [] ->
  forall toks, lexFinish (lexRun (mkLex toks "" false) (Join ts " ")) = toks ++ ts.
Proof.
  induction ts as [|t [|t2 ts] IH]; intros H Hne toks; [contradiction| |].
  - apply Forall_cons in H as [Ht _]. apply lexRun_tok_end. exact Ht.
  - apply Forall_cons in H as [Ht H].
    rewrite Join_cons2, (lexRun_tok_space t toks _ Ht), (IH H) by discriminate.
    rewrite <- app_assoc. reflexivity.
Qed.

Lemma simpleTok_first t s :
  simpleTok t -> trimLeft (t +:+ s) = t +:+ s /\ t <> "".
Proof.
  intros [->|[->|[Hne Hrun]]]; [split; [reflexivity | discriminate]..|].
  split; [|exact Hne]. destruct t as [|c t]; [contradiction|].
  simpl in Hrun. apply Forall_cons in Hrun as [(_ & Hsp & _) _].
  rewrite app_cons. simpl. rewrite Hsp. reflexivity.
Qed.

Lemma trimRight_run t :
  Forall (fun c => isSpace c = false) (list_ascii_of_string t) -> trimRight t = t.
Proof.
  induction t as [|c s IH]; intros H; [reflexivity|].
  simpl in H. apply Forall_cons in H as [Hc Hs].
  simpl. rewrite (IH Hs), Hc. reflexivity.
Qed.

Lemma trimRight_keep x s :
  trimRight s = s -> s <> "" -> trimRight (x +:+ s) = x +:+ s.
Proof.
  intros Hs Hne. induction x as [|c x IH]; [exact Hs|].
  rewrite app_cons. simpl. rewrite IH.
  rewrite bool_decide_eq_false_2; [rewrite andb_false_r; reflexivity|].
  destruct x; [exact Hne | discriminate].
Qed.

Lemma simpleTok_trimRight t : simpleTok t -> trimRight t = t /\ t <> "".
Proof.
  intros [->|[->|[Hne Hrun]]]; [split; [reflexivity | discriminate]..|].
  split; [|exact Hne]. apply trimRight_run.
  eapply Forall_impl; [exact Hrun|]. intros c (_ & H & _). exact H.
Qed.

Lemma trimRight_Join ts :
  Forall simpleTok ts -> ts <> [] ->
  trimRight (Join ts " ") = Join ts " " /\ Join ts " " <> "".
Proof.
  induction ts as [|t [|t2 ts] IH]; intros H Hne; [contradiction| |].
  - apply Forall_cons in H as [Ht _]. apply simpleTok_trimRight. exact Ht.
  - apply Forall_cons in H as [Ht H]. destruct (IH H) as [IH1 IH2]; [discriminate|].
    rewrite Join_cons2. split.
    + apply (trimRight_keep t (String " " (Join (t2 :: ts) " "))); [|discriminate].
      change (String " " (Join (t2 :: ts) " ")) with (" " +:+ Join (t2 :: ts) " ").
      apply trimRight_keep; assumption.
    + destruct t; discriminate.
Qed.

Lemma TrimSpace_Join ts :
  Forall simpleTok ts -> ts <> [] ->
  TrimSpace (Join ts " ") = Join ts " " /\ Join ts " " <> "".
Proof.
  intros H Hne. destruct (trimRight_Join ts H Hne) as [Hr Hn].
  split; [|exact Hn]. unfold TrimSpace.
  assert (Hl : trimLeft (Join ts " ") = Join ts " ").
  { destruct ts as [|t [|t2 ts]]; [contradiction| |].
    - apply Forall_cons in H as [Ht _].
      destruct (simpleTok_first t "" Ht) as [E _]. rewrite app_empty_r in E. exact E.
    - apply Forall_cons in H as [Ht _]. rewrite Join_cons2.
      apply (simpleTok_first t _ Ht). }
  rewrite Hl. exact Hr.
Qed.

(** X17. Scanning is the inverse of writing tokens with single spaces:
    when every token is a parenthesis or a non-empty run of ASCII bytes
    without white space, quote or parenthesis, the scan of the joined
    string gives the tokens back, and the query compiles to the
    shunting-yard of the normalised tokens. *)
Theorem lexQuery_Join_roundtrip (ts : list string) :
  Forall simpleTok ts ->
  ts <> [] ->
  lexQuery (Join ts " ") = ts /\
  QueryToRPN (Join ts " ") = shuntingYard (map normalizeTok ts).
Proof.
  intros H Hne.
  assert (Hlex : lexQuery (Join ts " ") = ts) by (apply (lex_Join ts H Hne [])).
  split; [exact Hlex|].
  destruct (TrimSpace_Join ts H Hne) as [Htrim Hn].
  unfold QueryToRPN. rewrite Htrim, Hlex.
  destruct (decide (Join ts " " = "")); [contradiction | reflexivity].
Qed.

Lemma lexQuery_Join_roundtrip_witness :
  lexQuery "( cat-s OR Dogs ) AND NOT x9" = ["("; "cat-s"; "OR"; "Dogs"; ")"; "AND"; "NOT"; "x9"] /\
  QueryToRPN "( cat-s OR Dogs ) AND NOT x9"
  = shuntingYard (map normalizeTok ["("; "cat-s"; "OR"; "Dogs"; ")"; "AND"; "NOT"; "x9"]).
Proof.
  apply (lexQuery_Join_roundtrip ["("; "cat-s"; "OR"; "Dogs"; ")"; "AND"; "NOT"; "x9"]).
  - repeat (apply Forall_cons; split); try apply Forall_nil_2;
      first [ left; reflexivity
            | right; left; reflexivity
            | right; right; split; [discriminate|];
              repeat (apply Forall_cons; split); try apply Forall_nil_2;
              repeat split; discriminate ].
  - discriminate.
Defined.

(** ** Phrase operands *)

Lemma phrase_tag s :
  "PHRASE:" +:+ s
  = String "P" (String "H" (String "R" (String "A" (String "S" (String "E" (String ":" s)))))).
Proof. reflexivity. Qed.

Lemma phrase_token_facts s :
  let tk := "PHRASE:" +:+ s in
  yardOperand tk /\ evalOperand tk /\ normalizeTok tk = tk /\
  HasPrefix tk "PHRASE:" = true /\ TrimPrefix tk "PHRASE:" = s.
Proof.
  cbv zeta. rewrite phrase_tag.
  set (tk := String "P" (String "H" (String "R" (String "A" (String "S" (String "E" (String ":" s))))))).
  assert (Hu : ToUpper tk
               = String "P" (String "H" (String "R" (String "A" (String "S"
                   (String "E" (String ":" (ToUpper s)))))))) by reflexivity.
  assert (Hop : isOperator tk = false).
  { unfold isOperator. cbv zeta. rewrite Hu.
    rewrite !bool_decide_eq_false_2 by discriminate. reflexivity. }
  assert (Htag : HasPrefix tk "PHRASE:" = true) by reflexivity.
  split; [repeat split; (discriminate || exact Hop)|].
  split; [repeat split; discriminate|].
  split; [|split; [exact Htag | reflexivity]].
  unfold normalizeTok. rewrite Hu.
  rewrite !bool_decide_eq_false_2 by discriminate. reflexivity.
Qed.

Lemma lexQuery_quoted s :
  s <> "" -> quoteByte ∉ list_ascii_of_string s ->
  TrimSpace (quoted s) = quoted s /\ lexQuery (quoted s) = ["PHRASE:" +:+ runes s].
Proof.
  intros Hne Hq. pose proof (runes_nonempty s Hne) as Hne'. split.
  - unfold TrimSpace, quoted.
    change (trimLeft (String quoteByte (s +:+ String quoteByte "")))
      with (String quoteByte (s +:+ String quoteByte "")).
    change (String quoteByte (s +:+ String quoteByte ""))
      with (String quoteByte s +:+ String quoteByte "").
    apply trimRight_keep; [reflexivity | discriminate].
  - unfold lexQuery, quoted. rewrite lexRun_cons.
    change (lexStep lexInit quoteByte) with (mkLex [] "" true).
    rewrite lexRun_app, (lexRun_inQuote s [] "" Hq).
    change ("" +:+ runes s) with (runes s).
    rewrite lexRun_cons. unfold lexStep.
    destruct (decide (quoteByte = quoteByte)); [|contradiction].
    destruct (decide (runes s = "")); [contradiction | reflexivity].
Qed.

(** X18. A quoted text is one operand: for a non-empty text without a
    quote, whatever its case, spaces, parentheses or operator names, the
    query made of the text between two quotes compiles to a single token
    tagged "PHRASE:".  The token holds the text byte by byte re-encoded
    by [string(c)]; for ASCII text that is the text itself, and the token
    evaluates to the set the phrase matcher returns for the tokens of the
    text. *)
Theorem quoted_phrase_is_one_operand (s : string) (idx : Index) :
  s <> "" ->
  quoteByte ∉ list_ascii_of_string s ->
  QueryToRPN (quoted s) = ["PHRASE:" +:+ runes s] /\
  (isASCII s ->
   QueryToRPN (quoted s) = ["PHRASE:" +:+ s] /\
   returns (EvaluateRPN (QueryToRPN (quoted s))) idx (phraseDocs idx (Tokenize s))).
Proof.
  intros Hne Hq. destruct (lexQuery_quoted s Hne Hq) as [Htrim Hlex].
  assert (Hgen : QueryToRPN (quoted s) = ["PHRASE:" +:+ runes s]).
  { destruct (phrase_token_facts (runes s)) as (Hyard & _ & Hnorm & _).
    unfold QueryToRPN. rewrite Htrim, Hlex.
    destruct (decide (quoted s = "")) as [E|_]; [discriminate E|].
    cbn [map]. rewrite Hnorm. unfold shuntingYard. cbn [fold_left].
    rewrite (yardStep_operand _ _ _ Hyard). reflexivity. }
  split; [exact Hgen|]. intros Hascii.
  destruct (phrase_token_facts s) as (_ & Heval & _ & Htag & Htrimp).
  assert (Hrpn : QueryToRPN (quoted s) = ["PHRASE:" +:+ s]).
  { rewrite Hgen, (runes_ascii s Hascii). reflexivity. }
  split; [exact Hrpn|]. rewrite Hrpn.
  unfold EvaluateRPN. eapply returns_bind; [apply returns_gets|].
  eapply (returns_bind _ _ idx [phraseDocs idx (Tokenize s)]); [|reflexivity].
  unfold returns. rewrite (forRange_cons _ _ _ _ _ _ (evalStep_operand _ [] _ idx Heval)).
  unfold operandDocs. rewrite Htag, Htrimp. reflexivity.
Qed.

Lemma quoted_phrase_is_one_operand_witness :
  QueryToRPN (quoted "Small (cat) AND dog") = ["PHRASE:" +:+ "Small (cat) AND dog"] /\
  returns (EvaluateRPN (QueryToRPN (quoted "Small (cat) AND dog"))) (buildIndex sampleDocs)
          (phraseDocs (buildIndex sampleDocs) (Tokenize "Small (cat) AND dog")).
Proof.
  apply (quoted_phrase_is_one_operand "Small (cat) AND dog" (buildIndex sampleDocs)).
  - discriminate.
  - apply (bool_decide_unpack _). vm_compute. exact I.
  - apply (bool_decide_unpack _). vm_compute. exact I.
Defined.

(** A quoted Latin-1 byte pair: each byte comes out as two. *)
Example quoted_bytes_reencoded :
  QueryToRPN (quoted (String (ascii_of_N 195) (String (ascii_of_N 169) "")))
  = ["PHRASE:" +:+ String (ascii_of_N 195) (String (ascii_of_N 131)
                     (String (ascii_of_N 194) (String (ascii_of_N 169) "")))].
Proof. vm_compute. reflexivity. Qed.

(** ** Boolean search, end to end *)

Lemma plainWord_facts t :
  plainWord t ->
  yardOperand t /\ evalOperand t /\ simpleTok t /\ normalizeTok t = t /\
  HasPrefix t "PHRASE:" = false.
Proof.
  intros Hw. pose proof Hw as (Hne & Hplain & Hstop & Hop).
  destruct (plain_not_tagged t Hplain) as (Htag & Hl & Hr & H1 & H2 & H3).
  split; [repeat split; assumption|]. split; [repeat split; assumption|].
  split; [|split; [apply plain_normalizeTok; exact Hw | exact Htag]].
  right. right. split; [exact Hne|].
  eapply Forall_impl; [exact Hplain|]. intros c Hc.
  destruct (plainByte_facts c Hc) as (_ & Hsp & _ & _ & Hq & _ & Hlp & Hrp & _).
  pose proof (plainByte_ascii c Hc) as Ha.
  repeat split; assumption.
Qed.

Lemma stableTok_operator u : u = "AND" \/ u = "OR" \/ u = "NOT" -> stableTok u.
Proof.
  intros [->|[->| ->]]; (split; [|reflexivity]); right; right;
    (split; [discriminate|]);
    repeat (apply Forall_cons; split); try apply Forall_nil_2;
    repeat split; discriminate.
Qed.

Lemma stableTok_plain t : plainWord t -> stableTok t.
Proof. intros H. destruct (plainWord_facts t H) as (_ & _ & ? & ? & _). split; assumption. Qed.

Lemma stable_lit l : plainWord (snd l) -> Forall stableTok (litTokens l) /\ litTokens l <> [].
Proof.
  intros H. destruct l as [[|] t]; unfold litTokens; cbn [fst snd] in *.
  - split; [|discriminate]. repeat (apply Forall_cons; split); try apply Forall_nil_2.
    + apply stableTok_operator. auto.
    + apply stableTok_plain. exact H.
  - split; [|discriminate]. repeat (apply Forall_cons; split); try apply Forall_nil_2.
    apply stableTok_plain. exact H.
Qed.

Lemma stable_conj c :
  Forall plainWord (operands (conjQuery c)) ->
  Forall stableTok (conjTokens c) /\ conjTokens c <> [].
Proof.
  rewrite operands_conj. destruct c as [l ls]. cbn [fst snd map]. intros H.
  apply Forall_cons in H as [Hl Hls]. unfold conjTokens. cbn [fst snd].
  destruct (stable_lit l Hl) as [H1 H2]. split.
  - apply Forall_app. split; [exact H1|].
    induction ls as [|l' ls IH]; [constructor|].
    cbn [map] in Hls. apply Forall_cons in Hls as [Hl' Hls]. cbn [flat_map].
    constructor; [apply stableTok_operator; auto|].
    apply Forall_app. split; [apply (stable_lit l' Hl') | apply IH; exact Hls].
  - destruct (litTokens l); [contradiction | discriminate].
Qed.

Lemma stable_disj d :
  Forall plainWord (operands (disjQuery d)) ->
  Forall stableTok (disjTokens d) /\ disjTokens d <> [].
Proof.
  rewrite operands_disj. destruct d as [c cs]. cbn [fst snd flat_map]. intros H.
  apply Forall_app in H as [Hc Hcs]. unfold disjTokens. cbn [fst snd].
  destruct (stable_conj c Hc) as [H1 H2]. split.
  - apply Forall_app. split; [exact H1|].
    induction cs as [|c' cs IH]; [constructor|].
    cbn [flat_map] in Hcs. apply Forall_app in Hcs as [Hc' Hcs]. cbn [flat_map].
    constructor; [apply stableTok_operator; auto|].
    apply Forall_app. split; [apply (stable_conj c' Hc') | apply IH; exact Hcs].
  - destruct (conjTokens c); [contradiction | discriminate].
Qed.

Lemma map_stable ts : Forall stableTok ts -> map normalizeTok ts = ts.
Proof.
  induction ts as [|t ts IH]; intros H; [reflexivity|].
  apply Forall_cons in H as [[_ Ht] H]. cbn [map]. rewrite Ht, (IH H). reflexivity.
Qed.

Lemma QueryToRPN_flat d :
  Forall plainWord (operands (disjQuery d)) ->
  QueryToRPN (Join (disjTokens d) " ") = toRPN (disjQuery d).
Proof.
  intros Hw. destruct (stable_disj d Hw) as [Hst Hne].
  assert (Hsimple : Forall simpleTok (disjTokens d))
    by (eapply Forall_impl; [exact Hst|]; intros t [H _]; exact H).
  destruct (TrimSpace_Join _ Hsimple Hne) as [Htrim Hn].
  unfold QueryToRPN. rewrite Htrim.
  destruct (decide (Join (disjTokens d) " " = "")); [contradiction|].
  assert (Hlex : lexQuery (Join (disjTokens d) " ") = disjTokens d)
    by (apply (lex_Join _ Hsimple Hne [])).
  rewrite Hlex.
  rewrite (map_stable _ Hst). apply shuntingYard_flat.
  eapply Forall_impl; [exact Hw|]. intros t Ht. apply (plainWord_facts t Ht).
Qed.

Lemma denote_conj idx c x :
  x ∈ denote idx (conjQuery c) <->
  forall l, l ∈ fst c :: snd c -> x ∈ denote idx (litQuery l).
Proof.
  destruct c as [l ls]. unfold conjQuery. cbn [fst snd].
  assert (H : forall q, x ∈ denote idx (fold_left (fun q l => QAnd q (litQuery l)) ls q) <->
                        x ∈ denote idx q /\ forall l', l' ∈ ls -> x ∈ denote idx (litQuery l')).
  { induction ls as [|l' ls IH]; intros q; cbn [fold_left].
    - split; [intros H; split; [exact H | intros ? H'; inversion H'] | tauto].
    - rewrite IH. cbn [denote]. rewrite elem_of_intersection. split.
      + intros [[H1 H2] H3]. split; [exact H1|].
        intros l0 Hl0. apply elem_of_cons in Hl0 as [->|Hl0]; auto.
      + intros [H1 H2]. split; [split; [exact H1 | apply H2; left]|].
        intros l0 Hl0. apply H2. right. exact Hl0. }
  rewrite H. split.
  - intros [H1 H2] l0 Hl0. apply elem_of_cons in Hl0 as [->|Hl0]; auto.
  - intros Hall. split; [apply Hall; left | intros l0 Hl0; apply Hall; right; exact Hl0].
Qed.

Lemma denote_disj idx d x :
  x ∈ denote idx (disjQuery d) <->
  exists c, c ∈ fst d :: snd d /\ x ∈ denote idx (conjQuery c).
Proof.
  destruct d as [c cs]. unfold disjQuery. cbn [fst snd].
  assert (H : forall q, x ∈ denote idx (fold_left (fun q c => QOr q (conjQuery c)) cs q) <->
                        x ∈ denote idx q \/ exists c', c' ∈ cs /\ x ∈ denote idx (conjQuery c')).
  { induction cs as [|c' cs IH]; intros q; cbn [fold_left].
    - split; [auto | intros [H|(c0 & H & _)]; [exact H | inversion H]].
    - rewrite IH. cbn [denote]. rewrite elem_of_union. split.
      + intros [[H|H]|(c0 & H1 & H2)]; [auto | right; exists c'; split; [left | exact H]|].
        right. exists c0. split; [right; exact H1 | exact H2].
      + intros [H|(c0 & H1 & H2)]; [auto|].
        apply elem_of_cons in H1 as [->|H1]; [auto | right; eauto]. }
  rewrite H. split.
  - intros [H1|(c0 & H1 & H2)]; [exists c; split; [left | exact H1]|].
    exists c0. split; [right; exact H1 | exact H2].
  - intros (c0 & H1 & H2). apply elem_of_cons in H1 as [->|H1]; [auto | right; eauto].
Qed.

Lemma NoDup_ID_inj docs d1 d2 :
  NoDup (map ID docs) -> d1 ∈ docs -> d2 ∈ docs -> ID d1 = ID d2 -> d1 = d2.
Proof.
  induction docs as [|x docs IH]; intros Hnd H1 H2 E; [inversion H1|].
  simpl in Hnd. apply NoDup_cons in Hnd as [Hx Hnd].
  apply elem_of_cons in H1 as [->|H1]; apply elem_of_cons in H2 as [->|H2].
  - reflexivity.
  - exfalso. apply Hx. rewrite E. apply list_elem_of_fmap. eauto.
  - exfalso. apply Hx. rewrite <- E. apply list_elem_of_fmap. eauto.
  - apply IH; assumption.
Qed.

Lemma denote_lit docs dd l :
  NoDup (map ID docs) -> dd ∈ docs -> plainWord (snd l) ->
  ID dd ∈ denote (buildIndex docs) (litQuery l) <-> litHolds (docTokens dd) l.
Proof.
  intros Hnd Hdd Hw. destruct (plainWord_facts _ Hw) as (_ & _ & _ & _ & Htag).
  assert (Hterm : ID dd ∈ termDocs (buildIndex docs) (snd l) <-> snd l ∈ docTokens dd).
  { rewrite termDocs_buildIndex. split.
    - intros (d' & Hd' & E & Ht). rewrite <- (NoDup_ID_inj docs d' dd Hnd Hd' Hdd E). exact Ht.
    - intros Ht. eauto. }
  assert (Hin : ID dd ∈ dom (Docs (buildIndex docs))).
  { unfold buildIndex. rewrite indexAll_Docs. apply elem_of_union. right.
    apply elem_of_list_to_set, list_elem_of_fmap. eauto. }
  destruct l as [[|] t]; unfold litQuery, litHolds; cbn [fst snd denote] in *;
    unfold operandDocs; rewrite Htag.
  - rewrite elem_of_difference, Hterm. tauto.
  - exact Hterm.
Qed.

(** X19. Boolean search, from the query string to the documents.  For a
    query written without parentheses as conjunctions joined by OR, of
    plain words each possibly under one NOT, over documents with distinct
    identifiers: the query compiles to the postfix form of its tree, the
    evaluation returns, and a document is in the result exactly when, for
    one of the conjunctions, each of its words occurs in the document's
    token stream, or does not occur when the word is under NOT. *)
Theorem boolean_search_semantics
    (docs : list Document) (dd : Document)
    (d : ((bool * string) * list (bool * string))
         * list ((bool * string) * list (bool * string))) :
  Forall plainWord (operands (disjQuery d)) ->
  NoDup (map ID docs) ->
  dd ∈ docs ->
  QueryToRPN (Join (disjTokens d) " ") = toRPN (disjQuery d) /\
  exists s,
    returns (EvaluateRPN (QueryToRPN (Join (disjTokens d) " "))) (buildIndex docs) s /\
    (ID dd ∈ s <->
     exists c, c ∈ fst d :: snd d /\
       forall l, l ∈ fst c :: snd c -> litHolds (docTokens dd) l).
Proof.
  intros Hw Hnd Hdd. pose proof (QueryToRPN_flat d Hw) as Hrpn.
  split; [exact Hrpn|]. exists (denote (buildIndex docs) (disjQuery d)). split.
  - rewrite Hrpn. apply EvaluateRPN_toRPN.
    eapply Forall_impl; [exact Hw|]. intros t Ht. apply (plainWord_facts t Ht).
  - rewrite denote_disj. rewrite operands_disj in Hw.
    assert (Hconj : forall c, c ∈ fst d :: snd d ->
               (ID dd ∈ denote (buildIndex docs) (conjQuery c) <->
                forall l, l ∈ fst c :: snd c -> litHolds (docTokens dd) l)).
    { intros c Hc. rewrite denote_conj.
      assert (Hcw : Forall plainWord (map snd (fst c :: snd c))).
      { rewrite <- operands_conj. rewrite Forall_flat_map, Forall_forall in Hw. auto. }
      rewrite Forall_forall in Hcw.
      split; intros H l Hl.
      - apply (denote_lit docs dd l Hnd Hdd); [|auto].
        apply Hcw. apply list_elem_of_fmap. eauto.
      - apply (denote_lit docs dd l Hnd Hdd); [|auto].
        apply Hcw. apply list_elem_of_fmap. eauto. }
    split; intros (c & Hc & H); exists c; (split; [exact Hc|]); apply (Hconj c Hc); exact H.
Qed.

Lemma boolean_search_semantics_witness :
  QueryToRPN "cats AND NOT small OR loyal" = ["cats"; "small"; "NOT"; "AND"; "loyal"; "OR"] /\
  exists s,
    returns (EvaluateRPN (QueryToRPN "cats AND NOT small OR loyal")) (buildIndex sampleDocs) s /\
    (1%Z ∈ s <->
     exists c, c ∈ [((false, "cats"), [(true, "small")]); ((false, "loyal"), [])] /\
       forall l, l ∈ fst c :: snd c
                 -> litHolds (docTokens (mkDocument 1 "" "" "cats are independent pets")) l).
Proof.
  apply (boolean_search_semantics sampleDocs
           (mkDocument 1 "" "" "cats are independent pets")
           (((false, "cats"), [(true, "small")]), [((false, "loyal"), [])])).
  - repeat (apply Forall_cons; split); try apply Forall_nil_2;
      (split; [discriminate|]; split; [repeat constructor|];
       split; [apply (bool_decide_unpack _); vm_compute; exact I | reflexivity]).
  - apply (bool_decide_unpack _). vm_compute. exact I.
  - left.
Defined.

(** ** Search *)

Lemma scoreStep_returns doc score t idx :
  exists score', returns (scoreStep doc score t) idx score' /\ (score <= score')%R.
Proof.
  destruct (HasPrefix t "PHRASE:") eqn:Htag.
  - exists (score + 2)%R. split; [|lra]. unfold scoreStep. rewrite Htag. reflexivity.
  - eexists. split; [apply scoreStep_literal; exact Htag|].
    destruct (Terms idx !! t) as [posting|]; [|lra].
    destruct (bool_decide (size posting = 0) || bool_decide (tokCount idx doc = 0)); [lra|].
    pose proof (contribution_nonneg (length (positions idx t doc)) (tokCount idx doc)
                  (N idx) (size posting)). lra.
Qed.

Lemma scoreDoc_returns doc matched idx :
  exists score, returns (scoreDoc doc matched) idx score /\ (0 <= score)%R.
Proof.
  unfold scoreDoc.
  assert (H : forall s0, exists s,
             returns (forRange (scoreStep doc) s0 matched) idx s /\ (s0 <= s)%R).
  { induction matched as [|t matched IH]; intros s0.
    - exists s0. split; [reflexivity | lra].
    - destruct (scoreStep_returns doc s0 t idx) as (s1 & H1 & Hle).
      destruct (IH s1) as (s2 & H2 & Hle2).
      exists s2. split; [|lra].
      unfold returns. rewrite (forRange_cons _ _ _ _ _ _ H1). exact H2. }
  apply H.
Qed.

Lemma searchBody_cases rpn results doc idx :
  searchBody rpn results doc idx = (Panic, idx) \/
  exists score matched,
    returns (searchBody rpn results doc) idx (results ++ [mkSearchResult doc score matched]) /\
    (0 <= score)%R /\
    returns (matchedTermsInDoc doc rpn) idx matched.
Proof.
  unfold searchBody.
  pose proof (frame_matchedTermsInDoc doc rpn idx) as Hf.
  destruct (matchedTermsInDoc doc rpn idx) as [[matched|] idx'] eqn:E; simpl in Hf; subst idx'.
  - right. destruct (scoreDoc_returns doc matched idx) as (score & Hs & Hpos).
    exists score, matched. split; [|split; [exact Hpos | exact E]].
    eapply returns_bind; [exact E|]. eapply returns_bind; [exact Hs | reflexivity].
  - left. unfold mbind, IndexM_bind. rewrite E. reflexivity.
Qed.

Lemma searchLoop_done rpn idx l :
  forall acc rs,
    fst (forRange (searchBody rpn) acc l idx) = Done rs ->
    map DocID rs = map DocID acc ++ l /\
    (Forall (fun r => (0 <= Score r)%R) acc -> Forall (fun r => (0 <= Score r)%R) rs).
Proof.
  induction l as [|doc l IH]; intros acc rs H.
  - simpl in H. inversion H; subst. rewrite app_nil_r. auto.
  - destruct (searchBody_cases rpn acc doc idx) as [Hp|(score & matched & Hb & Hpos & _)].
    + simpl in H. unfold mbind, IndexM_bind in H. rewrite Hp in H. discriminate H.
    + rewrite (forRange_cons _ _ _ _ _ _ Hb) in H.
      destruct (IH _ _ H) as [Hids Hnn]. split.
      * rewrite Hids, map_app, <- app_assoc. reflexivity.
      * intros Hacc. apply Hnn. apply Forall_app. split; [exact Hacc|].
        constructor; [exact Hpos | constructor].
Qed.

Lemma Search_unfold query idx resSet :
  String.length query <> 0 ->
  returns (EvaluateRPN (QueryToRPN query)) idx resSet ->
  Search query idx
  = (results ← forRange (searchBody (QueryToRPN query)) [] (elements resSet);
     mret (sortByScore results)) idx.
Proof.
  intros Hne Hres. unfold Search.
  destruct (decide (String.length query = 0)); [contradiction|].
  exact (run_bind (EvaluateRPN (QueryToRPN query))
           (fun resSet => results ← forRange (searchBody (QueryToRPN query)) []
                                             (elements resSet);
                          mret (sortByScore results))
           idx resSet Hres).
Qed.

(** X20. What a returning [Search] returns: one result for each document
    of the set computed by [EvaluateRPN] and no other, each document once;
    the list is in descending order of score and no score is negative. *)
Theorem Search_results_sound (idx : Index) (query : string) (rs : list SearchResult) :
  fst (Search query idx) = Done rs ->
  exists resSet,
    returns (EvaluateRPN (QueryToRPN query)) idx resSet /\
    (forall d, d ∈ map DocID rs <-> d ∈ resSet) /\
    NoDup (map DocID rs) /\
    StronglySorted (fun a b => (Score b <= Score a)%R) rs /\
    Forall (fun r => (0 <= Score r)%R) rs.
Proof.
  intros Hdone. destruct (EvaluateRPN_returns (QueryToRPN query) idx) as [resSet Hres].
  exists resSet. split; [exact Hres|].
  destruct (decide (String.length query = 0)) as [E|Hne].
  { unfold Search in Hdone. destruct (decide (String.length query = 0)); [|contradiction].
    simpl in Hdone. inversion Hdone; subst rs.
    apply length_zero_empty in E. subst query.
    assert (resSet = ∅) by (apply (returns_inj _ _ _ _ Hres); reflexivity). subst resSet.
    repeat split; try constructor.
    - intros H. inversion H.
    - intros H. inversion H. }
  rewrite (Search_unfold query idx resSet Hne Hres) in Hdone.
  unfold mbind, IndexM_bind in Hdone.
  destruct (forRange (searchBody (QueryToRPN query)) [] (elements resSet) idx)
    as [[results|] idx'] eqn:Eloop; [|discriminate Hdone].
  simpl in Hdone. inversion Hdone; subst rs. clear Hdone.
  destruct (searchLoop_done (QueryToRPN query) idx (elements resSet) [] results) as [Hids Hnn].
  { rewrite Eloop. reflexivity. }
  simpl in Hids.
  assert (Hperm : sortByScore results ≡ₚ results) by apply merge_sort_Permutation.
  split; [|split; [|split]].
  - intros d. rewrite Hperm, Hids. apply elem_of_elements.
  - rewrite Hperm, Hids. apply NoDup_elements.
  - apply StronglySorted_merge_sort; apply _.
  - rewrite Hperm. apply Hnn. constructor.
Qed.

Lemma Search_results_sound_witness :
  exists resSet,
    returns (EvaluateRPN (QueryToRPN "cats")) (buildIndex [onceDoc]) resSet /\
    (forall d, d ∈ map DocID (sortByScore
                 [mkSearchResult 1 (0 + INR 1 / INR 3 * ln (1 + INR 1 / INR 1)) ["cats"]])
               <-> d ∈ resSet) /\
    NoDup (map DocID (sortByScore
                 [mkSearchResult 1 (0 + INR 1 / INR 3 * ln (1 + INR 1 / INR 1)) ["cats"]])) /\
    StronglySorted (fun a b => (Score b <= Score a)%R)
      (sortByScore [mkSearchResult 1 (0 + INR 1 / INR 3 * ln (1 + INR 1 / INR 1)) ["cats"]]) /\
    Forall (fun r => (0 <= Score r)%R)
      (sortByScore [mkSearchResult 1 (0 + INR 1 / INR 3 * ln (1 + INR 1 / INR 1)) ["cats"]]).
Proof.
  apply (Search_results_sound (buildIndex [onceDoc]) "cats").
  vm_compute. reflexivity.
Defined.

(** *** Matched terms, and when [Search] panics *)

Lemma tagged_not_operator tok : HasPrefix tok "PHRASE:" = true -> isOperator tok = false.
Proof.
  intros H. rewrite <- (HasPrefix_TrimPrefix tok "PHRASE:" H).
  apply (phrase_token_facts (TrimPrefix tok "PHRASE:")).
Qed.

Lemma positions_test idx tok doc :
  match Terms idx !! tok with
  | Some posting => (0 <? length (default [] (posting !! doc)))%nat
  | None => false
  end = true <-> positions idx tok doc <> [].
Proof.
  unfold positions. destruct (Terms idx !! tok) as [posting|]; simpl.
  - destruct (default [] (posting !! doc)); simpl.
    + split; [discriminate | intros H; contradiction].
    + split; [intros _; discriminate | reflexivity].
  - rewrite lookup_empty. simpl. split; [discriminate | intros H; contradiction].
Qed.

Lemma matchedStep_panics doc set tok idx :
  emptyPhrase tok -> matchedStep doc set tok idx = (Panic, idx).
Proof.
  intros [Htag Hemp]. unfold matchedStep.
  rewrite (tagged_not_operator tok Htag), Htag, Hemp. reflexivity.
Qed.

Lemma matchedStep_returns doc set tok idx :
  ~ emptyPhrase tok ->
  exists set',
    returns (matchedStep doc set tok) idx set' /\
    forall x, x ∈ set' <-> x ∈ set \/ recordsMatch idx doc tok x.
Proof.
  intros Hok. unfold matchedStep, recordsMatch.
  destruct (isOperator tok) eqn:Hop.
  { exists set. split; [reflexivity|]. intros x. split; [auto|].
    intros [H|[H _]]; [exact H | discriminate]. }
  destruct (HasPrefix tok "PHRASE:") eqn:Htag.
  - set (phrase := TrimPrefix tok "PHRASE:").
    destruct (Tokenize phrase) as [|t rest] eqn:Etok.
    { exfalso. apply Hok. split; [exact Htag | exact Etok]. }
    exists (if phraseAt idx doc t rest then {[phrase]} ∪ set else set). split.
    + eapply returns_bind; [apply checkPhraseInDoc_returns | reflexivity].
    + intros x.
      assert (Hph : doc ∈ phraseDocs idx (Tokenize phrase) <-> phraseAt idx doc t rest = true).
      { rewrite (proj2 (phraseDocs_returns idx (Tokenize phrase)) doc), Etok. reflexivity. }
      destruct (phraseAt idx doc t rest) eqn:E.
      * rewrite elem_of_union, elem_of_singleton. split.
        -- intros [->|H]; [|auto]. right. split; [reflexivity|]. right.
           split; [reflexivity|]. split; [reflexivity|]. apply Hph. reflexivity.
        -- intros [H|[_ [[H _]|[_ [-> _]]]]]; [auto | discriminate | auto].
      * split; [auto|].
        intros [H|[_ [[H _]|[_ [-> H]]]]]; [auto | discriminate|].
        apply Hph in H. discriminate.
  - pose proof (positions_test idx tok doc) as Htest.
    exists (if match Terms idx !! tok with
               | Some posting => (0 <? length (default [] (posting !! doc)))%nat
               | None => false
               end then {[tok]} ∪ set else set).
    split.
    + eapply returns_bind; [apply returns_gets|].
      destruct (Terms idx !! tok) as [posting|]; [|reflexivity].
      destruct (0 <? length (default [] (posting !! doc)))%nat; reflexivity.
    + intros x.
      destruct (match Terms idx !! tok with
                | Some posting => (0 <? length (default [] (posting !! doc)))%nat
                | None => false
                end).
      * rewrite elem_of_union, elem_of_singleton. split.
        -- intros [->|H]; [|auto]. right. split; [reflexivity|]. left.
           split; [reflexivity|]. split; [reflexivity|]. apply Htest. reflexivity.
        -- intros [H|[_ [[_ [-> _]]|[H _]]]]; [auto | auto | discriminate].
      * split; [auto|].
        intros [H|[_ [[_ [_ H]]|[H _]]]]; [auto | | discriminate].
        apply Htest in H. discriminate.
Qed.

Lemma matchedLoop_returns doc idx rpn :
  Forall (fun tok => ~ emptyPhrase tok) rpn ->
  forall set,
  exists set',
    returns (forRange (matchedStep doc) set rpn) idx set' /\
    forall x, x ∈ set' <-> x ∈ set \/ exists tok, tok ∈ rpn /\ recordsMatch idx doc tok x.
Proof.
  induction rpn as [|tok rpn IH]; intros Hok set.
  - exists set. split; [reflexivity|]. intros x. split; [auto|].
    intros [H|(tok & H & _)]; [exact H | inversion H].
  - apply Forall_cons in Hok as [Htok Hok].
    destruct (matchedStep_returns doc set tok idx Htok) as (set1 & H1 & Hs1).
    destruct (IH Hok set1) as (set2 & H2 & Hs2).
    exists set2. split.
    + unfold returns. rewrite (forRange_cons _ _ _ _ _ _ H1). exact H2.
    + intros x. rewrite Hs2, Hs1. split.
      * intros [[H|H]|(t & Ht & H)]; [auto | right; exists tok; split; [left | exact H]|].
        right. exists t. split; [right; exact Ht | exact H].
      * intros [H|(t & Ht & H)]; [auto|].
        apply elem_of_cons in Ht as [->|Ht]; [auto | right; eauto].
Qed.

Lemma matchedTerms_returns doc idx rpn :
  Forall (fun tok => ~ emptyPhrase tok) rpn ->
  exists matched,
    returns (matchedTermsInDoc doc rpn) idx matched /\
    NoDup matched /\
    forall x, x ∈ matched <-> exists tok, tok ∈ rpn /\ recordsMatch idx doc tok x.
Proof.
  intros Hok. destruct (matchedLoop_returns doc idx rpn Hok ∅) as (set & Hrun & Hset).
  exists (elements set). split; [|split].
  - unfold matchedTermsInDoc. eapply returns_bind; [exact Hrun | reflexivity].
  - apply NoDup_elements.
  - intros x. rewrite elem_of_elements, Hset, elem_of_empty. tauto.
Qed.

(** X21. The matched terms of a result document, for a query in which no
    phrase is empty of tokens: each recorded string once, and a string is
    recorded exactly when it is a literal operand of the query with a
    position in the document, or the untagged text of a phrase operand
    that matches in the document.  Operators play no part, so an operand
    under NOT is recorded as well. *)
Theorem matchedTermsInDoc_records (idx : Index) (doc : Z) (rpn : list string) :
  Forall (fun tok => ~ emptyPhrase tok) rpn ->
  exists matched,
    returns (matchedTermsInDoc doc rpn) idx matched /\
    NoDup matched /\
    forall x, x ∈ matched <-> exists tok, tok ∈ rpn /\ recordsMatch idx doc tok x.
Proof. apply matchedTerms_returns. Qed.

Lemma matchedTermsInDoc_records_witness :
  exists matched,
    returns (matchedTermsInDoc 1 ["pets"; "cats"; "NOT"; "AND"]) (buildIndex sampleDocs) matched /\
    NoDup matched /\
    forall x, x ∈ matched <->
      exists tok, tok ∈ ["pets"; "cats"; "NOT"; "AND"] /\
                  recordsMatch (buildIndex sampleDocs) 1 tok x.
Proof.
  apply (matchedTermsInDoc_records (buildIndex sampleDocs) 1 ["pets"; "cats"; "NOT"; "AND"]).
  repeat (apply Forall_cons; split); try apply Forall_nil_2; intros [H _]; discriminate H.
Defined.

Lemma frame_matchedStep doc set tok : frame (matchedStep doc set tok).
Proof.
  unfold matchedStep.
  destruct (isOperator tok); [apply frame_ret|].
  destruct (HasPrefix tok "PHRASE:").
  - apply frame_bind; [apply frame_checkPhraseInDoc | intros; apply frame_ret].
  - apply frame_bind; [apply frame_gets|].
    intros [posting|]; [|apply frame_ret].
    destruct (0 <? length (default [] (posting !! doc)))%nat; apply frame_ret.
Qed.

Lemma matchedLoop_panics doc idx rpn :
  Exists emptyPhrase rpn ->
  forall set, forRange (matchedStep doc) set rpn idx = (Panic, idx).
Proof.
  induction rpn as [|tok rpn IH]; intros Hbad set; [inversion Hbad|].
  simpl. unfold mbind, IndexM_bind.
  pose proof (frame_matchedStep doc set tok idx) as Hf.
  destruct (matchedStep doc set tok idx) as [[set1|] idx'] eqn:E; simpl in Hf; subst idx';
    [|reflexivity].
  apply IH. apply Exists_cons in Hbad as [Hbad|Hbad]; [|exact Hbad].
  rewrite (matchedStep_panics doc set tok idx Hbad) in E. discriminate E.
Qed.

Lemma searchLoop_returns rpn idx l :
  Forall (fun tok => ~ emptyPhrase tok) rpn ->
  forall acc, exists rs, returns (forRange (searchBody rpn) acc l) idx rs.
Proof.
  intros Hok. apply returns_forRange. intros acc doc.
  destruct (matchedTerms_returns doc idx rpn Hok) as (matched & Hm & _).
  destruct (scoreDoc_returns doc matched idx) as (score & Hs & _).
  eexists. unfold searchBody.
  eapply returns_bind; [exact Hm|]. eapply returns_bind; [exact Hs | reflexivity].
Qed.

(** X22. When [Search] panics: exactly when the compiled query holds a
    phrase operand whose text has no token (stopwords or separators only)
    and the set computed by [EvaluateRPN] is not empty.  In every other
    case [Search] returns. *)
Theorem Search_panics_iff (idx : Index) (query : string) :
  fst (Search query idx) = Panic <->
  Exists emptyPhrase (QueryToRPN query) /\
  exists resSet,
    returns (EvaluateRPN (QueryToRPN query)) idx resSet /\ resSet <> ∅.
Proof.
  destruct (EvaluateRPN_returns (QueryToRPN query) idx) as [resSet Hres].
  destruct (decide (String.length query = 0)) as [E|Hne].
  { apply length_zero_empty in E. subst query. split; [discriminate|].
    intros [Hbad _]. inversion Hbad. }
  rewrite (Search_unfold query idx resSet Hne Hres).
  split.
  - intros Hp. destruct (decide (Exists emptyPhrase (QueryToRPN query))) as [Hbad|Hok].
    + split; [exact Hbad|]. exists resSet. split; [exact Hres|]. intros ->.
      unfold mbind, IndexM_bind in Hp. rewrite elements_empty in Hp. discriminate Hp.
    + exfalso. apply not_Exists_Forall in Hok; [|intros tok; apply _].
      destruct (searchLoop_returns _ idx (elements resSet) Hok []) as [rs Hrs].
      unfold mbind, IndexM_bind in Hp. rewrite Hrs in Hp. discriminate Hp.
  - intros (Hbad & resSet' & Hres' & Hnonempty).
    assert (resSet' = resSet) by (apply (returns_inj _ _ _ _ Hres' Hres)). subst resSet'.
    destruct (elements resSet) as [|doc l] eqn:El.
    { apply elements_empty_inv in El. apply leibniz_equiv in El. contradiction. }
    unfold mbind, IndexM_bind. simpl. unfold mbind, IndexM_bind, searchBody.
    unfold matchedTermsInDoc, mbind, IndexM_bind.
    rewrite (matchedLoop_panics doc idx _ Hbad ∅). reflexivity.
Qed.

(** X23. An empty query, and a query made only of the ASCII white-space
    bytes (tab, line feed, vertical tab, form feed, carriage return,
    space), compile to nothing and find nothing. *)
Theorem blank_query_finds_nothing (idx : Index) (query : string) :
  Forall (fun c => isSpace c = true) (list_ascii_of_string query) ->
  QueryToRPN query = [] /\ returns (Search query) idx [].
Proof.
  intros Hblank.
  assert (Htrim : TrimSpace query = "").
  { unfold TrimSpace.
    assert (E : trimLeft query = "").
    { induction query as [|c s IH]; [reflexivity|].
      simpl in Hblank. apply Forall_cons in Hblank as [Hc Hs].
      simpl. rewrite Hc. apply IH. exact Hs. }
    rewrite E. reflexivity. }
  assert (Hrpn : QueryToRPN query = []).
  { unfold QueryToRPN. rewrite Htrim. reflexivity. }
  split; [exact Hrpn|].
  destruct (decide (String.length query = 0)) as [E|Hne].
  - unfold Search. destruct (decide (String.length query = 0)); [reflexivity | contradiction].
  - unfold returns. rewrite (Search_unfold query idx ∅ Hne).
    + rewrite elements_empty. reflexivity.
    + rewrite Hrpn. reflexivity.
Qed.

Lemma blank_query_finds_nothing_witness :
  QueryToRPN (String (ascii_of_N 9) (String (ascii_of_N 13) "  ")) = [] /\
  returns (Search (String (ascii_of_N 9) (String (ascii_of_N 13) "  ")))
          (buildIndex sampleDocs) [].
Proof.
  apply (blank_query_finds_nothing (buildIndex sampleDocs)
           (String (ascii_of_N 9) (String (ascii_of_N 13) "  "))).
  repeat constructor.
Defined.

(** *** Ranking a single term *)

Lemma occurrencesFrom_length t tokens :
  forall pos, length (occurrencesFrom pos t tokens) = length (filter (fun w => w = t) tokens).
Proof.
  induction tokens as [|w rest IH]; intros pos; [reflexivity|].
  simpl. rewrite length_app, IH, filter_cons.
  destruct (decide (w = t)); reflexivity.
Qed.

Lemma NoDup_ID_filter (P : Document -> Prop) `{forall d, Decision (P d)} docs :
  NoDup (map ID docs) -> NoDup (map ID (filter P docs)).
Proof.
  induction docs as [|d docs IH]; intros Hnd; [constructor|].
  simpl in Hnd. apply NoDup_cons in Hnd as [Hd Hnd]. rewrite filter_cons.
  destruct (decide (P d)); [|auto].
  simpl. apply NoDup_cons. split; [|auto].
  intros Hin. apply Hd. apply list_elem_of_fmap in Hin as (d' & E & Hd').
  apply list_elem_of_filter in Hd' as [_ Hd']. apply list_elem_of_fmap. eauto.
Qed.

Lemma singleton_list (l : list string) t :
  NoDup l -> (forall x, x ∈ l <-> x = t) -> l = [t].
Proof.
  intros Hnd Hl. destruct l as [|a l].
  - exfalso. assert (H : t ∈ []) by (apply Hl; reflexivity). inversion H.
  - assert (a = t) by (apply Hl; left). subst a.
    destruct l as [|b l]; [reflexivity|].
    assert (b = t) by (apply Hl; right; left). subst b.
    apply NoDup_cons in Hnd as [Hn _]. exfalso. apply Hn. left.
Qed.

Lemma searchLoop_exact rpn idx (f : Z -> SearchResult) l :
  (forall doc, doc ∈ l ->
     forall acc, returns (searchBody rpn acc doc) idx (acc ++ [f doc])) ->
  forall acc, returns (forRange (searchBody rpn) acc l) idx (acc ++ map f l).
Proof.
  induction l as [|doc l IH]; intros Hbody acc.
  - simpl. rewrite app_nil_r. reflexivity.
  - unfold returns. rewrite (forRange_cons _ _ _ _ _ _ (Hbody doc (list_elem_of_here _ _) acc)).
    rewrite IH by (intros d Hd; apply Hbody; right; exact Hd).
    rewrite <- app_assoc. reflexivity.
Qed.

Section SingleTerm.
Variable docs : list Document.
Variable t : string.
Hypothesis Hnd : NoDup (map ID docs).
Hypothesis Hw : plainWord t.

Lemma single_rpn : QueryToRPN t = [t].
Proof.
  apply (QueryToRPN_flat (((false, t), []), [])).
  change (Forall plainWord [t]).
  apply Forall_cons. split; [exact Hw | apply Forall_nil_2].
Qed.

Lemma single_df :
  size (termDocs (buildIndex docs) t)
  = length (filter (fun d => t ∈ docTokens d) docs).
Proof.
  unfold buildIndex. rewrite indexAll_termDocs.
  replace (termDocs NewIndex t) with (∅ : gset Z) by reflexivity.
  rewrite (left_id_L ∅ (∪)), size_list_to_set, length_map; [reflexivity|].
  apply NoDup_ID_filter. exact Hnd.
Qed.

Lemma single_tables dd :
  dd ∈ docs ->
  tokCount (buildIndex docs) (ID dd) = length (docTokens dd) /\
  N (buildIndex docs) = length docs.
Proof.
  intros Hdd. destruct (indexAll_tables docs NewIndex) as (Hd & Hc & Hn).
  fold (buildIndex docs) in Hd, Hc, Hn. split.
  - apply list_elem_of_split in Hdd as (l1 & l2 & E).
    assert (Hafter : ID dd ∉ map ID l2).
    { rewrite E, map_app in Hnd. apply NoDup_app in Hnd as (_ & _ & Hnd2).
      simpl in Hnd2. apply NoDup_cons in Hnd2 as [H _]. exact H. }
    unfold tokCount. rewrite Hc.
    change (DocTokCounts NewIndex) with (∅ : gmap Z nat).
    rewrite (fold_insert_last (fun d => length (docTokens d)) docs ∅ l1 dd l2 E Hafter).
    reflexivity.
  - destruct docs as [|d0 docs0] eqn:Ed; [inversion Hdd|].
    rewrite Hn by discriminate. rewrite <- size_dom.
    rewrite <- Ed in *. unfold buildIndex. rewrite indexAll_Docs. simpl.
    rewrite dom_empty_L, (left_id_L ∅ (∪)), size_list_to_set by exact Hnd.
    apply length_map.
Qed.

Lemma single_body dd acc :
  dd ∈ docs -> t ∈ docTokens dd ->
  returns (searchBody [t] acc (ID dd)) (buildIndex docs)
          (acc ++ [mkSearchResult (ID dd) (tfidf docs dd t) [t]]).
Proof.
  intros Hdd Ht. set (idx := buildIndex docs).
  destruct (plainWord_facts t Hw) as (_ & _ & _ & _ & Htag).
  assert (Hpos : positions idx t (ID dd) = occurrencesFrom 0 t (docTokens dd)).
  { unfold idx. rewrite positions_buildIndex. apply recorded_unique; assumption. }
  assert (Hne : positions idx t (ID dd) <> []).
  { rewrite Hpos. apply occurrencesFrom_nonempty. exact Ht. }
  assert (Hmatched : returns (matchedTermsInDoc (ID dd) [t]) idx [t]).
  { destruct (matchedTerms_returns (ID dd) idx [t]) as (matched & Hm & Hnodup & Hspec).
    { constructor; [|constructor]. intros [H _]. congruence. }
    assert (E : matched = [t]); [|rewrite E in Hm; exact Hm].
    apply (singleton_list matched t Hnodup).
    intros x. rewrite Hspec. split.
    - intros (tok & Htok & _ & [(_ & -> & _)|(H & _)]).
      + apply list_elem_of_singleton in Htok. exact Htok.
      + apply list_elem_of_singleton in Htok. subst tok. congruence.
    - intros ->. exists t. split; [left|]. split; [apply Hw|]. left. auto. }
  assert (Hin : ID dd ∈ termDocs idx t).
  { apply termDocs_buildIndex. eauto. }
  destruct (single_tables dd Hdd) as [Hcount HN].
  pose proof single_df as Hdf.
  assert (Hscore : returns (scoreDoc (ID dd) [t]) idx (tfidf docs dd t)).
  { unfold scoreDoc, returns.
    rewrite (forRange_cons _ _ _ _ _ _ (scoreStep_literal (ID dd) 0 t idx Htag)).
    unfold termDocs in Hin, Hdf. fold idx in Hdf.
    destruct (Terms idx !! t) as [posting|] eqn:Eterm; simpl in Hin, Hdf;
      [|rewrite dom_empty_L in Hin; inversion Hin].
    assert (Hsize : size posting <> 0).
    { rewrite <- size_dom. intros E. apply size_empty_inv in E.
      apply leibniz_equiv in E. rewrite E in Hin. inversion Hin. }
    assert (Hcnt : tokCount idx (ID dd) <> 0).
    { fold idx in Hcount. rewrite Hcount. destruct (docTokens dd); [inversion Ht | discriminate]. }
    rewrite !bool_decide_eq_false_2 by assumption. cbn [orb forRange].
    fold idx in Hcount, HN. rewrite Hpos, Hcount, HN, occurrencesFrom_length.
    rewrite <- size_dom, Hdf. unfold tfidf. rewrite Rplus_0_l. reflexivity. }
  unfold searchBody.
  eapply returns_bind; [exact Hmatched|]. eapply returns_bind; [exact Hscore | reflexivity].
Qed.

Lemma single_search :
  exists rs,
    returns (Search t) (buildIndex docs) rs /\
    forall r, r ∈ rs <->
      exists dd, dd ∈ docs /\ t ∈ docTokens dd /\
                 r = mkSearchResult (ID dd) (tfidf docs dd t) [t].
Proof.
  set (idx := buildIndex docs).
  destruct (plainWord_facts t Hw) as (_ & Heval & _ & _ & Htag).
  assert (Hres : returns (EvaluateRPN (QueryToRPN t)) idx (termDocs idx t)).
  { rewrite single_rpn.
    pose proof (EvaluateRPN_toRPN idx (QOperand t)) as H. cbn [toRPN operands denote] in H.
    unfold operandDocs in H. rewrite Htag in H. apply H. repeat constructor; apply Heval. }
  assert (Hlen : String.length t <> 0).
  { intros E. apply length_zero_empty in E. exact (proj1 Hw E). }
  (* each document of the term, through the document it was built from *)
  assert (Hdoc : forall doc, doc ∈ termDocs idx t ->
             exists dd, dd ∈ docs /\ t ∈ docTokens dd /\ ID dd = doc).
  { intros doc Hd. apply termDocs_buildIndex in Hd as (dd & ? & ? & ?). eauto. }
  set (f := fun doc : Z =>
              match list_find (fun d => ID d = doc) docs with
              | Some (_, dd) => mkSearchResult doc (tfidf docs dd t) [t]
              | None => mkSearchResult doc 0 []
              end).
  assert (Hf : forall dd, dd ∈ docs ->
             f (ID dd) = mkSearchResult (ID dd) (tfidf docs dd t) [t]).
  { intros dd Hdd. unfold f.
    destruct (list_find (fun d => ID d = ID dd) docs) as [[i d']|] eqn:E.
    - apply list_find_Some in E as (Hi & Hid & _).
      rewrite (NoDup_ID_inj docs d' dd Hnd (list_elem_of_lookup_2 _ _ _ Hi) Hdd Hid).
      reflexivity.
    - apply list_find_None in E. rewrite Forall_forall in E.
      exfalso. apply (E dd Hdd). reflexivity. }
  exists (sortByScore (map f (elements (termDocs idx t)))). split.
  - unfold returns. rewrite (Search_unfold t idx _ Hlen Hres), single_rpn.
    assert (Hloop : returns (forRange (searchBody [t]) [] (elements (termDocs idx t))) idx
                            ([] ++ map f (elements (termDocs idx t)))).
    { apply searchLoop_exact. intros doc Hd acc.
      apply elem_of_elements, Hdoc in Hd as (dd & Hdd & Ht & <-).
      rewrite (Hf dd Hdd). apply single_body; assumption. }
    unfold mbind, IndexM_bind. rewrite Hloop. reflexivity.
  - intros r. unfold sortByScore. rewrite merge_sort_Permutation, list_elem_of_fmap.
    split.
    + intros (doc & -> & Hd). apply elem_of_elements, Hdoc in Hd as (dd & Hdd & Ht & <-).
      exists dd. rewrite (Hf dd Hdd). auto.
    + intros (dd & Hdd & Ht & ->). exists (ID dd). rewrite (Hf dd Hdd).
      split; [reflexivity|]. apply elem_of_elements, termDocs_buildIndex. eauto.
Qed.
End SingleTerm.

(** X24. Ranking a single term.  Over documents with distinct identifiers,
    the search for a plain word returns exactly one result for each
    document whose token stream contains the word, with the word as its
    only matched term and, as score, the word's share of the document's
    tokens times ln(1 + N/df), [N] the number of documents and [df] the
    number of those that contain the word. *)
Theorem Search_single_term_tfidf (docs : list Document) (t : string) :
  NoDup (map ID docs) ->
  plainWord t ->
  exists rs,
    returns (Search t) (buildIndex docs) rs /\
    forall r, r ∈ rs <->
      exists dd, dd ∈ docs /\ t ∈ docTokens dd /\
                 r = mkSearchResult (ID dd) (tfidf docs dd t) [t].
Proof. intros Hnd Hw. apply single_search; assumption. Qed.

Lemma Search_single_term_tfidf_witness :
  exists rs,
    returns (Search "cats") (buildIndex sampleDocs) rs /\
    forall r, r ∈ rs <->
      exists dd, dd ∈ sampleDocs /\ "cats" ∈ docTokens dd /\
                 r = mkSearchResult (ID dd) (tfidf sampleDocs dd "cats") ["cats"].
Proof.
  apply (Search_single_term_tfidf sampleDocs "cats").
  - apply (bool_decide_unpack _). vm_compute. exact I.
  - split; [discriminate|]. split; [repeat constructor|].
    split; [apply (bool_decide_unpack _); vm_compute; exact I | reflexivity].
Defined.

(** ** The snippet's match position *)

Lemma matchesAny_spec w terms : matchesAny w terms = true <-> termMatches terms w.
Proof.
  unfold termMatches. induction terms as [|t terms IH].
  - split; [discriminate | intros (t & H & _); inversion H].
  - change (matchesAny w (t :: terms))
      with (if HasPrefix t "PHRASE:" then
              match Tokenize (TrimPrefix t "PHRASE:") with
              | ph0 :: _ => if decide (w = ph0) then true else matchesAny w terms
              | [] => matchesAny w terms
              end
            else if decide (w = t) then true else matchesAny w terms).
    destruct (HasPrefix t "PHRASE:") eqn:Htag.
    + destruct (Tokenize (TrimPrefix t "PHRASE:")) as [|ph0 rest] eqn:Etok.
      * rewrite IH. split.
        -- intros (t' & Ht' & H). exists t'. split; [right; exact Ht' | exact H].
        -- intros (t' & Ht' & H). apply elem_of_cons in Ht' as [->|Ht']; [|eauto].
           destruct H as [[H _]|[_ H]]; [congruence|].
           rewrite Etok in H. discriminate H.
      * destruct (decide (w = ph0)) as [->|Hne].
        -- split; [intros _ | reflexivity].
           exists t. split; [left|]. right. rewrite Etok. auto.
        -- rewrite IH. split.
           ++ intros (t' & Ht' & H). exists t'. split; [right; exact Ht' | exact H].
           ++ intros (t' & Ht' & H). apply elem_of_cons in Ht' as [->|Ht']; [|eauto].
              destruct H as [[H _]|[_ H]]; [congruence|].
              rewrite Etok in H. simpl in H. congruence.
    + destruct (decide (w = t)) as [->|Hne].
      * split; [intros _ | reflexivity]. exists t. split; [left | left; auto].
      * rewrite IH. split.
        -- intros (t' & Ht' & H). exists t'. split; [right; exact Ht' | exact H].
        -- intros (t' & Ht' & H). apply elem_of_cons in Ht' as [->|Ht']; [|eauto].
           destruct H as [[_ H]|[H _]]; congruence.
Qed.

Lemma findFirst_None terms toks :
  forall base, findFirst base toks terms = None <->
               forall w, w ∈ toks -> matchesAny w terms = false.
Proof.
  induction toks as [|w toks IH]; intros base; simpl.
  - split; [intros _ w H; inversion H | reflexivity].
  - destruct (matchesAny w terms) eqn:E.
    + split; [discriminate|]. intros H. specialize (H w (list_elem_of_here _ _)). congruence.
    + rewrite IH. split.
      * intros H w' Hw'. apply elem_of_cons in Hw' as [->|Hw']; auto.
      * intros H w' Hw'. apply H. right. exact Hw'.
Qed.

Lemma findFirst_Some terms toks :
  forall base i,
    (exists k w, i = base + k /\ toks !! k = Some w /\ matchesAny w terms = true /\
       forall j w', j < k -> toks !! j = Some w' -> matchesAny w' terms = false) ->
    findFirst base toks terms = Some i.
Proof.
  induction toks as [|w toks IH]; intros base i (k & w0 & -> & Hk & Hm & Hleast);
    [discriminate Hk|].
  simpl. destruct k as [|k]; simpl in Hk.
  - inversion Hk; subst w0. rewrite Hm, Nat.add_0_r. reflexivity.
  - rewrite (Hleast 0 w) by (lia || reflexivity).
    rewrite (IH (S base) (base + S k)); [reflexivity|].
    exists k, w0. split; [lia|]. split; [exact Hk|]. split; [exact Hm|].
    intros j w' Hj Hw'. apply (Hleast (S j) w'); [lia | exact Hw'].
Qed.

(** X25. The position around which [MakeSnippet] cuts: the least index of
    a content token that equals an untagged term or the first token of a
    tagged phrase; there is none exactly when no content token does. *)
Theorem MakeSnippet_match_position (toks terms : list string) (i : nat) :
  (findFirst 0 toks terms = Some i <->
   (exists w, toks !! i = Some w /\ termMatches terms w) /\
   forall j w, j < i -> toks !! j = Some w -> ~ termMatches terms w) /\
  (findFirst 0 toks terms = None <-> forall w, w ∈ toks -> ~ termMatches terms w).
Proof.
  split.
  - split.
    + intros H. apply findFirst_least in H as (k & w & E & Hk & Hm & Hleast).
      simpl in E. subst k. split.
      * exists w. split; [exact Hk|]. apply matchesAny_spec. exact Hm.
      * intros j w' Hj Hw' Hmatch. apply matchesAny_spec in Hmatch.
        rewrite (Hleast j w' Hj Hw') in Hmatch. discriminate.
    + intros [(w & Hw & Hm) Hleast]. apply findFirst_Some.
      exists i, w. split; [reflexivity|]. split; [exact Hw|].
      split; [apply matchesAny_spec; exact Hm|].
      intros j w' Hj Hw'. destruct (matchesAny w' terms) eqn:E; [|reflexivity].
      exfalso. apply (Hleast j w' Hj Hw'). apply matchesAny_spec. exact E.
  - rewrite findFirst_None. split.
    + intros H w Hw Hm. apply matchesAny_spec in Hm. rewrite (H w Hw) in Hm. discriminate.
    + intros H w Hw. destruct (matchesAny w terms) eqn:E; [|reflexivity].
      exfalso. apply (H w Hw). apply matchesAny_spec. exact E.
Qed.

(** X26. A matched phrase never positions the snippet.  [Search] records a
    matched phrase without its tag; such a string, when it holds a byte
    that is not a lower-case letter or a digit (the space between two
    words, say), equals no content token, so with only such terms the
    snippet is the opening of the document. *)
Theorem MakeSnippet_untagged_phrase_falls_back (content : string) (terms : list string) :
  content <> "" ->
  Forall (fun t => HasPrefix t "PHRASE:" = false /\
                   ~ Forall (fun c => isLower c || isDigit c = true)
                            (list_ascii_of_string t)) terms ->
  MakeSnippet content terms = Join (take 30 (Tokenize content)) " " +:+ "...".
Proof.
  intros Hne Hterms.
  assert (Hnone : findFirst 0 (Tokenize content) terms = None).
  { apply findFirst_None. intros w Hw.
    destruct (matchesAny w terms) eqn:E; [|reflexivity]. exfalso.
    apply matchesAny_spec in E as (t & Ht & [[_ ->]|[Htag _]]).
    - rewrite Forall_forall in Hterms. destruct (Hterms t Ht) as [_ Hbad]. apply Hbad.
      apply elem_of_Tokenize in Hw as [Hw _].
      apply (findWords_runs (fun c => isLower c || isDigit c = true)
               (ToLower content) (ToLower_bytes content) "" t); [constructor | exact Hw].
    - rewrite Forall_forall in Hterms. destruct (Hterms t Ht) as [H _]. congruence. }
  unfold MakeSnippet.
  destruct (decide (String.length content = 0)) as [E|_];
    [apply length_zero_empty in E; contradiction|].
  rewrite Hnone. unfold slice. rewrite drop_0, Nat.sub_0_r.
  destruct (Nat.ltb_spec (length (Tokenize content)) 30) as [Hlt|Hge]; [|reflexivity].
  rewrite !take_ge by lia. reflexivity.
Qed.

Lemma MakeSnippet_untagged_phrase_falls_back_witness :
  MakeSnippet "the small cat sat" ["small cat"]
  = Join (take 30 (Tokenize "the small cat sat")) " " +:+ "...".
Proof.
  apply (MakeSnippet_untagged_phrase_falls_back "the small cat sat" ["small cat"]).
  - discriminate.
  - apply Forall_cons. split; [|apply Forall_nil_2]. split; [reflexivity|].
    intros H. do 5 (apply Forall_cons in H as [_ H]).
    apply Forall_cons in H as [H _]. discriminate H.
Defined.
